(** * FrostDB table engine: a shallow embedding of [table.go]

    The development follows the source file by file and function by function.

    - 64-bit unsigned transaction ids are integers in [Z] with the wrap-around
      of [uint64] written out ([wrap64]).
    - Pointers to table blocks ([*TableBlock]) are indices into a heap of
      blocks owned by the table, so that pointer identity ([t.active != block])
      is equality of indices.
    - Interfaces of external collaborators (the WAL, the parquet writer, the
      row reader, data sources) are records or parameters whose behaviour is
      an arbitrary function of the calls made so far.
    - Loops that the source writes with [for { ... }] take a fuel argument; the
      theorems that need a result show that some amount of fuel produces it.

    The first part of the file holds the definitions, the second part the
    lemmas and theorems.  The last sections of each part are about the group
    key and the sum aggregation of [aggregate.go]. *)

From Stdlib Require Import ZArith List Lia Bool String.
From Stdlib Require Import Sorting.Sorted Sorting.Permutation.
From stdpp Require Import base tactics option list sorting gmap strings.

Open Scope Z_scope.

(* ===================================================================== *)
(** * Part A. Definitions                                                 *)
(* ===================================================================== *)

(** ** Machine integers *)

(** [uint64] arithmetic wraps modulo 2^64. *)
Definition wrap64 (z : Z) : Z := z mod 2 ^ 64.

(** ** Completed blocks and the [lastCompleted] watermark
    ([table.go], type [completedBlock] and the tail of [Table.writeBlock]) *)

Record completedBlock := mkCompleted { cb_prevTx : Z; cb_tx : Z }.

#[global] Instance completedBlock_eq_dec : EqDecision completedBlock.
Proof. solve_decision. Defined.

(** The comparison handed to [sort.Slice]:
    [t.completedBlocks[i].prevTx < t.completedBlocks[j].prevTx]. *)
Definition lessPrevTx (a b : completedBlock) : bool := cb_prevTx a <? cb_prevTx b.

(** What [sort.Slice] guarantees about its result: no element is [less] than
    an element before it.  [sort.Slice] is not stable, so nothing more is
    known about elements with equal keys. *)
Definition prevTxLe (a b : completedBlock) : Prop := cb_prevTx a <= cb_prevTx b.

#[global] Instance prevTxLe_dec a b : Decision (prevTxLe a b).
Proof. unfold prevTxLe. apply _. Defined.

(** The loop
    [for { if len(cbs) == 0 { break }; if cbs[0].prevTx != lastCompleted { break };
           lastCompleted = cbs[0].tx; cbs = cbs[1:] }].
    It recurses on the slice, which loses its head at every iteration. *)
Fixpoint advanceCompleted (lastCompleted : Z) (cbs : list completedBlock)
  : Z * list completedBlock :=
  match cbs with
  | [] => (lastCompleted, [])
  | b :: rest =>
      if negb (cb_prevTx b =? lastCompleted) then (lastCompleted, cbs)
      else advanceCompleted (cb_tx b) rest
  end.

(** Lines 420-435 of [writeBlock] on the two fields they touch: append the
    entry, sort by [prevTx], run the loop.  [sortSlice] stands for
    [sort.Slice] with the comparison [lessPrevTx]. *)
Definition completeBlock (sortSlice : list completedBlock -> list completedBlock)
  (st : Z * list completedBlock) (b : completedBlock) : Z * list completedBlock :=
  advanceCompleted (fst st) (sortSlice (snd st ++ [b])).

(** Persistence tasks finishing one after the other, in the order given. *)
Definition completeAll (sortSlice : list completedBlock -> list completedBlock)
  (st : Z * list completedBlock) (order : list completedBlock) : Z * list completedBlock :=
  fold_left (completeBlock sortSlice) order st.

(** One admissible [sort.Slice]: merge sort on the key. *)
Definition sortByPrevTx (l : list completedBlock) : list completedBlock :=
  merge_sort prevTxLe l.

(** The entries of successively rotated blocks.  [RotateBlock] creates the new
    block with [prevTx] the [minTx] of the block it replaces, so the entries of
    the blocks rotated one after the other are [(t0,t1); (t1,t2); ...]. *)
Fixpoint chainBlocks (t0 : Z) (ts : list Z) : list completedBlock :=
  match ts with
  | [] => []
  | t1 :: ts' => mkCompleted t0 t1 :: chainBlocks t1 ts'
  end.

(** Transaction ids grow along the chain. *)
Fixpoint increasing (t0 : Z) (ts : list Z) : Prop :=
  match ts with
  | [] => True
  | t1 :: ts' => t0 < t1 /\ increasing t1 ts'
  end.

(** The watermark the spec describes: walk the chain from its start for as
    long as the blocks met have been persisted. *)
Fixpoint contiguousWatermark (lc : Z) (chain done : list completedBlock) : Z :=
  match chain with
  | [] => lc
  | b :: chain' =>
      if decide (b ∈ done) then contiguousWatermark (cb_tx b) chain' done else lc
  end.

(** [linked lc popped lc']: the entries [popped] lead from [lc] to [lc'], each
    one starting where the previous one ended. *)
Inductive linked : Z -> list completedBlock -> Z -> Prop :=
| linked_nil lc : linked lc [] lc
| linked_cons lc b l lc' :
    cb_prevTx b = lc -> linked (cb_tx b) l lc' -> linked lc (b :: l) lc'.

(** The head of the remaining slice does not continue from [lc]. *)
Definition headBlocked (lc : Z) (cbs : list completedBlock) : Prop :=
  match cbs with
  | [] => True
  | h :: _ => cb_prevTx h <> lc
  end.


(** ** Errors, contexts, record batches *)

(** Go [error] values.  [Errorf prefix cause] is
    [fmt.Errorf("<prefix>: %w", cause)]; [ErrExternal] is an error produced by
    a collaborator behind an interface (the WAL, a data source, a callback). *)
Inductive error : Type :=
| ErrNoSchema
| ErrTableClosing
| ErrCanceled
| ErrExternal (msg : string)
| Errorf (prefix : string) (cause : error).

(** [context.Context], reduced to what [ctx.Err()] returns. *)
Record Context := mkContext { ctx_Err : option error }.

(** [arrow.Record]: the names of the schema fields, the stored row count
    ([NumRows()]) and the column arrays. *)
Record arrowRecord := mkRecord {
  rec_fields : list string;
  rec_numRows : Z;
  rec_columns : list (list Z)
}.

Definition NumRows (r : arrowRecord) : Z := rec_numRows r.

(** ** The WAL interface *)

(** The payload of [walpb.Record] for the three entry types [table.go] builds.
    The table configuration carried by [NewTableBlock] is left out. *)
Inductive walEntry : Type :=
| Entry_NewTableBlock (tableName : string) (blockId : Z)
| Entry_TableBlockPersisted (tableName : string) (blockId : Z)
| Entry_Write (tableName : string) (data : list Z).

(** A call made through the [WAL] interface. *)
Inductive walCall : Type :=
| CallLog (tx : Z) (e : walEntry)
| CallLogRecord (tx : Z) (table : string) (r : arrowRecord).

(** A value of interface type [WAL]: the calls it has received so far, and its
    behaviour, which decides from the calls received whether the next call
    returns an error.  Every deterministic implementation is of this form. *)
Record WAL := mkWAL {
  wal_calls : list walCall;
  wal_fails : list walCall -> walCall -> option error
}.

Definition wal_invoke (w : WAL) (c : walCall) : WAL * option error :=
  (mkWAL (wal_calls w ++ [c]) (wal_fails w), wal_fails w (wal_calls w) c).

(** [walpkg.NopWAL]: every call succeeds. *)
Definition NopWAL : WAL := mkWAL [] (fun _ _ => None).

(** A WAL whose [LogRecord] always fails and whose [Log] succeeds. *)
Definition failingLogRecordWAL : WAL :=
  mkWAL [] (fun _ c => match c with
                       | CallLogRecord _ _ _ => Some (ErrExternal "wal: log record")
                       | CallLog _ _ => None
                       end).

(** A WAL whose every call fails. *)
Definition brokenWAL : WAL := mkWAL [] (fun _ _ => Some (ErrExternal "wal: closed")).

(** ** Scan sources *)

(** What a source hands to the [emit] callback of [Scan]: an [arrow.Record], a
    [dynparquet.DynamicRowGroup] (of which only the names of the schema fields
    are read here), or a value of another dynamic type. *)
Inductive scanItem : Type :=
| ItemRecord (r : arrowRecord)
| ItemRowGroup (fields : list string)
| ItemOther.

(** A value of interface type [DataSource].  The [emit] callback
    [collectRowGroups] passes never fails, so a call of [Scan] amounts to the
    items emitted followed by the error returned.  The arguments are the path
    and the cut-off timestamp; schema and filter are opaque here. *)
Record DataSource := mkSource {
  ds_String : string;
  ds_Scan : string -> Z -> list scanItem * option error
}.

(** ** Blocks, metrics, database, table *)

(** Modelled from the spec: the in-memory index [LSM] is not part of
    [table.go].  Section 4.6: it is append-only and keyed by tx, and every
    batch added is emitted exactly once by a [Scan]. *)
Definition LSM : Type := list (Z * arrowRecord).

Definition LSM_Add (tx : Z) (r : arrowRecord) (idx : LSM) : LSM := idx ++ [(tx, r)].

Definition LSM_Scan (idx : LSM) : list scanItem * option error :=
  (map (fun e => ItemRecord (snd e)) idx, None).

Record TableBlock := mkBlock {
  ulid : Z;
  minTx : Z;
  prevTx : Z;
  size : Z;
  lastSnapshotSize : Z;
  index : LSM;
  pendingWritersWg : Z;
  pendingReadersWg : Z
}.

(** The prometheus collectors that [table.go] updates, as exact counts. *)
Record tableMetrics := mkMetrics {
  blockRotated : Z;
  rowsInserted : Z;
  zeroRowsInserted : Z;
  rowInsertSize : list Z;
  lastCompletedBlockTx : Z;
  numParts : Z
}.

(** The fields of [DB] and of its column store that [table.go] reads.
    [db_tx] is the transaction clock, [db_committed] the transactions whose
    commit hook has run. *)
Record DB := mkDB {
  db_name : string;
  db_tx : Z;
  db_committed : list Z;
  activeMemorySize : Z;
  db_sources : list DataSource
}.

(** [Table].  [heap] holds the blocks the table has allocated, a pointer
    [*TableBlock] is an index into it and [active = None] is the nil pointer of
    a read-only table.  [spawned] lists the blocks for which
    [go t.writeBlock(block, true)] has been started.  [generateULID] reads the
    wall clock and a random source: [ulidSeq] is the sequence of values it
    returns and [ulidNext] the position reached. *)
Record Table := mkTable {
  db : DB;
  name : string;
  metrics : tableMetrics;
  pendingBlocks : gset nat;
  completedBlocks : list completedBlock;
  lastCompleted : Z;
  active : option nat;
  wal : WAL;
  closing : bool;
  heap : list TableBlock;
  spawned : list nat;
  ulidSeq : nat -> Z;
  ulidNext : nat
}.

Definition set_db (f : DB -> DB) (t : Table) : Table :=
  mkTable (f (db t)) (name t) (metrics t) (pendingBlocks t) (completedBlocks t)
    (lastCompleted t) (active t) (wal t) (closing t) (heap t) (spawned t) (ulidSeq t) (ulidNext t).
Definition set_metrics (f : tableMetrics -> tableMetrics) (t : Table) : Table :=
  mkTable (db t) (name t) (f (metrics t)) (pendingBlocks t) (completedBlocks t)
    (lastCompleted t) (active t) (wal t) (closing t) (heap t) (spawned t) (ulidSeq t) (ulidNext t).
Definition set_pendingBlocks (f : gset nat -> gset nat) (t : Table) : Table :=
  mkTable (db t) (name t) (metrics t) (f (pendingBlocks t)) (completedBlocks t)
    (lastCompleted t) (active t) (wal t) (closing t) (heap t) (spawned t) (ulidSeq t) (ulidNext t).
Definition set_completed (lc : Z) (cbs : list completedBlock) (t : Table) : Table :=
  mkTable (db t) (name t) (metrics t) (pendingBlocks t) cbs
    lc (active t) (wal t) (closing t) (heap t) (spawned t) (ulidSeq t) (ulidNext t).
Definition set_active (a : option nat) (t : Table) : Table :=
  mkTable (db t) (name t) (metrics t) (pendingBlocks t) (completedBlocks t)
    (lastCompleted t) a (wal t) (closing t) (heap t) (spawned t) (ulidSeq t) (ulidNext t).
Definition set_wal (w : WAL) (t : Table) : Table :=
  mkTable (db t) (name t) (metrics t) (pendingBlocks t) (completedBlocks t)
    (lastCompleted t) (active t) w (closing t) (heap t) (spawned t) (ulidSeq t) (ulidNext t).
Definition set_closing (c : bool) (t : Table) : Table :=
  mkTable (db t) (name t) (metrics t) (pendingBlocks t) (completedBlocks t)
    (lastCompleted t) (active t) (wal t) c (heap t) (spawned t) (ulidSeq t) (ulidNext t).
Definition set_heap (f : list TableBlock -> list TableBlock) (t : Table) : Table :=
  mkTable (db t) (name t) (metrics t) (pendingBlocks t) (completedBlocks t)
    (lastCompleted t) (active t) (wal t) (closing t) (f (heap t)) (spawned t) (ulidSeq t) (ulidNext t).
Definition set_spawned (f : list nat -> list nat) (t : Table) : Table :=
  mkTable (db t) (name t) (metrics t) (pendingBlocks t) (completedBlocks t)
    (lastCompleted t) (active t) (wal t) (closing t) (heap t) (f (spawned t)) (ulidSeq t) (ulidNext t).
Definition set_ulidNext (n : nat) (t : Table) : Table :=
  mkTable (db t) (name t) (metrics t) (pendingBlocks t) (completedBlocks t)
    (lastCompleted t) (active t) (wal t) (closing t) (heap t) (spawned t) (ulidSeq t) n.

Definition set_db_tx (tx : Z) (d : DB) : DB :=
  mkDB (db_name d) tx (db_committed d) (activeMemorySize d) (db_sources d).
Definition add_db_committed (tx : Z) (d : DB) : DB :=
  mkDB (db_name d) (db_tx d) (db_committed d ++ [tx]) (activeMemorySize d) (db_sources d).

Definition set_index (f : LSM -> LSM) (b : TableBlock) : TableBlock :=
  mkBlock (ulid b) (minTx b) (prevTx b) (size b) (lastSnapshotSize b) (f (index b))
    (pendingWritersWg b) (pendingReadersWg b).
Definition set_pendingWritersWg (n : Z) (b : TableBlock) : TableBlock :=
  mkBlock (ulid b) (minTx b) (prevTx b) (size b) (lastSnapshotSize b) (index b)
    n (pendingReadersWg b).
Definition set_pendingReadersWg (n : Z) (b : TableBlock) : TableBlock :=
  mkBlock (ulid b) (minTx b) (prevTx b) (size b) (lastSnapshotSize b) (index b)
    (pendingWritersWg b) n.

(** ** A state monad for the methods of [Table]

    A method either returns a value and leaves a new table state, or panics
    (nil pointer dereference, negative wait-group counter), or blocks for ever
    on a wait-group that nothing in a sequential run can release, or uses up
    the fuel given to its loop. *)
Inductive outcome (A : Type) : Type :=
| Ret (a : A) (t : Table)
| Panic
| Blocked
| OutOfFuel.
Arguments Ret {A} a t.
Arguments Panic {A}.
Arguments Blocked {A}.
Arguments OutOfFuel {A}.

Definition M (A : Type) : Type := Table -> outcome A.

Definition ret {A} (a : A) : M A := fun t => Ret a t.

Definition bind {A B} (m : M A) (k : A -> M B) : M B :=
  fun t => match m t with
           | Ret a t' => k a t'
           | Panic => Panic
           | Blocked => Blocked
           | OutOfFuel => OutOfFuel
           end.

Definition get : M Table := fun t => Ret t t.
Definition modify (f : Table -> Table) : M unit := fun t => Ret tt (f t).
Definition panic {A} : M A := fun _ => Panic.
Definition block {A} : M A := fun _ => Blocked.

Notation "x <- m ;; k" := (bind m (fun x => k))
  (at level 100, m at next level, right associativity).

(** ** Collaborators reached through the table *)

(** Modelled from the spec: [DB.begin], the transaction clock, is not part of
    [table.go].  Section 2: it assigns monotonic 64-bit transaction ids.  The
    id is the successor of the last one, in [uint64]. *)
Definition db_begin : M Z := fun t =>
  let tx := wrap64 (db_tx (db t) + 1) in
  Ret tx (set_db (set_db_tx tx) t).

(** The commit hook returned by [DB.begin]. *)
Definition db_commit (tx : Z) : M unit := modify (set_db (add_db_committed tx)).

(** [t.wal.Log(tx, &walpb.Record{...})]. *)
Definition wal_Log (tx : Z) (e : walEntry) : M (option error) := fun t =>
  let '(w, err) := wal_invoke (wal t) (CallLog tx e) in
  Ret err (set_wal w t).

(** [t.wal.LogRecord(tx, t.name, record)]. *)
Definition wal_LogRecord (tx : Z) (table : string) (r : arrowRecord) : M (option error) :=
  fun t =>
    let '(w, err) := wal_invoke (wal t) (CallLogRecord tx table r) in
    Ret err (set_wal w t).

(** [generateULID]. *)
Definition generateULID : M Z := fun t =>
  Ret (ulidSeq t (ulidNext t)) (set_ulidNext (S (ulidNext t)) t).

(** [ulid.Time()]: the 48 high bits of the 128-bit identifier. *)
Definition ulid_Time (id : Z) : Z := Z.shiftr id 80.

(** Dereference of a block pointer. *)
Definition deref (p : nat) : M TableBlock := fun t =>
  match heap t !! p with
  | Some b => Ret b t
  | None => Panic
  end.

(** [sync.WaitGroup.Add(delta)] on [pendingWritersWg]; a negative counter
    panics. *)
Definition pendingWritersWg_Add (p : nat) (delta : Z) : M unit :=
  b <- deref p ;;
  if pendingWritersWg b + delta <? 0 then panic
  else modify (set_heap (alter (set_pendingWritersWg (pendingWritersWg b + delta)) p)).

Definition pendingWritersWg_Done (p : nat) : M unit := pendingWritersWg_Add p (-1).

(** [sync.WaitGroup.Wait()]: returns once the counter is zero. *)
Definition pendingWritersWg_Wait (p : nat) : M unit :=
  b <- deref p ;;
  if pendingWritersWg b =? 0 then ret tt else block.

Definition pendingReadersWg_Add (p : nat) (delta : Z) : M unit :=
  b <- deref p ;;
  if pendingReadersWg b + delta <? 0 then panic
  else modify (set_heap (alter (set_pendingReadersWg (pendingReadersWg b + delta)) p)).

Definition pendingReadersWg_Done (p : nat) : M unit := pendingReadersWg_Add p (-1).

Definition pendingReadersWg_Wait (p : nat) : M unit :=
  b <- deref p ;;
  if pendingReadersWg b =? 0 then ret tt else block.

(** ** [table.go]: blocks *)

(** The function [newTableBlock]: a fresh block with an empty index and a zero
    size counter.  It is allocated at the end of the heap. *)
Definition new_block (prevTx tx id : Z) : TableBlock :=
  mkBlock id tx prevTx 0 0 [] 0 0.

(** The method [Table.newTableBlock].  [id.MarshalBinary()] cannot fail for
    a 16-byte ULID and is left out. *)
Definition newTableBlock (prevTx tx id : Z) : M (option error) :=
  t <- get ;;
  err <- wal_Log tx (Entry_NewTableBlock (name t) id) ;;
  match err with
  | Some e => ret (Some e)
  | None =>
      _ <- modify (fun t => set_active (Some (length (heap t)))
                              (set_heap (fun h => h ++ [new_block prevTx tx id]) t)) ;;
      ret None
  end.

(** [TableBlock.Size]. *)
Definition Size (b : TableBlock) : Z := size b.

(** [TableBlock.InsertRecord].  The deferred function updates
    [rowsInserted] and [rowInsertSize] on every path. *)
Definition TableBlock_InsertRecord (ctx : Context) (p : nat) (tx : Z) (record : arrowRecord)
  : M (option error) :=
  _ <- deref p ;;
  res <- (if NumRows record =? 0 then
            _ <- modify (set_metrics (fun m =>
                   mkMetrics (blockRotated m) (rowsInserted m) (zeroRowsInserted m + 1)
                     (rowInsertSize m) (lastCompletedBlockTx m) (numParts m))) ;;
            ret None
          else
            _ <- modify (set_heap (alter (set_index (LSM_Add tx record)) p)) ;;
            ret None) ;;
  _ <- modify (set_metrics (fun m =>
         mkMetrics (blockRotated m) (rowsInserted m + NumRows record) (zeroRowsInserted m)
           (rowInsertSize m ++ [NumRows record]) (lastCompletedBlockTx m) (numParts m))) ;;
  ret res.

(** ** [table.go]: rotation *)

(** [Table.RotateBlock].  [block] is a non-nil pointer.  The comparison
    [t.active != block] is pointer comparison.  The deferred [commit()] runs on
    both paths after [begin]. *)
Definition RotateBlock (ctx : Context) (block : nat) : M (option error) :=
  t <- get ;;
  if negb (bool_decide (active t = Some block)) then ret None
  else
    _ <- deref block ;;       (* block.Size() in the log call *)
    tx <- db_begin ;;
    id <- generateULID ;;
    act <- deref block ;;     (* t.active.minTx *)
    err <- newTableBlock (minTx act) tx id ;;
    match err with
    | Some e =>
        _ <- db_commit tx ;;
        ret (Some e)
    | None =>
        _ <- modify (set_metrics (fun m =>
               mkMetrics (blockRotated m + 1) (rowsInserted m) (zeroRowsInserted m)
                 (rowInsertSize m) (lastCompletedBlockTx m) 0)) ;;
        _ <- modify (set_pendingBlocks (fun s => {[block]} ∪ s)) ;;
        _ <- modify (set_spawned (fun l => l ++ [block])) ;;
        _ <- db_commit tx ;;
        ret None
    end.

(** [Table.ActiveBlock]. *)
Definition ActiveBlock : M (option nat) := t <- get ;; ret (active t).

(** [Table.ActiveWriteBlock].  The result is the block together with its
    release handle [t.active.pendingWritersWg.Done], which
    [pendingWritersWg_Done] applied to the same pointer models. *)
Definition ActiveWriteBlock : M (nat + error) :=
  t <- get ;;
  if closing t then ret (inr ErrTableClosing)
  else match active t with
       | None => panic
       | Some p =>
           _ <- pendingWritersWg_Add p 1 ;;
           ret (inl p)
       end.

(** ** [table.go]: insertion *)

(** [Table.appender]: one iteration of the [for] loop per unit of fuel. *)
Fixpoint appender (fuel : nat) (ctx : Context) : M (nat + error) :=
  match fuel with
  | O => fun _ => OutOfFuel
  | S fuel' =>
      r <- ActiveWriteBlock ;;
      match r with
      | inr err => ret (inr err)
      | inl block =>
          b <- deref block ;;
          t <- get ;;
          let blockSize := Size b in
          if blockSize <? activeMemorySize (db t) then ret (inl block)
          else
            _ <- pendingWritersWg_Done block ;;
            err <- RotateBlock ctx block ;;
            match err with
            | Some e => ret (inr (Errorf "rotate block" e))
            | None => appender fuel' ctx
            end
      end
  end.

(** [Table.InsertRecord].  The two deferred calls run in reverse order of
    their [defer] statements: [commit()], then [close()]. *)
Definition InsertRecord (fuel : nat) (ctx : Context) (record : arrowRecord)
  : M (Z * option error) :=
  r <- appender fuel ctx ;;
  match r with
  | inr err => ret (0, Some (Errorf "get appender" err))
  | inl block =>
      tx <- db_begin ;;
      t <- get ;;
      res <- (err <- wal_LogRecord tx (name t) record ;;
              match err with
              | Some e => ret (tx, Some (Errorf "append to log" e))
              | None =>
                  err' <- TableBlock_InsertRecord ctx block tx record ;;
                  match err' with
                  | Some e => ret (tx, Some (Errorf "insert buffer into block" e))
                  | None => ret (tx, None)
                  end
              end) ;;
      _ <- db_commit tx ;;
      _ <- pendingWritersWg_Done block ;;
      ret res
  end.

(** [Table.close]. *)
Definition close : M unit :=
  t <- get ;;
  match active t with
  | None => panic
  | Some p =>
      _ <- pendingWritersWg_Wait p ;;
      modify (set_closing true)
  end.

(** ** [table.go]: persistence of a rotated block *)

(** [Table.dropPendingBlock]. *)
Definition dropPendingBlock (block : nat) : M unit :=
  _ <- modify (set_pendingBlocks (fun s => s ∖ {[block]})) ;;
  pendingReadersWg_Wait block.

(** Lines 419-436 of [writeBlock] on the table state.  The gauge is set at
    every iteration of the loop, so it ends at the new watermark when the loop
    ran at least once and is untouched otherwise. *)
Definition recordCompleted (sortSlice : list completedBlock -> list completedBlock)
  (b : TableBlock) : M unit :=
  modify (fun t =>
    let st := completeBlock sortSlice (lastCompleted t, completedBlocks t)
                (mkCompleted (prevTx b) (minTx b)) in
    let t' := set_completed (fst st) (snd st) t in
    if (length (snd st) <? S (length (completedBlocks t)))%nat then
      set_metrics (fun m =>
        mkMetrics (blockRotated m) (rowsInserted m) (zeroRowsInserted m)
          (rowInsertSize m) (fst st) (numParts m)) t'
    else t').

(** [Table.writeBlock].  [persistErr] is the result of the external
    [block.Persist()].  [t.db.maintainWAL()] belongs to the database and is
    left out; the commented-out snapshot code is not modelled. *)
Definition writeBlock (sortSlice : list completedBlock -> list completedBlock)
  (persistErr : option error) (block : nat) : M unit :=
  _ <- pendingWritersWg_Wait block ;;
  _ <- dropPendingBlock block ;;
  match persistErr with
  | Some _ => ret tt
  | None =>
      tx <- db_begin ;;
      b <- deref block ;;
      t <- get ;;
      err <- wal_Log tx (Entry_TableBlockPersisted (name t) (ulid b)) ;;
      match err with
      | Some _ => db_commit tx
      | None =>
          _ <- recordCompleted sortSlice b ;;
          db_commit tx
      end
  end.

(** ** [table.go]: scans *)

(** The loop of [memoryBlocks] over [t.pendingBlocks].  Go leaves the
    iteration order over a map unspecified; the caller passes one order. *)
Fixpoint memoryBlocks_pending (ps : list nat) (acc : list nat) (lastTs : Z)
  : M (list nat * Z) :=
  match ps with
  | [] => ret (acc, lastTs)
  | p :: ps' =>
      b <- deref p ;;
      _ <- pendingReadersWg_Add p 1 ;;
      memoryBlocks_pending ps' (acc ++ [p])
        (if ulid_Time (ulid b) <? lastTs then ulid_Time (ulid b) else lastTs)
  end.

(** [Table.memoryBlocks]. *)
Definition memoryBlocks : M (list nat * Z) :=
  t <- get ;;
  match active t with
  | None => ret ([], 0)
  | Some a =>
      b <- deref a ;;
      _ <- pendingReadersWg_Add a 1 ;;
      memoryBlocks_pending (elements (pendingBlocks t)) [a] (ulid_Time (ulid b))
  end.

(** The index of a memory block seen through the [DataSource] interface. *)
Definition indexSource (idx : LSM) : DataSource :=
  mkSource "lsm" (fun _ _ => LSM_Scan idx).

(** The loop [for _, source := range sources] of [collectRowGroups]: the items
    sent on the channel, and the error of the first source that fails. *)
Fixpoint scanSources (path : string) (lastBlockTimestamp : Z) (sources : list DataSource)
  : list scanItem * option error :=
  match sources with
  | [] => ([], None)
  | s :: rest =>
      let '(items, err) := ds_Scan s path lastBlockTimestamp in
      match err with
      | Some e => (items, Some e)
      | None =>
          let '(items', err') := scanSources path lastBlockTimestamp rest in
          (items ++ items', err')
      end
  end.

Fixpoint derefAll (ps : list nat) : M (list TableBlock) :=
  match ps with
  | [] => ret []
  | p :: ps' => b <- deref p ;; bs <- derefAll ps' ;; ret (b :: bs)
  end.

Fixpoint releaseReaders (ps : list nat) : M unit :=
  match ps with
  | [] => ret tt
  | p :: ps' => _ <- pendingReadersWg_Done p ;; releaseReaders ps'
  end.

(** The sources a scan goes through: [t.db.sources] followed by the index of
    every memory block. *)
Definition scanSourcesOf (t : Table) (blocks : list TableBlock) : list DataSource :=
  db_sources (db t) ++ map (fun b => indexSource (index b)) blocks.

(** [Table.collectRowGroups]: the items sent on [rowGroups] and the error
    returned.  The transaction [tx] is not used by the source. *)
Definition collectRowGroups (ctx : Context) (tx : Z) : M (list scanItem * option error) :=
  mb <- memoryBlocks ;;
  t <- get ;;
  bs <- derefAll (fst mb) ;;
  let res := scanSources (db_name (db t) ++ "/" ++ name t) (snd mb) (scanSourcesOf t bs) in
  _ <- releaseReaders (fst mb) ;;
  ret res.

(** A callback of the query layer: whether it fails on a record. *)
Abbreviation Callback := (arrowRecord -> option error) (only parsing).

(** The record a [SchemaIterator] worker builds for an item: schema
    [{name: string}], one row per field of the item. *)
Definition schemaRecordOf (names : list string) : arrowRecord :=
  mkRecord ["name"%string] (Z.of_nat (length names)) [].

(** The field names a worker appends for an item, in order; [None] for the
    [default] case of the type switch. *)
Definition schemaFieldNames (it : scanItem) : option (list string) :=
  match it with
  | ItemRecord r => Some (rec_fields r)
  | ItemRowGroup fields => Some fields
  | ItemOther => None
  end.

(** The workers of [SchemaIterator] consuming the channel.  [sched] says which
    worker receives each item (the choice belongs to the Go scheduler).  The
    result lists, per callback invocation, the worker and the field names of
    the record passed, and the first error met. *)
Fixpoint schemaWorkers (callbacks : list Callback) (sched : list nat) (items : list scanItem)
  : list (nat * list string) * option error :=
  match items with
  | [] => ([], None)
  | it :: items' =>
      let w := (hd 0%nat sched mod length callbacks)%nat in
      match schemaFieldNames it with
      | None => ([], Some (ErrExternal "unknown row group type"))
      | Some names =>
          match callbacks !! w with
          | None => ([], Some (ErrExternal "no such worker"))
          | Some cb =>
              match cb (schemaRecordOf names) with
              | Some e => ([(w, names)], Some e)
              | None =>
                  let '(tr, err) := schemaWorkers callbacks (tl sched) items' in
                  ((w, names) :: tr, err)
              end
          end
      end
  end.

(** [Table.SchemaIterator], with the producer run to completion before the
    workers: the bounded channel only delays the producer.  A context that is
    already cancelled makes every goroutine stop at its first [select]. *)
Definition SchemaIterator (ctx : Context) (tx : Z) (callbacks : list Callback)
  (sched : list nat) : M (list (nat * list string) * option error) :=
  if (length callbacks =? 0)%nat then
    ret ([], Some (ErrExternal "no callbacks provided"))
  else
    match ctx_Err ctx with
    | Some e => ret ([], Some e)
    | None =>
        r <- collectRowGroups ctx tx ;;
        let '(tr, werr) := schemaWorkers callbacks sched (fst r) in
        match snd r with
        | Some e => ret (tr, Some e)
        | None => ret (tr, werr)
        end
    end.

(** The number of sources a scan of [t] reads. *)
Definition numSources (t : Table) : nat :=
  (length (db_sources (db t)) +
   match active t with
   | None => 0
   | Some _ => S (length (elements (pendingBlocks t)))
   end)%nat.

(** ** Example states *)

Definition exampleDB : DB := mkDB "db" 0 [] 100 [].

Definition emptyMetrics : tableMetrics := mkMetrics 0 0 0 [] 0 0.

(** A table with one active block, created at transaction 1. *)
Definition exampleTable (w : WAL) : Table :=
  mkTable (mkDB "db" 1 [1] 100 []) "t" emptyMetrics ∅ [] 0 (Some 0%nat) w false
    [new_block 0 1 (Z.shiftl 1000 80)] [] (fun n => Z.shiftl (1001 + Z.of_nat n) 80) 0.

(** The same table with an active block that has reached the size threshold. *)
Definition fullTable (w : WAL) : Table :=
  mkTable (mkDB "db" 1 [1] 100 []) "t" emptyMetrics ∅ [] 0 (Some 0%nat) w false
    [mkBlock (Z.shiftl 1000 80) 1 0 100 0 [] 0 0] []
    (fun n => Z.shiftl (1001 + Z.of_nat n) 80) 0.

Definition liveCtx : Context := mkContext None.
Definition canceledCtx : Context := mkContext (Some ErrCanceled).

Definition threeRows : arrowRecord := mkRecord ["v"%string] 3 [[1; 2; 3]].
Definition twoRows : arrowRecord := mkRecord ["v"%string; "w"%string] 2 [[4; 5]; [6; 7]].
Definition zeroRows : arrowRecord := mkRecord ["v"%string] 0 [[]].

(** ** Well-formed tables and what a scan of the memory blocks reads *)

(** A writable table: the active pointer is valid and no writer wait-group
    counter is negative (Go's [sync.WaitGroup] panics before a counter becomes
    negative). *)
Definition wf (t : Table) : Prop :=
  (exists a, active t = Some a /\ (a < length (heap t))%nat) /\
  Forall (fun b => 0 <= pendingWritersWg b) (heap t).

(** The index behind a block pointer; a dangling pointer has nothing. *)
Definition indexOf (h : list TableBlock) (p : nat) : LSM :=
  match h !! p with
  | Some b => index b
  | None => []
  end.

Definition indexAt (t : Table) (p : nat) : LSM := indexOf (heap t) p.

(** The blocks [memoryBlocks] collects: the active one and the pending ones. *)
Definition memoryPtrs (t : Table) : list nat :=
  match active t with
  | None => []
  | Some a => a :: elements (pendingBlocks t)
  end.

(** The items the indexes of the memory blocks emit when scanned. *)
Definition memoryItems (t : Table) : list scanItem :=
  flat_map (fun p => fst (LSM_Scan (indexAt t p))) (memoryPtrs t).

(** A table a scan can read: the pointers of its memory blocks are valid and
    no reader wait-group counter is negative. *)
Definition readable (t : Table) : Prop :=
  (forall p, p ∈ memoryPtrs t -> is_Some (heap t !! p)) /\
  Forall (fun b => 0 <= pendingReadersWg b) (heap t).

(** [filepath.Join(t.db.name, t.name)]. *)
Definition scanPath (t : Table) : string := db_name (db t) ++ "/" ++ name t.

(** What [appender] and [RotateBlock] leave alone: the indexes, the set of
    memory blocks up to fresh empty blocks, the insertion metrics, the
    collaborators' behaviour. *)
Record frame (t t' : Table) : Prop := mkFrame {
  frame_index : forall p, indexAt t' p = indexAt t p;
  frame_ptrs : forall p, p ∈ memoryPtrs t -> p ∈ memoryPtrs t';
  frame_fresh : forall p, p ∈ memoryPtrs t' -> p ∈ memoryPtrs t \/ (length (heap t) <= p)%nat;
  frame_heap : (length (heap t) <= length (heap t'))%nat;
  frame_name : name t' = name t;
  frame_closing : closing t' = closing t;
  frame_zero : zeroRowsInserted (metrics t') = zeroRowsInserted (metrics t);
  frame_rows : rowsInserted (metrics t') = rowsInserted (metrics t);
  frame_sizes : rowInsertSize (metrics t') = rowInsertSize (metrics t);
  frame_wal : wal_fails (wal t') = wal_fails (wal t);
  frame_threshold : activeMemorySize (db t') = activeMemorySize (db t);
  frame_sources : db_sources (db t') = db_sources (db t);
  frame_dbname : db_name (db t') = db_name (db t);
  frame_readable : readable t -> readable t'
}.

(** Calls of [LogRecord] among the calls a WAL has received. *)
Definition isLogRecordOf (r : arrowRecord) (c : walCall) : bool :=
  match c with
  | CallLogRecord _ _ r' =>
      bool_decide (rec_fields r' = rec_fields r /\ rec_numRows r' = rec_numRows r /\
                   rec_columns r' = rec_columns r)
  | CallLog _ _ => false
  end.

(** ** Statements of the specification that the code is checked against *)

(** "[RotateBlock] replaces the active block if and only if the active block
    is still [oldBlock]". *)
Definition replacesIffStillActive (ctx : Context) (oldBlock : nat) (t : Table) : Prop :=
  exists r t', RotateBlock ctx oldBlock t = Ret r t' /\
               (active t' <> active t <-> active t = Some oldBlock).

(** "A zero-row batch is accepted, increments [zeroRowsInserted], is not added
    to the index and is not WAL-logged as a data record": the WAL receives no
    new call. *)
Definition zeroRowsNotLogged (fuel : nat) (ctx : Context) (record : arrowRecord) (t : Table)
  : Prop :=
  NumRows record = 0 ->
  exists tx t', InsertRecord fuel ctx record t = Ret (tx, None) t' /\
                zeroRowsInserted (metrics t') = zeroRowsInserted (metrics t) + 1 /\
                (forall p, indexAt t' p = indexAt t p) /\
                wal_calls (wal t') = wal_calls (wal t).

(** "[InsertRecord] honors its context before acquiring a writer slot": with a
    cancelled context it returns an error and neither the WAL nor a writer
    wait-group has been touched. *)
Definition honorsCancellation (fuel : nat) (ctx : Context) (record : arrowRecord) (t : Table)
  : Prop :=
  ctx_Err ctx <> None ->
  exists tx e t', InsertRecord fuel ctx record t = Ret (tx, Some e) t' /\
                  wal_calls (wal t') = wal_calls (wal t) /\
                  (forall p, indexAt t' p = indexAt t p).


(** A table whose active block holds two batches. *)
Definition twoBatchTable : Table :=
  mkTable (mkDB "db" 3 [1; 2; 3] 100 []) "t" (mkMetrics 0 5 0 [3; 2] 0 0) ∅ [] 0
    (Some 0%nat) NopWAL false
    [mkBlock (Z.shiftl 1000 80) 1 0 0 0 [(2, threeRows); (3, twoRows)] 0 0] []
    (fun n => Z.shiftl (1001 + Z.of_nat n) 80) 0.

(** ** [table.go]: the parquet row writer *)

(** Go's [int] on a 64-bit platform: two's complement wrap-around. *)
Definition wrapInt (z : Z) : Z := (z + 2 ^ 63) mod 2 ^ 64 - 2 ^ 63.
Definition int_add (a b : Z) : Z := wrapInt (a + b).
Definition int_sub (a b : Z) : Z := wrapInt (a - b).

(** The conversion [int(u)] of a [uint64]. *)
Definition int_of_uint64 (u : Z) : Z := if u <? 2 ^ 63 then u else u - 2 ^ 64.

(** [parquet.Row]: a slice of values, opaque here. *)
Definition Row : Type := list Z.

(** The error result of [parquet.Rows.ReadRows]: nil, [io.EOF], or another
    error. *)
Inductive readErr : Type :=
| ReadOK
| ReadEOF
| ReadFail (e : error).

(** [dynparquet.PooledWriter] as seen from [writeRows]: the row groups closed
    by a successful [Flush], the rows written to the open row group by
    successful calls of [WriteRows], the number of calls received, and for
    each call number the error it returns.  A call that returns an error has
    no effect on the file. *)
Record PooledWriter := mkWriter {
  pw_groups : list (list Row);
  pw_open : list Row;
  pw_calls : nat;
  pw_fails : nat -> option error
}.

Definition pw_WriteRows (w : PooledWriter) (rows : list Row) : PooledWriter * option error :=
  match pw_fails w (pw_calls w) with
  | Some e => (mkWriter (pw_groups w) (pw_open w) (S (pw_calls w)) (pw_fails w), Some e)
  | None => (mkWriter (pw_groups w) (pw_open w ++ rows) (S (pw_calls w)) (pw_fails w), None)
  end.

Definition pw_Flush (w : PooledWriter) : PooledWriter * option error :=
  match pw_fails w (pw_calls w) with
  | Some e => (mkWriter (pw_groups w) (pw_open w) (S (pw_calls w)) (pw_fails w), Some e)
  | None => (mkWriter (pw_groups w ++ [pw_open w]) [] (S (pw_calls w)) (pw_fails w), None)
  end.

(** [parquetRowWriter].  Of the slice [rowsBuf] the length and the capacity
    are kept; its contents are scratch space for [ReadRows]. *)
Record parquetRowWriter := mkRowWriter {
  w : PooledWriter;
  rowGroupSize : Z;
  maxNumRows : Z;
  rowGroupRowsWritten : Z;
  totalRowsWritten : Z;
  rowsBufLen : Z;
  rowsBufCap : Z
}.

Definition parquetRowWriterOption : Type := parquetRowWriter -> parquetRowWriter.

(** [withMaxRows]. *)
Definition withMaxRows (max : Z) : parquetRowWriterOption := fun p =>
  mkRowWriter (w p) (rowGroupSize p) max (rowGroupRowsWritten p) (totalRowsWritten p)
    (rowsBufLen p) (rowsBufCap p).

(** [TableBlock.rowWriter].  [getWriter] is the result of
    [t.table.schema.GetWriter(writer, dynCols)] and [configRowGroupSize] the
    [uint64] field [t.table.config.RowGroupSize].  [make] panics on a negative
    length. *)
Definition rowWriter (getWriter : PooledWriter + error) (configRowGroupSize : Z)
  (options : list parquetRowWriterOption) : option (parquetRowWriter + error) :=
  match getWriter with
  | inr err => Some (inr err)
  | inl pw =>
      let buffSize :=
        if configRowGroupSize >? 0 then int_of_uint64 configRowGroupSize else 256 in
      if buffSize <? 0 then None
      else
        Some (inl (fold_left (fun p option => option p) options
                     (mkRowWriter pw (int_of_uint64 configRowGroupSize) 0 0 0
                        buffSize buffSize)))
  end.

Definition set_rowsBufLen (k : Z) (p : parquetRowWriter) : parquetRowWriter :=
  mkRowWriter (w p) (rowGroupSize p) (maxNumRows p) (rowGroupRowsWritten p)
    (totalRowsWritten p) k (rowsBufCap p).

(** The slice expression [p.rowsBuf = p.rowsBuf[:k]]; out of range it panics. *)
Definition reslice (p : parquetRowWriter) (k : Z) : option parquetRowWriter :=
  if (k <? 0) || (rowsBufCap p <? k) then None else Some (set_rowsBufLen k p).

(** The result of [writeRows]: the two values returned with the writer and the
    reader as the call leaves them, or a panic, or the loop still running when
    the fuel is used up. *)
Inductive wrOutcome (R : Type) : Type :=
| WrRet (n : Z) (err : option error) (p : parquetRowWriter) (rows : R)
| WrPanic
| WrOutOfFuel.
Arguments WrRet {R} n err p rows.
Arguments WrPanic {R}.
Arguments WrOutOfFuel {R}.

(** One pass through the body of the loop: it either goes back to the loop
    condition or leaves the function. *)
Inductive iterResult (R : Type) : Type :=
| IterContinue (p : parquetRowWriter) (rows : R) (written : Z)
| IterStop (o : wrOutcome R).
Arguments IterContinue {R} p rows written.
Arguments IterStop {R} o.

(** [if p.rowGroupSize > 0 && p.rowGroupRowsWritten+len(p.rowsBuf) > p.rowGroupSize]:
    read only as many rows as complete the row group. *)
Definition capToRowGroup (p : parquetRowWriter) : option parquetRowWriter :=
  if (rowGroupSize p >? 0) &&
     (int_add (rowGroupRowsWritten p) (rowsBufLen p) >? rowGroupSize p)
  then reslice p (int_sub (rowGroupSize p) (rowGroupRowsWritten p))
  else Some p.

(** [if p.maxNumRows != 0 && p.totalRowsWritten+len(p.rowsBuf) > p.maxNumRows]:
    read only as many rows as the limit leaves. *)
Definition capToMaxRows (p : parquetRowWriter) : option parquetRowWriter :=
  if negb (maxNumRows p =? 0) &&
     (int_add (totalRowsWritten p) (rowsBufLen p) >? maxNumRows p)
  then reslice p (int_sub (maxNumRows p) (totalRowsWritten p))
  else Some p.

Definition set_w (pw : PooledWriter) (p : parquetRowWriter) : parquetRowWriter :=
  mkRowWriter pw (rowGroupSize p) (maxNumRows p) (rowGroupRowsWritten p)
    (totalRowsWritten p) (rowsBufLen p) (rowsBufCap p).

(** [p.rowGroupRowsWritten += n; p.totalRowsWritten += n]. *)
Definition addRows (n : Z) (p : parquetRowWriter) : parquetRowWriter :=
  mkRowWriter (w p) (rowGroupSize p) (maxNumRows p) (int_add (rowGroupRowsWritten p) n)
    (int_add (totalRowsWritten p) n) (rowsBufLen p) (rowsBufCap p).

(** [p.rowGroupRowsWritten = 0]. *)
Definition resetRowGroup (p : parquetRowWriter) : parquetRowWriter :=
  mkRowWriter (w p) (rowGroupSize p) (maxNumRows p) 0
    (totalRowsWritten p) (rowsBufLen p) (rowsBufCap p).

Section WriteRows.
(** The value of interface type [parquet.Rows]: a state and its [ReadRows],
    which gets the length of the buffer and returns the rows it put there. *)
Context {R : Type}.
Variable ReadRows : R -> Z -> list Row * readErr * R.

Definition writeRows_body (p : parquetRowWriter) (rows : R) (written : Z) : iterResult R :=
  match capToRowGroup p with
  | None => IterStop WrPanic
  | Some p1 =>
      match capToMaxRows p1 with
      | None => IterStop WrPanic
      | Some p2 =>
          let '(got, err, rows') := ReadRows rows (rowsBufLen p2) in
          let n := Z.of_nat (length got) in
          match err with
          | ReadFail e => IterStop (WrRet 0 (Some e) p2 rows')
          | _ =>
              if n =? 0 then IterStop (WrRet written None p2 rows')
              else if rowsBufCap p2 <? n then IterStop WrPanic
              else
                let '(w1, werr) := pw_WriteRows (w p2) got in
                match werr with
                | Some e => IterStop (WrRet 0 (Some e) (set_w w1 p2) rows')
                | None =>
                    let p3 := addRows n (set_w w1 p2) in
                    if (rowGroupSize p3 >? 0) &&
                       (rowGroupRowsWritten p3 >=? rowGroupSize p3)
                    then
                      let '(w2, ferr) := pw_Flush (w p3) in
                      match ferr with
                      | Some e => IterStop (WrRet 0 (Some e) (set_w w2 p3) rows')
                      | None =>
                          IterContinue (resetRowGroup (set_w w2 p3)) rows' (int_add written n)
                      end
                    else IterContinue p3 rows' (int_add written n)
                end
          end
      end
  end.

(** The loop [for p.maxNumRows == 0 || p.totalRowsWritten < p.maxNumRows]. *)
Fixpoint writeRows_loop (fuel : nat) (p : parquetRowWriter) (rows : R) (written : Z)
  : wrOutcome R :=
  match fuel with
  | O => WrOutOfFuel
  | S fuel' =>
      if (maxNumRows p =? 0) || (totalRowsWritten p <? maxNumRows p) then
        match writeRows_body p rows written with
        | IterContinue p' rows' written' => writeRows_loop fuel' p' rows' written'
        | IterStop o => o
        end
      else WrRet written None p rows
  end.

(** [parquetRowWriter.writeRows]. *)
Definition writeRows (fuel : nat) (p : parquetRowWriter) (rows : R) : wrOutcome R :=
  writeRows_loop fuel p rows 0.
End WriteRows.

(** A reader over a slice of rows: it hands out as many rows as the buffer
    takes and reports [io.EOF] once nothing is left. *)
Definition sliceReader (rs : list Row) (len : Z) : list Row * readErr * list Row :=
  (take (Z.to_nat len) rs,
   match drop (Z.to_nat len) rs with [] => ReadEOF | _ => ReadOK end,
   drop (Z.to_nat len) rs).

(** What [ReadRows] owes its caller: no more rows than the buffer holds. *)
Definition readerContract {R : Type} (ReadRows : R -> Z -> list Row * readErr * R) : Prop :=
  forall rows len, 0 <= len -> Z.of_nat (length (fst (fst (ReadRows rows len)))) <= len.

(** The state of a row writer between two passes of the loop: the buffer
    length within its capacity, sizes in the range where [int] arithmetic is
    exact, and, when row groups are bounded, the counter equal to the number
    of rows in the open row group, at most [rowGroupSize], every closed row
    group at most [rowGroupSize] rows long. *)
Definition writerInv (p : parquetRowWriter) : Prop :=
  0 <= rowsBufLen p <= rowsBufCap p /\ rowsBufCap p < 2 ^ 62 /\
  rowGroupSize p < 2 ^ 62 /\ maxNumRows p < 2 ^ 62 /\
  (maxNumRows p <> 0 -> 0 <= totalRowsWritten p) /\
  (0 < rowGroupSize p ->
     0 <= rowGroupRowsWritten p <= rowGroupSize p /\
     Z.of_nat (length (pw_open (w p))) = rowGroupRowsWritten p /\
     Forall (fun g => Z.of_nat (length g) <= rowGroupSize p) (pw_groups (w p))).

(** What a pass through the loop, or a whole call, keeps and changes: limits
    unchanged, the total within the limit if there is one, and the closed row
    groups extended by groups of exactly [rowGroupSize] rows. *)
Definition writerStep (p p' : parquetRowWriter) : Prop :=
  maxNumRows p' = maxNumRows p /\ rowGroupSize p' = rowGroupSize p /\
  (maxNumRows p <> 0 ->
     totalRowsWritten p <= totalRowsWritten p' /\
     totalRowsWritten p' <= Z.max (totalRowsWritten p) (maxNumRows p)) /\
  (0 < rowGroupSize p ->
     exists new, pw_groups (w p') = pw_groups (w p) ++ new /\
                 Forall (fun g => Z.of_nat (length g) = rowGroupSize p) new).

(** A writer that never fails, and one whose third call fails. *)
Definition goodWriter : PooledWriter := mkWriter [] [] 0 (fun _ => None).

Definition sevenRows : list Row := [[1]; [2]; [3]; [4]; [5]; [6]; [7]].

(** A writer for row groups of three rows and at most five rows in all. *)
Definition exampleRowWriter (pw : PooledWriter) : parquetRowWriter :=
  mkRowWriter pw 3 5 0 0 3 3.

(** ** The Synchronize barrier

    Modelled from the spec: the code of [Synchronize] is not among the source
    files; only its test [TestNoRaceAndSingleFinish] is.  Section 4.5:
    a producer registers itself by incrementing an internal counter before its
    first interaction with the barrier; [Callback] forwards to the sink's
    [Callback] under a mutex; [Finish] decrements the producer counter under
    the mutex and, if it reaches zero, invokes the sink's [Finish].

    The goroutines of the test run [simulateCaller]: [synchronize.wg.Add(1)],
    then one [Callback] per record received, then [Finish].  Concurrency is
    modelled by interleaving: a schedule names the producer that takes the
    next step.  A call into the sink takes two steps, entering and returning,
    so that two overlapping calls are a state of the model.  As in the test,
    a run starts with no producer registered: each producer registers as its
    own first step, at any point of the schedule. *)

(** Where a producer stands in [simulateCaller]; [k] counts the callbacks it
    has still to issue. *)
Inductive producer : Type :=
| Unregistered (k : nat)   (* before [wg.Add(1)] *)
| Idle (k : nat)           (* registered, outside the barrier *)
| CbLocked (k : nat)       (* in [Callback], holding the mutex *)
| CbRunning (k : nat)      (* inside the sink's [Callback] *)
| CbReturned (k : nat)     (* the sink has returned, mutex still held *)
| FinLocked                (* in [Finish], holding the mutex *)
| FinLast                  (* the counter has reached zero *)
| FinRunning               (* inside the sink's [Finish] *)
| FinReturned              (* about to unlock and return from [Finish] *)
| Finished.

#[global] Instance producer_eq_dec : EqDecision producer.
Proof. solve_decision. Defined.

Record syncState := mkSync {
  producers : list producer;
  running : Z;              (* the producer counter *)
  mtx : option nat;         (* the producer holding the mutex *)
  sinkCallbacks : nat;      (* invocations of the sink's [Callback] *)
  sinkFinishes : nat        (* invocations of the sink's [Finish] *)
}.

Definition sync_update (i : nat) (p : producer) (r : Z) (m : option nat) (cb fin : nat)
  (s : syncState) : syncState :=
  mkSync (<[i := p]> (producers s)) r m cb fin.

(** The next step of producer [i], if it can take one: a producer outside the
    barrier waits for the mutex, a finished producer has no step. *)
Definition sync_step (i : nat) (s : syncState) : option syncState :=
  match producers s !! i with
  | None => None
  | Some p =>
      match p with
      | Unregistered k =>
          Some (sync_update i (Idle k) (running s + 1) (mtx s)
                  (sinkCallbacks s) (sinkFinishes s) s)
      | Idle (S k) =>
          match mtx s with
          | Some _ => None
          | None => Some (sync_update i (CbLocked k) (running s) (Some i)
                            (sinkCallbacks s) (sinkFinishes s) s)
          end
      | Idle O =>
          match mtx s with
          | Some _ => None
          | None => Some (sync_update i FinLocked (running s) (Some i)
                            (sinkCallbacks s) (sinkFinishes s) s)
          end
      | CbLocked k =>
          Some (sync_update i (CbRunning k) (running s) (mtx s)
                  (S (sinkCallbacks s)) (sinkFinishes s) s)
      | CbRunning k =>
          Some (sync_update i (CbReturned k) (running s) (mtx s)
                  (sinkCallbacks s) (sinkFinishes s) s)
      | CbReturned k =>
          Some (sync_update i (Idle k) (running s) None
                  (sinkCallbacks s) (sinkFinishes s) s)
      | FinLocked =>
          Some (sync_update i (if running s - 1 =? 0 then FinLast else FinReturned)
                  (running s - 1) (mtx s) (sinkCallbacks s) (sinkFinishes s) s)
      | FinLast =>
          Some (sync_update i FinRunning (running s) (mtx s)
                  (sinkCallbacks s) (S (sinkFinishes s)) s)
      | FinRunning =>
          Some (sync_update i FinReturned (running s) (mtx s)
                  (sinkCallbacks s) (sinkFinishes s) s)
      | FinReturned =>
          Some (sync_update i Finished (running s) None
                  (sinkCallbacks s) (sinkFinishes s) s)
      | Finished => None
      end
  end.

(** A run under a schedule; [None] if the schedule names a producer that
    cannot take a step. *)
Fixpoint sync_run (sched : list nat) (s : syncState) : option syncState :=
  match sched with
  | [] => Some s
  | i :: sched' =>
      match sync_step i s with
      | None => None
      | Some s' => sync_run sched' s'
      end
  end.

(** The barrier once the producers, with [ks] callbacks to issue each, have
    all registered, and before any of them has. *)
Definition sync_registered (ks : list nat) : syncState :=
  mkSync (map Idle ks) (Z.of_nat (length ks)) None 0 0.

Definition sync_unregistered (ks : list nat) : syncState :=
  mkSync (map Unregistered ks) 0 None 0 0.

(** A producer is inside a call of the sink. *)
Definition inSink (p : producer) : bool :=
  match p with
  | CbRunning _ | FinRunning => true
  | _ => false
  end.

(** A producer holds the mutex. *)
Definition holdsMutex (p : producer) : bool :=
  match p with
  | CbLocked _ | CbRunning _ | CbReturned _
  | FinLocked | FinLast | FinRunning | FinReturned => true
  | _ => false
  end.

(** Callbacks a producer has not started yet. *)
Definition callbacksLeft (p : producer) : Z :=
  match p with
  | Unregistered k | Idle k | CbRunning k | CbReturned k => Z.of_nat k
  | CbLocked k => Z.of_nat k + 1
  | _ => 0
  end.

(** Whether a registered producer has still to decrement the counter. *)
Definition notDecremented (p : producer) : Z :=
  match p with
  | Idle _ | CbLocked _ | CbRunning _ | CbReturned _ | FinLocked => 1
  | _ => 0
  end.

(** Steps a producer has still to take. *)
Definition stepsLeft (p : producer) : Z :=
  match p with
  | Unregistered k => 4 * Z.of_nat k + 6
  | Idle k => 4 * Z.of_nat k + 5
  | CbLocked k => 4 * Z.of_nat k + 8
  | CbRunning k => 4 * Z.of_nat k + 7
  | CbReturned k => 4 * Z.of_nat k + 6
  | FinLocked => 4
  | FinLast => 3
  | FinRunning => 2
  | FinReturned => 1
  | Finished => 0
  end.

Definition sumZ {A : Type} (f : A -> Z) (l : list A) : Z :=
  foldr (fun x acc => f x + acc) 0 l.

(** All producers have returned from [Finish]. *)
Definition sync_done (s : syncState) : Prop :=
  Forall (fun p => p = Finished) (producers s).

(** Invariant S4 of section 4.5: "producer registration must occur before the
    first Callback from that producer; registering inside the barrier (as the
    first operation) is acceptable so long as it happens-before any competing
    producer's final Finish observation".  In the model the registration of a
    producer is its first step, so the first half holds of every run.  The
    second half is a condition on the schedule: a producer observes the
    counter in the step that follows [FinLocked], and at that step no
    producer may still be unregistered. *)
Definition isUnregistered (p : producer) : bool :=
  match p with
  | Unregistered _ => true
  | _ => false
  end.

Definition allRegistered (s : syncState) : bool :=
  forallb (fun p => negb (isUnregistered p)) (producers s).

(** The next step of producer [i] is its observation of the counter. *)
Definition observes (i : nat) (s : syncState) : bool :=
  match producers s !! i with
  | Some FinLocked => true
  | _ => false
  end.

Fixpoint sync_S4 (sched : list nat) (s : syncState) : bool :=
  match sched with
  | [] => true
  | i :: sched' =>
      (negb (observes i s) || allRegistered s) &&
      match sync_step i s with
      | None => true
      | Some s' => sync_S4 sched' s'
      end
  end.

(** A producer that has not observed the counter yet. *)
Definition beforeObservation (p : producer) : bool :=
  match p with
  | Unregistered _ | Idle _ | CbLocked _ | CbRunning _ | CbReturned _ | FinLocked => true
  | _ => false
  end.

(** Producers that have still to register. *)
Definition toRegister (p : producer) : Z := if isUnregistered p then 1 else 0.

(** The invariant as long as no producer has observed the counter; producers
    may still be unregistered. *)
Definition syncPre (ks : list nat) (s : syncState) : Prop :=
  Forall (fun p => beforeObservation p = true) (producers s) /\
  Z.of_nat (sinkCallbacks s) + sumZ callbacksLeft (producers s) = sumZ Z.of_nat ks /\
  running s = sumZ notDecremented (producers s) /\
  (forall i p, producers s !! i = Some p -> (holdsMutex p = true <-> mtx s = Some i)) /\
  sinkFinishes s = 0%nat /\
  (forall h, mtx s = Some h -> (h < length (producers s))%nat) /\
  producers s <> [].

(** The invariant once all producers have registered. *)
Definition syncInv (ks : list nat) (s : syncState) : Prop :=
  Forall (fun p => forall k, p <> Unregistered k) (producers s) /\
  Z.of_nat (sinkCallbacks s) + sumZ callbacksLeft (producers s) = sumZ Z.of_nat ks /\
  running s = sumZ notDecremented (producers s) /\
  (forall i p, producers s !! i = Some p -> (holdsMutex p = true <-> mtx s = Some i)) /\
  ((exists i, producers s !! i = Some FinLast \/ producers s !! i = Some FinRunning) ->
   running s = 0) /\
  ((sinkFinishes s = 0%nat /\
    (0 < running s \/ exists i, producers s !! i = Some FinLast)) \/
   (sinkFinishes s = 1%nat /\ running s = 0 /\
    forall i, producers s !! i <> Some FinLast)) /\
  (forall h, mtx s = Some h -> (h < length (producers s))%nat).

(** ** Reader wait-groups during a scan *)

(** The heap [h] with the reader counter of the block at [p] raised by
    [d p]. *)
Definition bumpReaders (d : nat -> Z) (h : list TableBlock) : list TableBlock :=
  imap (fun p b => set_pendingReadersWg (pendingReadersWg b + d p) b) h.

(** How many times [p] occurs in [ps]. *)
Fixpoint occurrences (p : nat) (ps : list nat) : Z :=
  match ps with
  | [] => 0
  | q :: ps' => (if decide (q = p) then 1 else 0) + occurrences p ps'
  end.


(** A table after one rotation: block 0 has been rotated out and is pending,
    block 1 is active; each holds one batch. *)
Definition rotatedTable (w : WAL) : Table :=
  mkTable (mkDB "db" 4 [1; 2; 3; 4] 100 []) "t" (mkMetrics 1 5 0 [3; 2] 0 0) {[0%nat]} [] 0
    (Some 1%nat) w false
    [mkBlock (Z.shiftl 1000 80) 1 0 120 0 [(2, threeRows)] 0 0;
     mkBlock (Z.shiftl 1001 80) 3 1 0 0 [(4, twoRows)] 0 0]
    [0%nat] (fun n => Z.shiftl (1002 + Z.of_nat n) 80) 1.

(** A persisted source that emits one row group, and one that fails after
    emitting one. *)
Definition bucketSource : DataSource :=
  mkSource "bucket" (fun _ _ => ([ItemRowGroup ["a"%string; "b"%string]], None)).
Definition brokenSource : DataSource :=
  mkSource "broken" (fun _ _ => ([ItemRowGroup ["c"%string]], Some (ErrExternal "bucket: timeout"))).

(** [rotatedTable] over a database with the given persisted sources. *)
Definition tableWithSources (sources : list DataSource) : Table :=
  set_db (fun d => mkDB (db_name d) (db_tx d) (db_committed d) (activeMemorySize d) sources)
    (rotatedTable NopWAL).

(** ** [table.go]: table configuration *)

(** The schema definition carried by a configuration, opaque here. *)
Definition schemaDef : Type := Z.

(** The [oneof] field [TableConfig.Schema]. *)
Inductive configSchema : Type :=
| TableConfig_DeprecatedSchema (v : schemaDef)
| TableConfig_SchemaV2 (v : schemaDef).

(** [tablepb.TableConfig]; the two sizes are [uint64]. *)
Record TableConfig := mkConfig {
  Schema : option configSchema;
  RowGroupSize : Z;
  BlockReaderLimit : Z;
  DisableWal : bool
}.

(** [TableOption]: a function that updates the configuration in place and
    returns an error. *)
Definition TableOption : Type := TableConfig -> TableConfig * option error.

(** [WithRowGroupSize]: [config.RowGroupSize = uint64(numRows)]. *)
Definition WithRowGroupSize (numRows : Z) : TableOption := fun config =>
  (mkConfig (Schema config) (wrap64 numRows) (BlockReaderLimit config) (DisableWal config),
   None).

(** [WithBlockReaderLimit]. *)
Definition WithBlockReaderLimit (n : Z) : TableOption := fun config =>
  (mkConfig (Schema config) (RowGroupSize config) (wrap64 n) (DisableWal config), None).

(** [WithoutWAL]. *)
Definition WithoutWAL : TableOption := fun config =>
  (mkConfig (Schema config) (RowGroupSize config) (BlockReaderLimit config) true, None).

(** [FromConfig]. *)
Definition FromConfig (config : TableConfig) : TableOption := fun cfg =>
  (mkConfig (Schema cfg) (RowGroupSize config)
     (if negb (BlockReaderLimit config =? 0) then BlockReaderLimit config
      else BlockReaderLimit cfg)
     (DisableWal config),
   None).

(** [defaultTableConfig]; [gomaxprocs] is [runtime.GOMAXPROCS(0)]. *)
Definition defaultTableConfig (gomaxprocs : Z) : TableConfig :=
  mkConfig None 0 (wrap64 gomaxprocs) false.

(** The dynamic type of the [proto.Message] given to [NewTableConfig]. *)
Inductive protoMessage : Type :=
| Msg_SchemaV1 (v : schemaDef)
| Msg_SchemaV2 (v : schemaDef)
| Msg_Other.

(** The loop [for _, opt := range options { _ = opt(t) }]: the errors are
    dropped. *)
Definition applyOptions (options : list TableOption) (t : TableConfig) : TableConfig :=
  fold_left (fun c opt => fst (opt c)) options t.

(** [NewTableConfig]; [None] is the panic of the [default] case. *)
Definition NewTableConfig (gomaxprocs : Z) (schema : protoMessage)
  (options : list TableOption) : option TableConfig :=
  let t := defaultTableConfig gomaxprocs in
  match schema with
  | Msg_SchemaV1 v =>
      Some (applyOptions options
              (mkConfig (Some (TableConfig_DeprecatedSchema v)) (RowGroupSize t)
                 (BlockReaderLimit t) (DisableWal t)))
  | Msg_SchemaV2 v =>
      Some (applyOptions options
              (mkConfig (Some (TableConfig_SchemaV2 v)) (RowGroupSize t)
                 (BlockReaderLimit t) (DisableWal t)))
  | Msg_Other => None
  end.

(** ** [table.go]: construction of a table *)

(** The fields of [db.columnStore] that [newTable] checks. *)
Record ColumnStore := mkColumnStore {
  indexDegree : Z;
  splitSize : Z
}.

(** The errors of [newTable]: the two [errors.New] of the checks, with the
    value received, and the error of the schema constructor. *)
Inductive newTableError : Type :=
| ErrIndexDegree (received : Z)
| ErrSplitSize (received : Z)
| ErrSchema (e : error).

Section NewTable.
(** [dynparquet.Schema] and [dynparquet.SchemaFromDefinition]. *)
Context {dynSchema : Type}.
Variable SchemaFromDefinition : protoMessage -> dynSchema + error.

(** [schemaFromTableConfig]: a configuration without schema gives the nil
    schema of a read-only table. *)
Definition schemaFromTableConfig (tableConfig : TableConfig) : option dynSchema + error :=
  match Schema tableConfig with
  | Some (TableConfig_DeprecatedSchema v) =>
      match SchemaFromDefinition (Msg_SchemaV1 v) with
      | inl s => inl (Some s)
      | inr e => inr e
      end
  | Some (TableConfig_SchemaV2 v) =>
      match SchemaFromDefinition (Msg_SchemaV2 v) with
      | inl s => inl (Some s)
      | inr e => inr e
      end
  | None => inl None
  end.

(** A [*Table] as [newTable] builds it: the state of the table together with
    the two fields the other definitions leave out. *)
Record tableHandle := mkHandle {
  tbl : Table;
  config : option TableConfig;
  schema : option dynSchema
}.

(** [newTable].  [tableConfig = None] is the nil pointer.  The prometheus
    registrations are left out; the collectors start at zero.  [ulids] is the
    sequence of identifiers the process will generate. *)
Definition newTable (cs : ColumnStore) (d : DB) (name : string)
  (tableConfig : option TableConfig) (gomaxprocs : Z) (wal : WAL) (ulids : nat -> Z)
  : tableHandle + newTableError :=
  if indexDegree cs <=? 0 then inr (ErrIndexDegree (indexDegree cs))
  else if splitSize cs <? 2 then inr (ErrSplitSize (splitSize cs))
  else
    let tableConfig :=
      match tableConfig with
      | None => defaultTableConfig gomaxprocs
      | Some c => c
      end in
    match schemaFromTableConfig tableConfig with
    | inr err => inr (ErrSchema err)
    | inl s =>
        inl (mkHandle
               (mkTable d name (mkMetrics 0 0 0 [] 0 0) ∅ [] 0 None
                  (if DisableWal tableConfig then NopWAL else wal) false [] [] ulids 0)
               (Some tableConfig) s)
    end.

(** [Table.Schema]. *)
Definition Table_Schema (t : tableHandle) : option dynSchema :=
  match config t with
  | None => None
  | Some _ => schema t
  end.
End NewTable.
Arguments tableHandle : clear implicits.

(** [Table.appendToLog]. *)
Definition appendToLog (ctx : Context) (tx : Z) (buf : list Z) : M (option error) :=
  t <- get ;;
  wal_Log tx (Entry_Write (name t) buf).

(** The rows a parquet writer has taken, in the order written: the closed row
    groups followed by the open one. *)
Definition fileRows (pw : PooledWriter) : list Row := concat (pw_groups pw) ++ pw_open pw.

(** The state in which the loop of [writeRows] can make progress: the
    invariant of the writer, a buffer that is not empty, room in the open row
    group, and counters far from the limits of [int]. *)
Definition copyReady (p : parquetRowWriter) (rs : list Row) (written : Z) : Prop :=
  writerInv p /\ 0 < rowsBufLen p /\
  (0 < rowGroupSize p -> rowGroupRowsWritten p < rowGroupSize p) /\
  0 <= written /\ 0 <= totalRowsWritten p /\
  written + Z.of_nat (length rs) < 2 ^ 62 /\
  totalRowsWritten p + Z.of_nat (length rs) < 2 ^ 62.


(** ** [table.go]: [Iterator] *)

(** The [Error()] string of an error value. *)
Fixpoint error_Error (e : error) : string :=
  match e with
  | ErrNoSchema => "no schema"
  | ErrTableClosing => "table closing"
  | ErrCanceled => "context canceled"
  | ErrExternal msg => msg
  | Errorf prefix cause => prefix ++ ": " ++ error_Error cause
  end.

(** A callback as [Iterator] calls it: the record it is given can be the nil
    record that [converter.NewRecord()] returned. *)
Abbreviation RecordCallback := (option arrowRecord -> option error) (only parsing).

(** How a worker goroutine ends before the channel is closed: it returns an
    error, or it panics. *)
Inductive workerExit : Type :=
| ExitError (e : error)
| ExitPanic.

Definition afterCallback (res : option error) : option workerExit :=
  match res with
  | Some e => Some (ExitError e)
  | None => None
  end.

(** [const bufferSize = 1024]. *)
Definition bufferSize : Z := 1024.

Section Iterator.
(** [pqarrow.ParquetConverter]: the state of a converter, the converter
    [NewParquetConverter(pool, *iterOpts)] returns, and the methods a worker
    calls.  Of a row group the converter is given what a [scanItem] keeps of
    it. *)
Context {Conv : Type}.
Variable NewParquetConverter : Conv.
Variable conv_Convert : Conv -> list string -> Conv * option error.
Variable conv_Fields : Conv -> list string.
Variable conv_NumRows : Conv -> Z.
Variable conv_NewRecord : Conv -> option arrowRecord * Conv.

(** The body of the [select] case [rg, ok := <-rowGroups] with [ok] true:
    the records passed to the callback, the converter afterwards, and the
    exit of the goroutine if it does not go round the loop again.  After a
    callback that accepted a nil record, [r.Release()] panics. *)
Definition iteratorReceive (callback : RecordCallback) (c : Conv) (rg : scanItem)
  : list (option arrowRecord) * Conv * option workerExit :=
  match rg with
  | ItemRecord r => ([Some r], c, afterCallback (callback (Some r)))
  | ItemRowGroup fields =>
      let '(c1, err) := conv_Convert c fields in
      match err with
      | Some e =>
          ([], c1,
           Some (ExitError
                   (ErrExternal ("failed to convert row group to arrow record: " ++
                                 error_Error e))))
      | None =>
          if (length (conv_Fields c1) =? 0)%nat then ([], c1, None)
          else if conv_NumRows c1 >=? bufferSize then
            let '(r, c2) := conv_NewRecord c1 in
            match callback r with
            | Some e => ([r], c2, Some (ExitError e))
            | None =>
                match r with
                | Some _ => ([r], c2, None)
                | None => ([r], c2, Some ExitPanic)
                end
            end
          else ([], c1, None)
      end
  | ItemOther => ([], c, Some (ExitError (ErrExternal "unknown row group type")))
  end.

(** The same case with [ok] false, the channel being closed: the rows the
    converter still holds are handed over. *)
Definition iteratorFinish (callback : RecordCallback) (c : Conv)
  : list (option arrowRecord) * option workerExit :=
  let '(r, _) := conv_NewRecord c in
  match r with
  | None => ([], None)
  | Some rec =>
      if NumRows rec =? 0 then ([], None)
      else ([r], afterCallback (callback r))
  end.

(** The workers of [Iterator] consuming the channel, each with its own
    converter.  [sched] says which worker receives each item.  The result
    lists, per callback invocation, the worker and the record passed. *)
Fixpoint iteratorWorkers (callbacks : list RecordCallback) (sched : list nat)
  (items : list scanItem) (convs : list Conv)
  : list (nat * option arrowRecord) * option workerExit * list Conv :=
  match items with
  | [] => ([], None, convs)
  | rg :: items' =>
      let w := (hd 0%nat sched mod length callbacks)%nat in
      match callbacks !! w, convs !! w with
      | Some cb, Some c =>
          let '(calls, c', exit) := iteratorReceive cb c rg in
          match exit with
          | Some x => (map (pair w) calls, Some x, <[w := c']> convs)
          | None =>
              let '(tr, exit', convs') :=
                iteratorWorkers callbacks (tl sched) items' (<[w := c']> convs) in
              (map (pair w) calls ++ tr, exit', convs')
          end
      | _, _ => ([], Some (ExitError (ErrExternal "no such worker")), convs)
      end
  end.

(** The workers leaving one after the other once the channel is closed;
    [w] is the number of the first one. *)
Fixpoint iteratorFinishAll (callbacks : list RecordCallback) (convs : list Conv) (w : nat)
  : list (nat * option arrowRecord) * option workerExit :=
  match callbacks, convs with
  | cb :: callbacks', c :: convs' =>
      let '(calls, exit) := iteratorFinish cb c in
      match exit with
      | Some x => (map (pair w) calls, Some x)
      | None =>
          let '(tr, exit') := iteratorFinishAll callbacks' convs' (S w) in
          (map (pair w) calls ++ tr, exit')
      end
  | _, _ => ([], None)
  end.

(** [Table.Iterator], with the producer run to completion before the workers,
    as for [SchemaIterator].  The channel is closed only if
    [collectRowGroups] returned no error. *)
Definition Iterator (ctx : Context) (tx : Z) (callbacks : list RecordCallback)
  (sched : list nat) : M (list (nat * option arrowRecord) * option error) :=
  if (length callbacks =? 0)%nat then
    ret ([], Some (ErrExternal "no callbacks provided"))
  else
    match ctx_Err ctx with
    | Some e => ret ([], Some e)
    | None =>
        r <- collectRowGroups ctx tx ;;
        let '(tr, exit, convs) :=
          iteratorWorkers callbacks sched (fst r)
            (replicate (length callbacks) NewParquetConverter) in
        match exit, snd r with
        | Some ExitPanic, _ => panic
        | _, Some e => ret (tr, Some e)
        | Some (ExitError e), None => ret (tr, Some e)
        | None, None =>
            let '(tr', exit') := iteratorFinishAll callbacks convs 0 in
            match exit' with
            | Some ExitPanic => panic
            | Some (ExitError e) => ret (tr ++ tr', Some e)
            | None => ret (tr ++ tr', None)
            end
        end
    end.
End Iterator.


(** * [aggregate.go]: hash aggregation *)

(** ** The group key of [HashAggregate.Callback] *)

Section GroupKey.
(** A non-nil [scalar.Scalar], its [IsValid()], and the two hash functions:
    [metro.Hash64Str(name, 0)] and [scalar.Hash(a.hashSeed, colScalar)] for
    the seed of the aggregate.  Both return a [uint64]. *)
Context {Scalar : Type}.
Variable IsValid : Scalar -> bool.
Variable Hash64Str : string -> Z.
Variable scalar_Hash : Scalar -> Z.

(** The loop
    [for j, colScalar := range colScalars {
       if colScalar == nil || !colScalar.IsValid() { continue }
       hash ^= metro.Hash64Str(groupByFields[j].Name, 0)
       hash ^= scalar.Hash(a.hashSeed, colScalar) }]
    over the group-by columns of one row, each given as the name of its field
    and its scalar ([None] is the nil scalar). *)
Fixpoint groupKey_loop (hash : Z) (cols : list (string * option Scalar)) : Z :=
  match cols with
  | [] => hash
  | (name, colScalar) :: rest =>
      match colScalar with
      | None => groupKey_loop hash rest
      | Some s =>
          if negb (IsValid s) then groupKey_loop hash rest
          else groupKey_loop (Z.lxor (Z.lxor hash (Hash64Str name)) (scalar_Hash s)) rest
      end
  end.

(** [hash := uint64(0)] followed by the loop: the key under which the row is
    looked up in [a.hashToAggregate]. *)
Definition groupKey (cols : list (string * option Scalar)) : Z := groupKey_loop 0 cols.
End GroupKey.

(** ** [Int64SumAggregation] *)

(** An [arrow.Array] as [Int64SumAggregation] sees it: an [*array.Int64] with
    its values, or an array of another type, with the name of its type. *)
Inductive arrowArray : Type :=
| ArrInt64 (values : list Z)
| ArrOther (typeName : string).

(** [ErrUnsupportedSumType]. *)
Definition ErrUnsupportedSumType : error :=
  ErrExternal "unsupported type for sum aggregation, expected int64".

Section Int64Sum.
(** [math.Int64.Sum]. *)
Variable Int64_Sum : list Z -> Z.

(** [sumInt64arrays]: one sum per array; the type assertion of [arr] to
    [*array.Int64] panics on an array of another type ([None]). *)
Fixpoint sumInt64arrays (arrs : list arrowArray) : option (list Z) :=
  match arrs with
  | [] => Some []
  | ArrInt64 values :: rest =>
      match sumInt64arrays rest with
      | Some sums => Some (Int64_Sum values :: sums)
      | None => None
      end
  | ArrOther _ :: _ => None
  end.

(** [Int64SumAggregation.Aggregate]: the array of sums, an error, or a
    panic. *)
Definition Int64SumAggregation_Aggregate (arrs : list arrowArray) : option (list Z + error) :=
  match arrs with
  | [] => Some (inl [])
  | ArrInt64 _ :: _ =>
      match sumInt64arrays arrs with
      | Some sums => Some (inl sums)
      | None => None
      end
  | ArrOther typ :: _ => Some (inr (Errorf ("sum array of " ++ typ) ErrUnsupportedSumType))
  end.
End Int64Sum.

(** The exclusive or of a list of hashes. *)
Definition xorAll (l : list Z) : Z := foldr Z.lxor 0 l.

(** The group-by columns of a row in which every scalar is present: the field
    names paired with the scalars. *)
Definition rowColumns {Scalar : Type} (names : list string) (vals : list Scalar)
  : list (string * option Scalar) :=
  zip names (map Some vals).
(* ===================================================================== *)
(** * Part B. Lemmas and theorems                                         *)
(* ===================================================================== *)

(** ** The watermark loop *)

Lemma advanceCompleted_split lc l :
  exists popped,
    l = popped ++ snd (advanceCompleted lc l) /\
    linked lc popped (fst (advanceCompleted lc l)) /\
    headBlocked (fst (advanceCompleted lc l)) (snd (advanceCompleted lc l)).
Proof.
  revert lc. induction l as [|b l IH]; intros lc; simpl.
  - exists []. split; [reflexivity|]. split; [constructor | exact I].
  - destruct (Z.eqb_spec (cb_prevTx b) lc) as [E|E]; simpl.
    + destruct (IH (cb_tx b)) as (p & Hl & Hlink & Hhead).
      exists (b :: p). split; [simpl; congruence|]. split; [|exact Hhead].
      constructor; assumption.
    + exists []. split; [reflexivity|]. split; [constructor | exact E].
Qed.

Lemma linked_le lc popped lc' :
  linked lc popped lc' ->
  Forall (fun b => cb_prevTx b <= cb_tx b) popped ->
  lc <= lc'.
Proof.
  induction 1 as [|lc b l lc' E _ IH]; intros HF; [lia|].
  inversion HF; subst. specialize (IH ltac:(assumption)). lia.
Qed.

(** ** Chains of rotated blocks *)

#[global] Instance prevTxLe_trans : Transitive prevTxLe.
Proof. unfold prevTxLe. intros a b c. lia. Qed.

#[global] Instance prevTxLe_total : Total prevTxLe.
Proof. unfold prevTxLe. intros a b. lia. Qed.

Lemma chain_bounds ts : forall t x,
  increasing t ts -> x ∈ chainBlocks t ts -> t <= cb_prevTx x /\ cb_prevTx x < cb_tx x.
Proof.
  induction ts as [|t1 ts IH]; intros t x Hinc Hx; simpl in *.
  - inversion Hx.
  - destruct Hinc as [Hlt Hinc]. apply elem_of_cons in Hx as [->|Hx]; simpl; [lia|].
    destruct (IH _ _ Hinc Hx). lia.
Qed.

Lemma chain_NoDup ts : forall t, increasing t ts -> NoDup (chainBlocks t ts).
Proof.
  induction ts as [|t1 ts IH]; intros t Hinc; simpl in *; [constructor|].
  destruct Hinc as [Hlt Hinc]. constructor; [|auto].
  intros Hin. apply (chain_bounds _ _ _ Hinc) in Hin. simpl in Hin. lia.
Qed.

Lemma linked_app lc p1 mid p2 lc' :
  linked lc p1 mid -> linked mid p2 lc' -> linked lc (p1 ++ p2) lc'.
Proof.
  induction 1; intros H2; simpl; [assumption|]. constructor; auto.
Qed.

(** On a sorted, duplicate-free slice of entries of a chain that starts at the
    current watermark, the loop pops exactly the entries of the chain's
    longest prefix present in the slice. *)
Lemma advanceCompleted_chain ts : forall t l,
  increasing t ts -> Sorted prevTxLe l -> NoDup l ->
  (forall x, x ∈ l -> x ∈ chainBlocks t ts) ->
  exists popped ts',
    chainBlocks t ts = popped ++ chainBlocks (fst (advanceCompleted t l)) ts' /\
    increasing (fst (advanceCompleted t l)) ts' /\
    linked t popped (fst (advanceCompleted t l)) /\
    (forall x, x ∈ popped -> x ∈ l) /\
    (forall h, head (chainBlocks (fst (advanceCompleted t l)) ts') = Some h -> h ∉ l) /\
    NoDup (snd (advanceCompleted t l)) /\
    (forall x, x ∈ snd (advanceCompleted t l) <->
               x ∈ l /\ x ∈ chainBlocks (fst (advanceCompleted t l)) ts').
Proof.
  induction ts as [|t1 ts IH]; intros t l Hinc Hsorted Hnd Hin.
  - assert (l = []) as ->.
    { destruct l as [|x l]; [reflexivity|]. specialize (Hin x (list_elem_of_here _ _)). inversion Hin. }
    exists [], []. simpl. split; [reflexivity|]. split; [exact I|]. split; [constructor|].
    split; [intros x Hx; inversion Hx|]. split; [intros h Hh; discriminate|].
    split; [constructor|]. intros x. split; [intros Hx | intros [Hx _]]; inversion Hx.
  - destruct Hinc as [Hlt Hinc]. destruct l as [|h l].
    { exists [], (t1 :: ts). simpl. split; [reflexivity|]. split; [split; assumption|].
      split; [constructor|]. split; [intros x Hx; inversion Hx|].
      split; [intros h _ Hc; inversion Hc|]. split; [constructor|].
      intros x. split; [intros Hx | intros [Hx _]]; inversion Hx. }
    pose proof (Hin h (list_elem_of_here _ _)) as Hh. simpl in Hh.
    apply Sorted_StronglySorted in Hsorted; [|apply _].
    apply StronglySorted_inv in Hsorted as [Hsorted Hall].
    apply NoDup_cons in Hnd as [Hhl Hnd].
    simpl. destruct (Z.eqb_spec (cb_prevTx h) t) as [E|E]; simpl.
    + assert (h = mkCompleted t t1) as Hh0.
      { apply elem_of_cons in Hh as [?|Hh]; [assumption|].
        apply (chain_bounds _ _ _ Hinc) in Hh. lia. }
      subst h. simpl.
      destruct (IH t1 l Hinc) as (p & ts' & Hch & Hinc' & Hlk & Hp & Hhd & Hnd' & Hmem).
      * apply StronglySorted_Sorted. assumption.
      * assumption.
      * intros x Hx. specialize (Hin x (list_elem_of_further _ _ _ Hx)). simpl in Hin.
        apply elem_of_cons in Hin as [->|?]; [contradiction | assumption].
      * exists (mkCompleted t t1 :: p), ts'. simpl. rewrite <- Hch.
        split; [reflexivity|]. split; [assumption|].
        split; [constructor; [reflexivity | assumption]|].
        split. { intros x Hx. apply elem_of_cons in Hx as [->|Hx]; [left | right; auto]. }
        split.
        { intros h' Hh' Hc. apply elem_of_cons in Hc as [->|Hc]; [|exact (Hhd _ Hh' Hc)].
          assert (mkCompleted t t1 ∈ chainBlocks t1 ts) as Hbad.
          { rewrite Hch. apply elem_of_app. right. apply head_Some_elem_of. assumption. }
          apply (chain_bounds _ _ _ Hinc) in Hbad. simpl in Hbad. lia. }
        split; [assumption|].
        intros x. rewrite Hmem. split.
        { intros [? ?]. split; [right|]; assumption. }
        { intros [Hx Hs]. split; [|assumption].
          apply elem_of_cons in Hx as [->|?]; [|assumption]. exfalso.
          assert (mkCompleted t t1 ∈ chainBlocks t1 ts) as Hbad.
          { rewrite Hch. apply elem_of_app. right. assumption. }
          apply (chain_bounds _ _ _ Hinc) in Hbad. simpl in Hbad. lia. }
    + exists [], (t1 :: ts). simpl.
      split; [reflexivity|]. split; [split; assumption|].
      split; [constructor|]. split; [intros x Hx; inversion Hx|].
      split.
      { intros h' [= <-] Hc. apply elem_of_cons in Hc as [Hc|Hc].
        - subst h. simpl in E. contradiction.
        - rewrite Forall_forall in Hall. specialize (Hall _ Hc).
          unfold prevTxLe in Hall. simpl in Hall.
          apply elem_of_cons in Hh as [->|Hh]; [simpl in E; contradiction|].
          apply (chain_bounds _ _ _ Hinc) in Hh. lia. }
      split; [constructor; assumption|].
      intros x. split; [intros Hx; split; [assumption | apply (Hin x Hx)] | intros [? _]; assumption].
Qed.

(** The walk of [contiguousWatermark] stops where the persisted prefix ends. *)
Lemma contiguousWatermark_split t0 pre lc suf done :
  linked t0 pre lc ->
  (forall x, x ∈ pre -> x ∈ done) ->
  (forall h, head suf = Some h -> h ∉ done) ->
  contiguousWatermark t0 (pre ++ suf) done = lc.
Proof.
  induction 1 as [lc|lc b l lc' E Hl IH]; intros Hpre Hhd; simpl.
  - destruct suf as [|h suf]; simpl; [reflexivity|].
    destruct (decide (h ∈ done)) as [Hc|_]; [|reflexivity].
    exfalso. exact (Hhd h eq_refl Hc).
  - destruct (decide (b ∈ done)) as [_|Hc].
    + apply IH; [|assumption]. intros x Hx. apply Hpre. right. assumption.
    + exfalso. apply Hc, Hpre. left.
Qed.

(** ** The watermark under any completion order *)

Section Watermark.
(** [sort.Slice] with [lessPrevTx]: any procedure that returns a sorted
    permutation of its argument. *)
Variable sortSlice : list completedBlock -> list completedBlock.
Hypothesis sortSlice_perm : forall l, sortSlice l ≡ₚ l.
Hypothesis sortSlice_sorted : forall l, Sorted prevTxLe (sortSlice l).

(** The state after any duplicate-free sequence of completions of blocks of
    the chain: the watermark sits at the end of a prefix of the chain whose
    blocks are all persisted, the first block after it is not, and
    [completedBlocks] holds the persisted blocks beyond the watermark. *)
Lemma completeAll_invariant t0 ts done :
  increasing t0 ts -> NoDup done ->
  (forall x, x ∈ done -> x ∈ chainBlocks t0 ts) ->
  exists pre ts',
    chainBlocks t0 ts = pre ++ chainBlocks (fst (completeAll sortSlice (t0, []) done)) ts' /\
    increasing (fst (completeAll sortSlice (t0, []) done)) ts' /\
    linked t0 pre (fst (completeAll sortSlice (t0, []) done)) /\
    (forall x, x ∈ pre -> x ∈ done) /\
    (forall h, head (chainBlocks (fst (completeAll sortSlice (t0, []) done)) ts') = Some h ->
               h ∉ done) /\
    NoDup (snd (completeAll sortSlice (t0, []) done)) /\
    (forall x, x ∈ snd (completeAll sortSlice (t0, []) done) <->
               x ∈ done /\ x ∈ chainBlocks (fst (completeAll sortSlice (t0, []) done)) ts').
Proof.
  intros Hinc. induction done as [|b done IH] using rev_ind; intros Hnd Hin.
  - exists [], ts. simpl. split; [reflexivity|]. split; [assumption|].
    split; [constructor|]. split; [intros x Hx; inversion Hx|].
    split; [intros h _ Hc; inversion Hc|]. split; [constructor|].
    intros x. split; [intros Hx; inversion Hx | intros [Hx _]; inversion Hx].
  - apply NoDup_app in Hnd as (Hnd & Hdisj & _).
    assert (b ∉ done) as Hb.
    { intros Hc. apply (Hdisj _ Hc). left. }
    destruct IH as (pre & ts' & Hch & Hinc' & Hlk & Hpre & Hhd & Hndc & Hmem);
      [assumption | intros x Hx; apply Hin, elem_of_app; left; assumption |].
    unfold completeAll in *. rewrite fold_left_app. simpl.
    set (st := fold_left (completeBlock sortSlice) done (t0, [])) in *.
    unfold completeBlock.
    set (l := sortSlice (snd st ++ [b])).
    assert (forall x, x ∈ l <-> x ∈ snd st \/ x = b) as Hl.
    { intros x. unfold l. rewrite (sortSlice_perm _), elem_of_app, list_elem_of_singleton.
      reflexivity. }
    assert (b ∈ chainBlocks (fst st) ts') as Hbs.
    { assert (b ∈ chainBlocks t0 ts) as Hbc by (apply Hin, elem_of_app; right; left).
      rewrite Hch in Hbc. apply elem_of_app in Hbc as [Hbc|Hbc]; [|assumption].
      exfalso. apply Hb, Hpre. assumption. }
    destruct (advanceCompleted_chain ts' (fst st) l Hinc')
      as (p & ts'' & Hch2 & Hinc2 & Hlk2 & Hp2 & Hhd2 & Hnd2 & Hmem2).
    + apply sortSlice_sorted.
    + unfold l. rewrite (sortSlice_perm _). apply NoDup_app. split; [assumption|].
      split; [|apply NoDup_singleton].
      intros x Hx Hxb. apply list_elem_of_singleton in Hxb as ->.
      apply Hmem in Hx as [Hx _]. contradiction.
    + intros x Hx. apply Hl in Hx as [Hx| ->]; [|assumption]. apply Hmem in Hx as [_ ?].
      assumption.
    + exists (pre ++ p), ts''.
      split; [rewrite <- app_assoc, <- Hch2; assumption|].
      split; [assumption|].
      split; [eapply linked_app; eassumption|].
      split.
      { intros x Hx. apply elem_of_app. apply elem_of_app in Hx as [Hx|Hx].
        - left. auto.
        - apply Hp2, Hl in Hx as [Hx| ->]; [|right; left].
          left. apply Hmem in Hx as [? _]. assumption. }
      split.
      { intros h Hh Hc. specialize (Hhd2 h Hh).
        assert (h ∈ chainBlocks (fst st) ts') as Hhs.
        { rewrite Hch2. apply elem_of_app. right. apply head_Some_elem_of. assumption. }
        apply Hhd2, Hl. apply elem_of_app in Hc as [Hc|Hc].
        - left. apply Hmem. split; assumption.
        - right. apply list_elem_of_singleton in Hc. assumption. }
      split; [assumption|].
      intros x. rewrite Hmem2, Hl, elem_of_app, list_elem_of_singleton, Hmem.
      split.
      { intros [[[? _]| ->] ?]; split; auto. }
      { intros [[Hx| ->] Hs]; split; auto. left. split; [assumption|].
        rewrite Hch2. apply elem_of_app. right. assumption. }
Qed.

(** C2. Blocks rotated one after the other ([chainBlocks t0 ts], transaction
    ids growing) may finish persisting in any order.  After each completion
    ([done] finished earlier, [b] finishes now) [lastCompleted] is the end of
    the longest prefix of the chain whose blocks have all been persisted; it
    never decreases; and the loop popped from the sorted slice exactly a run
    of entries linked from the old value to the new one, stopping at a head
    whose [prevTx] differs from [lastCompleted] (or at the empty slice). *)
Theorem lastCompleted_prefix_contiguous t0 ts order done b rest :
  increasing t0 ts ->
  order ≡ₚ chainBlocks t0 ts ->
  order = done ++ b :: rest ->
  let s := completeAll sortSlice (t0, []) done in
  let s' := completeBlock sortSlice s b in
  fst s' = contiguousWatermark t0 (chainBlocks t0 ts) (done ++ [b]) /\
  fst s <= fst s' /\
  exists popped,
    sortSlice (snd s ++ [b]) = popped ++ snd s' /\
    linked (fst s) popped (fst s') /\
    headBlocked (fst s') (snd s').
Proof.
  intros Hinc Hperm Horder s s'.
  assert (NoDup order) as Hnd.
  { rewrite Hperm. apply chain_NoDup. assumption. }
  assert (forall x, x ∈ done ++ [b] -> x ∈ chainBlocks t0 ts) as Hin.
  { intros x Hx. rewrite <- Hperm, Horder.
    apply elem_of_app in Hx as [Hx|Hx]; apply elem_of_app; [left; assumption|].
    right. apply list_elem_of_singleton in Hx as ->. left. }
  assert (NoDup (done ++ [b])) as Hnd'.
  { rewrite Horder in Hnd. apply NoDup_app in Hnd as (H1 & H2 & H3).
    apply NoDup_cons in H3 as [_ _]. apply NoDup_app. split; [assumption|].
    split; [|apply NoDup_singleton].
    intros x Hx Hxb. apply list_elem_of_singleton in Hxb as ->. apply (H2 _ Hx). left. }
  assert (s' = completeAll sortSlice (t0, []) (done ++ [b])) as Hs'.
  { unfold s', s, completeAll. rewrite fold_left_app. reflexivity. }
  destruct (completeAll_invariant t0 ts (done ++ [b]) Hinc Hnd' Hin)
    as (pre & ts' & Hch & _ & Hlk & Hpre & Hhd & _).
  rewrite <- Hs' in *.
  destruct (advanceCompleted_split (fst s) (sortSlice (snd s ++ [b])))
    as (popped & Hsplit & Hlinked & Hblocked).
  fold (completeBlock sortSlice s b) in Hsplit, Hlinked, Hblocked. fold s' in Hsplit, Hlinked, Hblocked.
  split.
  { rewrite Hch at 1. symmetry. apply contiguousWatermark_split; assumption. }
  split; [|exists popped; auto].
  apply (linked_le _ _ _ Hlinked). apply Forall_forall. intros x Hx.
  assert (x ∈ sortSlice (snd s ++ [b])) as Hxl.
  { rewrite Hsplit. apply elem_of_app. left. assumption. }
  rewrite (sortSlice_perm _) in Hxl.
  assert (x ∈ chainBlocks t0 ts) as Hxc.
  { apply elem_of_app in Hxl as [Hxl|Hxl]; [|apply Hin, elem_of_app; right; assumption].
    destruct (completeAll_invariant t0 ts done Hinc) as (pre0 & ts0 & _ & _ & _ & _ & _ & _ & Hm).
    - apply NoDup_app in Hnd' as [? _]. assumption.
    - intros y Hy. apply Hin, elem_of_app. left. assumption.
    - apply Hin, elem_of_app. left. apply Hm in Hxl as [? _]. assumption. }
  apply (chain_bounds _ _ _ Hinc) in Hxc. lia.
Qed.
End Watermark.

(** Blocks A, B, C rotated in this order at transactions 10, 20, 30; C and A
    finish persisting, in this order: the watermark reaches A and waits
    for B. *)
Lemma lastCompleted_prefix_contiguous_witness :
  let s := completeAll sortByPrevTx (0, []) [mkCompleted 20 30] in
  let s' := completeBlock sortByPrevTx s (mkCompleted 0 10) in
  fst s' = contiguousWatermark 0 (chainBlocks 0 [10; 20; 30])
             ([mkCompleted 20 30] ++ [mkCompleted 0 10]) /\
  fst s <= fst s' /\
  exists popped,
    sortByPrevTx (snd s ++ [mkCompleted 0 10]) = popped ++ snd s' /\
    linked (fst s) popped (fst s') /\
    headBlocked (fst s') (snd s').
Proof.
  apply (lastCompleted_prefix_contiguous sortByPrevTx
           (merge_sort_Permutation prevTxLe) (Sorted_merge_sort prevTxLe)
           0 [10; 20; 30]
           [mkCompleted 20 30; mkCompleted 0 10; mkCompleted 10 20]
           [mkCompleted 20 30] (mkCompleted 0 10) [mkCompleted 10 20]).
  - simpl. lia.
  - simpl. etrans; [apply perm_swap | apply perm_skip, perm_swap].
  - reflexivity.
Defined.

(** The values [lastCompleted] takes when C, A and B finish in this order. *)
Example lastCompleted_out_of_order :
  let C := mkCompleted 20 30 in
  let A := mkCompleted 0 10 in
  let B := mkCompleted 10 20 in
  completeAll sortByPrevTx (0, []) [C] = (0, [C]) /\
  completeAll sortByPrevTx (0, []) [C; A] = (10, [C]) /\
  completeAll sortByPrevTx (0, []) [C; A; B] = (30, []).
Proof. vm_compute. repeat split; reflexivity. Qed.

(** ** Steps of the table monad *)

Ltac munfold :=
  unfold pendingWritersWg_Done, pendingWritersWg_Add, pendingWritersWg_Wait,
    pendingReadersWg_Done, pendingReadersWg_Add, pendingReadersWg_Wait,
    db_begin, db_commit, wal_Log, wal_LogRecord, wal_invoke, generateULID, deref,
    bind, ret, get, modify, panic, block in *.

Lemma table_eta (t : Table) :
  mkTable (db t) (name t) (metrics t) (pendingBlocks t) (completedBlocks t)
    (lastCompleted t) (active t) (wal t) (closing t) (heap t) (spawned t)
    (ulidSeq t) (ulidNext t) = t.
Proof. destruct t; reflexivity. Qed.

Lemma block_eta (b : TableBlock) :
  mkBlock (ulid b) (minTx b) (prevTx b) (size b) (lastSnapshotSize b) (index b)
    (pendingWritersWg b) (pendingReadersWg b) = b.
Proof. destruct b; reflexivity. Qed.

(** Acquiring a writer slot and releasing it restores the state. *)
Lemma writers_acquire_release (t : Table) (p : nat) (b : TableBlock) :
  heap t !! p = Some b ->
  set_heap (alter (set_pendingWritersWg (pendingWritersWg b + 1 + -1)) p)
    (set_heap (alter (set_pendingWritersWg (pendingWritersWg b + 1)) p) t) = t.
Proof.
  intros Hp. destruct t as [d n m pb cb lc a w c h sp us un]. unfold set_heap; simpl in *.
  f_equal. rewrite list_alter_alter_eq. apply list_eq. intros i.
  destruct (decide (p = i)) as [<-|Hne].
  - rewrite list_lookup_alter_eq, Hp. simpl. f_equal.
    destruct b; unfold set_pendingWritersWg; simpl. f_equal. lia.
  - rewrite list_lookup_alter_ne by assumption. reflexivity.
Qed.

Lemma lookup_alter_writers (h : list TableBlock) (p q : nat) (n : Z) (b : TableBlock) :
  alter (set_pendingWritersWg n) p h !! q = Some b ->
  exists b0, h !! q = Some b0 /\ index b = index b0 /\ size b = size b0 /\
             minTx b = minTx b0 /\ prevTx b = prevTx b0 /\
             (p <> q -> b = b0) /\ (p = q -> pendingWritersWg b = n).
Proof.
  destruct (decide (p = q)) as [<-|Hne].
  - rewrite list_lookup_alter_eq. destruct (h !! p) as [b0|]; simpl; [|discriminate].
    intros [= <-]. exists b0. repeat split; try reflexivity. intros; congruence.
  - rewrite list_lookup_alter_ne by assumption. intros Hq. exists b.
    repeat split; try reflexivity; try assumption. intros; congruence.
Qed.

(** [ActiveWriteBlock] on a well-formed table. *)
Lemma ActiveWriteBlock_closing t :
  closing t = true -> ActiveWriteBlock t = Ret (inr ErrTableClosing) t.
Proof. intros H. unfold ActiveWriteBlock. munfold. rewrite H. reflexivity. Qed.

Lemma ActiveWriteBlock_open t p b :
  closing t = false -> active t = Some p -> heap t !! p = Some b ->
  0 <= pendingWritersWg b ->
  ActiveWriteBlock t =
    Ret (inl p) (set_heap (alter (set_pendingWritersWg (pendingWritersWg b + 1)) p) t).
Proof.
  intros Hc Ha Hp Hw. unfold ActiveWriteBlock. munfold. rewrite Hc, Ha, Hp.
  destruct (Z.ltb_spec (pendingWritersWg b + 1) 0); [lia | reflexivity].
Qed.

(** ** [RotateBlock] *)

Lemma RotateBlock_other ctx blk t :
  active t <> Some blk -> RotateBlock ctx blk t = Ret None t.
Proof.
  intros Hne. unfold RotateBlock. munfold.
  rewrite bool_decide_eq_false_2 by assumption. reflexivity.
Qed.

(** The state a call of [RotateBlock] on the active block leaves, by the
    result of logging the [NewTableBlock] entry. *)
Lemma RotateBlock_active ctx blk t b :
  active t = Some blk -> heap t !! blk = Some b ->
  let tx := wrap64 (db_tx (db t) + 1) in
  let id := ulidSeq t (ulidNext t) in
  let call := CallLog tx (Entry_NewTableBlock (name t) id) in
  let r := wal_fails (wal t) (wal_calls (wal t)) call in
  exists t',
    RotateBlock ctx blk t = Ret r t' /\
    db t' = add_db_committed tx (set_db_tx tx (db t)) /\
    name t' = name t /\
    wal t' = mkWAL (wal_calls (wal t) ++ [call]) (wal_fails (wal t)) /\
    closing t' = closing t /\
    completedBlocks t' = completedBlocks t /\
    lastCompleted t' = lastCompleted t /\
    match r with
    | Some _ =>
        active t' = Some blk /\ heap t' = heap t /\
        pendingBlocks t' = pendingBlocks t /\ spawned t' = spawned t /\
        metrics t' = metrics t
    | None =>
        active t' = Some (length (heap t)) /\
        heap t' = heap t ++ [new_block (minTx b) tx id] /\
        pendingBlocks t' = {[blk]} ∪ pendingBlocks t /\
        spawned t' = spawned t ++ [blk] /\
        metrics t' = mkMetrics (blockRotated (metrics t) + 1) (rowsInserted (metrics t))
                       (zeroRowsInserted (metrics t)) (rowInsertSize (metrics t))
                       (lastCompletedBlockTx (metrics t)) 0
    end.
Proof.
  intros Ha Hb tx id call r. unfold RotateBlock, newTableBlock. munfold.
  rewrite bool_decide_eq_true_2 by assumption. simpl. rewrite Hb. simpl. rewrite Hb. simpl.
  fold tx id call r. destruct r as [e|]; simpl.
  - eexists. split; [reflexivity|]. simpl. repeat split; assumption.
  - eexists. split; [reflexivity|]. simpl. repeat split.
Qed.

Lemma RotateBlock_dangling ctx blk t :
  active t = Some blk -> heap t !! blk = None -> RotateBlock ctx blk t = Panic.
Proof.
  intros Ha Hb. unfold RotateBlock. munfold.
  rewrite bool_decide_eq_true_2 by assumption. simpl. rewrite Hb. reflexivity.
Qed.

Lemma indexAt_app_new t t' blk :
  heap t' = heap t ++ [blk] -> index blk = [] -> forall p, indexAt t' p = indexAt t p.
Proof.
  intros Hh Hi p. unfold indexAt, indexOf. rewrite Hh.
  destruct (decide (p < length (heap t))%nat) as [Hlt|Hge].
  - rewrite lookup_app_l by assumption. reflexivity.
  - rewrite lookup_app_r by lia. rewrite (proj2 (lookup_ge_None (heap t) p)) by lia.
    destruct (p - length (heap t))%nat; simpl; [assumption | reflexivity].
Qed.

(** Being readable depends on the memory pointers and on the reader counters
    only. *)
Lemma readable_heap t t' :
  memoryPtrs t' = memoryPtrs t ->
  map pendingReadersWg (heap t') = map pendingReadersWg (heap t) ->
  readable t -> readable t'.
Proof.
  intros Hp Hm [Hvalid Hall].
  assert (length (heap t') = length (heap t)) as Hlen.
  { apply (f_equal (@length _)) in Hm. rewrite !length_map in Hm. assumption. }
  split.
  - intros p Hin. rewrite Hp in Hin. apply lookup_lt_is_Some. rewrite Hlen.
    apply lookup_lt_is_Some. auto.
  - apply (Forall_map pendingReadersWg (fun n => 0 <= n)). rewrite Hm.
    apply (Forall_map pendingReadersWg (fun n => 0 <= n)). assumption.
Qed.

Lemma map_readers_alter (f : TableBlock -> TableBlock) (h : list TableBlock) :
  (forall b, pendingReadersWg (f b) = pendingReadersWg b) ->
  forall p, map pendingReadersWg (alter f p h) = map pendingReadersWg h.
Proof.
  intros Hf. induction h as [|b h IH]; intros [|p]; simpl; try reflexivity.
  - rewrite Hf. reflexivity.
  - f_equal. apply IH.
Qed.

Lemma frame_refl t : frame t t.
Proof. constructor; auto. Qed.

Lemma frame_trans t1 t2 t3 : frame t1 t2 -> frame t2 t3 -> frame t1 t3.
Proof.
  intros [Hi1 Hp1 Hf1 Hh1 ? ? ? ? ? ? ? ? ? Hr1] [Hi2 Hp2 Hf2 Hh2 ? ? ? ? ? ? ? ? ? Hr2].
  constructor; try congruence; try lia.
  - auto.
  - intros p Hp. destruct (Hf2 p Hp) as [Hq|Hq]; [|right; lia].
    destruct (Hf1 p Hq); [left; assumption | right; lia].
  - auto.
Qed.

Lemma RotateBlock_frame ctx blk t r t' :
  RotateBlock ctx blk t = Ret r t' -> frame t t'.
Proof.
  intros HR. destruct (decide (active t = Some blk)) as [Ha|Hne].
  2: { rewrite RotateBlock_other in HR by assumption. inversion HR. apply frame_refl. }
  destruct (heap t !! blk) as [b|] eqn:Hb.
  2: { rewrite RotateBlock_dangling in HR by assumption. discriminate. }
  destruct (RotateBlock_active ctx blk t b Ha Hb)
    as (t2 & HR2 & Hdb & Hname & Hwal & Hcl & Hcb & Hlc & Hcase).
  rewrite HR in HR2. inversion HR2; subst r t2. clear HR2.
  destruct (wal_fails (wal t) (wal_calls (wal t)) _) as [e|].
  - destruct Hcase as (Hact & Hheap & Hpend & Hsp & Hmet).
    constructor; try (rewrite ?Hdb, ?Hwal, ?Hmet, ?Hname, ?Hcl; reflexivity).
    + intros p. unfold indexAt, indexOf. rewrite Hheap. reflexivity.
    + unfold memoryPtrs. rewrite Hact, Ha, Hpend. auto.
    + unfold memoryPtrs. rewrite Hact, Ha, Hpend. auto.
    + rewrite Hheap. lia.
    + apply readable_heap; [|rewrite Hheap; reflexivity].
      unfold memoryPtrs. rewrite Hact, Ha, Hpend. reflexivity.
  - destruct Hcase as (Hact & Hheap & Hpend & Hsp & Hmet).
    constructor; try (rewrite ?Hdb, ?Hwal, ?Hmet, ?Hname, ?Hcl; reflexivity).
    + eapply indexAt_app_new; [eassumption | reflexivity].
    + unfold memoryPtrs. rewrite Hact, Ha, Hpend. intros p Hp.
      right. apply elem_of_elements, elem_of_union.
      apply elem_of_cons in Hp as [->|Hp]; [left; apply elem_of_singleton; reflexivity|].
      right. apply elem_of_elements in Hp. assumption.
    + unfold memoryPtrs. rewrite Hact, Ha, Hpend. intros p Hp.
      apply elem_of_cons in Hp as [->|Hp]; [right; lia|]. left.
      apply elem_of_elements in Hp. apply elem_of_union in Hp as [Hp|Hp].
      * apply elem_of_singleton in Hp as ->. left.
      * right. apply elem_of_elements. assumption.
    + rewrite Hheap, length_app. lia.
    + intros [Hvalid Hall]. split.
      * unfold memoryPtrs in *. rewrite Hact, Hheap. rewrite Ha in Hvalid.
        intros p Hp. apply lookup_lt_is_Some. rewrite length_app. simpl.
        apply elem_of_cons in Hp as [->|Hp]; [lia|].
        rewrite Hpend in Hp. apply elem_of_elements, elem_of_union in Hp as [Hp|Hp].
        -- apply elem_of_singleton in Hp as ->. apply lookup_lt_Some in Hb. lia.
        -- assert (p < length (heap t))%nat; [|lia]. apply lookup_lt_is_Some.
           apply Hvalid. right. apply elem_of_elements. assumption.
      * rewrite Hheap. apply Forall_app. split; [assumption|]. repeat constructor.
        simpl. lia.
Qed.

Lemma RotateBlock_wf ctx blk t r t' :
  wf t -> RotateBlock ctx blk t = Ret r t' -> wf t'.
Proof.
  intros [(a & Ha0 & Hlt) Hall] HR. destruct (decide (active t = Some blk)) as [Ha|Hne].
  2: { rewrite RotateBlock_other in HR by assumption. inversion HR; subst.
       split; [exists a; auto | assumption]. }
  destruct (heap t !! blk) as [b|] eqn:Hb.
  2: { rewrite RotateBlock_dangling in HR by assumption. discriminate. }
  destruct (RotateBlock_active ctx blk t b Ha Hb)
    as (t2 & HR2 & Hdb & Hname & Hwal & Hcl & Hcb & Hlc & Hcase).
  rewrite HR in HR2. inversion HR2; subst r t2. clear HR2.
  destruct (wal_fails (wal t) (wal_calls (wal t)) _) as [e|];
    destruct Hcase as (Hact & Hheap & Hpend & Hsp & Hmet); unfold wf; rewrite Hact, Hheap.
  - split; [exists blk; split; [reflexivity|congruence] | assumption].
  - split; [exists (length (heap t)); split; [reflexivity | rewrite length_app; simpl; lia]|].
    apply Forall_app. split; [assumption|]. repeat constructor. simpl. lia.
Qed.

(** ** [appender] *)

Lemma indexOf_alter_writers h p n q :
  indexOf (alter (set_pendingWritersWg n) p h) q = indexOf h q.
Proof.
  unfold indexOf. destruct (decide (p = q)) as [<-|Hne].
  - rewrite list_lookup_alter_eq. destruct (h !! p); reflexivity.
  - rewrite list_lookup_alter_ne by assumption. reflexivity.
Qed.

Lemma indexOf_alter_index h f p q :
  indexOf (alter (set_index f) p h) q =
  if decide (p = q) then
    match h !! p with Some b => f (index b) | None => [] end
  else indexOf h q.
Proof.
  unfold indexOf. destruct (decide (p = q)) as [<-|Hne].
  - rewrite list_lookup_alter_eq. destruct (h !! p); reflexivity.
  - rewrite list_lookup_alter_ne by assumption. reflexivity.
Qed.

Lemma frame_alter_writers t p n :
  frame t (set_heap (alter (set_pendingWritersWg n) p) t).
Proof.
  constructor; simpl; auto.
  - intros q. unfold indexAt; simpl. apply indexOf_alter_writers.
  - rewrite length_alter. lia.
  - apply readable_heap; [reflexivity|]. simpl. apply map_readers_alter. reflexivity.
Qed.

Lemma wf_alter_writers t p n :
  wf t -> 0 <= n -> wf (set_heap (alter (set_pendingWritersWg n) p) t).
Proof.
  intros [(a & Ha & Hlt) Hall] Hn. split; simpl.
  - exists a. rewrite length_alter. auto.
  - apply Forall_forall. intros b Hb. apply list_elem_of_lookup in Hb as [q Hq].
    apply lookup_alter_writers in Hq as (b0 & Hq0 & _ & _ & _ & _ & Hne & Heq).
    destruct (decide (p = q)) as [E|E]; [rewrite (Heq E); assumption|].
    rewrite (Hne E). rewrite Forall_forall in Hall. apply Hall.
    apply list_elem_of_lookup. eauto.
Qed.

(** One iteration of the loop of [appender] on an open table. *)
Lemma appender_step fuel ctx t p b :
  closing t = false -> active t = Some p -> heap t !! p = Some b ->
  0 <= pendingWritersWg b ->
  appender (S fuel) ctx t =
    if Size b <? activeMemorySize (db t) then
      Ret (inl p) (set_heap (alter (set_pendingWritersWg (pendingWritersWg b + 1)) p) t)
    else
      match RotateBlock ctx p t with
      | Ret (Some e) t1 => Ret (inr (Errorf "rotate block" e)) t1
      | Ret None t1 => appender fuel ctx t1
      | Panic => Panic
      | Blocked => Blocked
      | OutOfFuel => OutOfFuel
      end.
Proof.
  intros Hc Ha Hp Hw. simpl. unfold bind at 1.
  rewrite (ActiveWriteBlock_open t p b Hc Ha Hp Hw).
  munfold. simpl. rewrite list_lookup_alter_eq, Hp. simpl. unfold Size.
  destruct (size b <? activeMemorySize (db t)); [reflexivity|].
  simpl. rewrite list_lookup_alter_eq, Hp. simpl.
  destruct (Z.ltb_spec (pendingWritersWg b + 1 + -1) 0); [lia|].
  rewrite (writers_acquire_release t p b Hp).
  destruct (RotateBlock ctx p t) as [[e|] t1| | |]; reflexivity.
Qed.

Lemma appender_closing fuel ctx t :
  closing t = true -> appender (S fuel) ctx t = Ret (inr ErrTableClosing) t.
Proof.
  intros Hc. simpl. unfold bind. rewrite (ActiveWriteBlock_closing t Hc). reflexivity.
Qed.

Lemma wf_active t :
  wf t -> exists p b, active t = Some p /\ heap t !! p = Some b /\ 0 <= pendingWritersWg b.
Proof.
  intros [(a & Ha & Hlt) Hall]. apply lookup_lt_is_Some_2 in Hlt as [b Hb].
  exists a, b. split; [assumption|]. split; [assumption|].
  rewrite Forall_forall in Hall. apply Hall. apply list_elem_of_lookup. eauto.
Qed.

(** The state in which [appender] hands out a writer slot. *)
Lemma appender_post ctx fuel : forall t blk t',
  wf t -> appender fuel ctx t = Ret (inl blk) t' ->
  wf t' /\ frame t t' /\ active t' = Some blk /\ closing t' = false /\
  exists b, heap t' !! blk = Some b /\ Size b < activeMemorySize (db t') /\
            1 <= pendingWritersWg b.
Proof.
  induction fuel as [|fuel IH]; intros t blk t' Hwf Happ; [discriminate|].
  destruct (closing t) eqn:Hc.
  { rewrite appender_closing in Happ by assumption. discriminate. }
  destruct (wf_active t Hwf) as (p & b & Ha & Hp & Hw).
  rewrite (appender_step fuel ctx t p b Hc Ha Hp Hw) in Happ.
  destruct (Z.ltb_spec (Size b) (activeMemorySize (db t))) as [Hlt|Hge].
  - inversion Happ; subst blk t'. clear Happ.
    split; [apply wf_alter_writers; [assumption | lia]|].
    split; [apply frame_alter_writers|]. simpl.
    split; [assumption|]. split; [assumption|].
    exists (set_pendingWritersWg (pendingWritersWg b + 1) b).
    rewrite list_lookup_alter_eq, Hp. simpl. split; [reflexivity|]. split; [assumption | lia].
  - destruct (RotateBlock ctx p t) as [[e|] t1| | |] eqn:HR; try discriminate.
    destruct (IH t1 blk t' (RotateBlock_wf _ _ _ _ _ Hwf HR) Happ) as (Hwf' & Hfr & Hrest).
    split; [assumption|]. split; [|assumption].
    eapply frame_trans; [eapply RotateBlock_frame; eassumption | assumption].
Qed.

(** ** [InsertRecord] *)

Lemma map_writers_alter_index (h : list TableBlock) f n : forall p,
  map pendingWritersWg (alter (set_pendingWritersWg n) p (alter (set_index f) p h)) =
  map pendingWritersWg (alter (set_pendingWritersWg n) p h).
Proof.
  induction h as [|b h IH]; intros [|p]; simpl; try reflexivity.
  f_equal. apply IH.
Qed.

(** [InsertRecord] once [appender] has handed out the slot of block [blk]: the
    value returned and the state left, by the result of [LogRecord] and the
    row count of the record. *)
Lemma InsertRecord_after_appender fuel ctx record t blk t1 b :
  appender fuel ctx t = Ret (inl blk) t1 ->
  heap t1 !! blk = Some b -> 1 <= pendingWritersWg b ->
  let tx := wrap64 (db_tx (db t1) + 1) in
  let call := CallLogRecord tx (name t1) record in
  let werr := wal_fails (wal t1) (wal_calls (wal t1)) call in
  exists t',
    InsertRecord fuel ctx record t =
      Ret (tx, match werr with Some e => Some (Errorf "append to log" e) | None => None end) t' /\
    db t' = add_db_committed tx (set_db_tx tx (db t1)) /\
    wal t' = mkWAL (wal_calls (wal t1) ++ [call]) (wal_fails (wal t1)) /\
    memoryPtrs t' = memoryPtrs t1 /\
    map pendingWritersWg (heap t') =
      map pendingWritersWg (alter (set_pendingWritersWg (pendingWritersWg b - 1)) blk (heap t1)) /\
    map pendingReadersWg (heap t') = map pendingReadersWg (heap t1) /\
    match werr with
    | Some _ => (forall p, indexAt t' p = indexAt t1 p) /\ metrics t' = metrics t1
    | None =>
        rowsInserted (metrics t') = rowsInserted (metrics t1) + NumRows record /\
        rowInsertSize (metrics t') = rowInsertSize (metrics t1) ++ [NumRows record] /\
        if NumRows record =? 0 then
          (forall p, indexAt t' p = indexAt t1 p) /\
          zeroRowsInserted (metrics t') = zeroRowsInserted (metrics t1) + 1
        else
          indexAt t' blk = indexAt t1 blk ++ [(tx, record)] /\
          (forall p, p <> blk -> indexAt t' p = indexAt t1 p) /\
          zeroRowsInserted (metrics t') = zeroRowsInserted (metrics t1)
    end.
Proof.
  intros Happ Hb Hw tx call werr. unfold InsertRecord, TableBlock_InsertRecord.
  unfold bind at 1. rewrite Happ. munfold. simpl. fold tx call werr.
  destruct werr as [e|]; simpl.
  - rewrite Hb. simpl.
    destruct (Z.ltb_spec (pendingWritersWg b + -1) 0); [lia|].
    eexists. split; [reflexivity|]. simpl.
    split; [reflexivity|]. split; [reflexivity|]. split; [reflexivity|].
    split; [replace (pendingWritersWg b + -1) with (pendingWritersWg b - 1) by lia; reflexivity|].
    split; [apply map_readers_alter; reflexivity|].
    split; [|reflexivity]. intros p. unfold indexAt; simpl. apply indexOf_alter_writers.
  - rewrite Hb. simpl. destruct (NumRows record =? 0) eqn:Hz; simpl.
    + rewrite Hb. simpl.
      destruct (Z.ltb_spec (pendingWritersWg b + -1) 0); [lia|].
      eexists. split; [reflexivity|]. simpl.
      split; [reflexivity|]. split; [reflexivity|]. split; [reflexivity|].
      split; [replace (pendingWritersWg b + -1) with (pendingWritersWg b - 1) by lia; reflexivity|].
      split; [apply map_readers_alter; reflexivity|].
      split; [reflexivity|]. split; [reflexivity|]. split; [|reflexivity].
      intros p. unfold indexAt; simpl. apply indexOf_alter_writers.
    + rewrite list_lookup_alter_eq, Hb. simpl.
      destruct (Z.ltb_spec (pendingWritersWg b + -1) 0); [lia|].
      eexists. split; [reflexivity|]. simpl.
      split; [reflexivity|]. split; [reflexivity|]. split; [reflexivity|].
      split.
      { replace (pendingWritersWg b + -1) with (pendingWritersWg b - 1) by lia.
        apply map_writers_alter_index. }
      split; [rewrite !map_readers_alter by reflexivity; reflexivity|].
      split; [reflexivity|]. split; [reflexivity|].
      split; [|split; [|reflexivity]].
      * unfold indexAt; simpl. rewrite indexOf_alter_writers, indexOf_alter_index.
        rewrite decide_True by reflexivity. unfold indexOf. rewrite Hb. reflexivity.
      * intros p Hp. unfold indexAt; simpl.
        rewrite indexOf_alter_writers, indexOf_alter_index.
        rewrite decide_False by congruence. reflexivity.
Qed.

(** ** What a scan of the memory blocks sees *)

Lemma indexAt_dangling t p : (length (heap t) <= p)%nat -> indexAt t p = [].
Proof.
  intros H. unfold indexAt, indexOf. rewrite (proj2 (lookup_ge_None (heap t) p)) by lia.
  reflexivity.
Qed.

Lemma memoryItems_elem t it :
  it ∈ memoryItems t <-> exists p, p ∈ memoryPtrs t /\ it ∈ fst (LSM_Scan (indexAt t p)).
Proof.
  unfold memoryItems. rewrite list_elem_of_In, in_flat_map. split.
  - intros (p & Hp & Hit). exists p. rewrite !list_elem_of_In. auto.
  - intros (p & Hp & Hit). exists p. rewrite <- !list_elem_of_In. auto.
Qed.

Lemma memoryItems_frame t t' :
  frame t t' -> forall it, it ∈ memoryItems t' <-> it ∈ memoryItems t.
Proof.
  intros Hf it. rewrite !memoryItems_elem. split.
  - intros (p & Hp & Hit). rewrite (frame_index _ _ Hf) in Hit.
    destruct (frame_fresh _ _ Hf p Hp) as [Hold|Hnew]; [eauto|].
    rewrite indexAt_dangling in Hit by assumption. inversion Hit.
  - intros (p & Hp & Hit). exists p. rewrite (frame_index _ _ Hf).
    split; [apply (frame_ptrs _ _ Hf); assumption | assumption].
Qed.

Lemma memoryItems_same t t' :
  memoryPtrs t' = memoryPtrs t -> (forall p, indexAt t' p = indexAt t p) ->
  memoryItems t' = memoryItems t.
Proof.
  intros Hp Hi. unfold memoryItems. rewrite Hp. apply flat_map_ext. intros p.
  rewrite Hi. reflexivity.
Qed.

(** ** Claims about [InsertRecord] *)

(** C1. When the [LogRecord] call of [InsertRecord] fails with [e], the call
    returns the assigned transaction id together with the WAL error wrapped as
    "append to log", no block index has changed, the insertion metrics are
    untouched, and the memory blocks emit to a scan the items they emitted
    before the call. *)
Theorem InsertRecord_wal_failure fuel ctx record t blk t1 e :
  wf t ->
  appender fuel ctx t = Ret (inl blk) t1 ->
  wal_fails (wal t1) (wal_calls (wal t1))
    (CallLogRecord (wrap64 (db_tx (db t1) + 1)) (name t1) record) = Some e ->
  exists t',
    InsertRecord fuel ctx record t =
      Ret (wrap64 (db_tx (db t1) + 1), Some (Errorf "append to log" e)) t' /\
    (forall p, indexAt t' p = indexAt t p) /\
    (forall it, it ∈ memoryItems t' <-> it ∈ memoryItems t) /\
    rowsInserted (metrics t') = rowsInserted (metrics t) /\
    rowInsertSize (metrics t') = rowInsertSize (metrics t).
Proof.
  intros Hwf Happ Hfail.
  destruct (appender_post ctx fuel t blk t1 Hwf Happ)
    as (Hwf1 & Hfr & Hact & Hcl & b & Hb & Hsz & Hw).
  destruct (InsertRecord_after_appender fuel ctx record t blk t1 b Happ Hb Hw)
    as (t' & HI & Hdb & Hwal & Hptrs & Hws & Hrs & Hcase).
  rewrite Hfail in HI, Hcase. destruct Hcase as [Hidx Hmet].
  exists t'. split; [assumption|].
  split; [intros p; rewrite Hidx; apply (frame_index _ _ Hfr)|].
  split.
  { intros it. rewrite (memoryItems_same t1 t' Hptrs Hidx). apply memoryItems_frame. assumption. }
  rewrite Hmet. split; [apply (frame_rows _ _ Hfr) | apply (frame_sizes _ _ Hfr)].
Qed.

Lemma InsertRecord_wal_failure_witness :
  exists t',
    InsertRecord 3 liveCtx threeRows (exampleTable failingLogRecordWAL) =
      Ret (2, Some (Errorf "append to log" (ErrExternal "wal: log record"))) t' /\
    (forall p, indexAt t' p = indexAt (exampleTable failingLogRecordWAL) p) /\
    (forall it, it ∈ memoryItems t' <-> it ∈ memoryItems (exampleTable failingLogRecordWAL)) /\
    rowsInserted (metrics t') = 0 /\
    rowInsertSize (metrics t') = [].
Proof.
  apply (InsertRecord_wal_failure 3 liveCtx threeRows (exampleTable failingLogRecordWAL) 0%nat
           (set_heap (alter (set_pendingWritersWg 1) 0%nat) (exampleTable failingLogRecordWAL))
           (ErrExternal "wal: log record")).
  - split; [exists 0%nat; split; [reflexivity | simpl; lia] | repeat constructor; simpl; lia].
  - reflexivity.
  - reflexivity.
Defined.

(** C5, as the code has it.  A zero-row batch goes through [LogRecord] like
    any other batch.  When the slot is handed out and that call succeeds,
    [InsertRecord] returns the assigned transaction id and no error,
    [zeroRowsInserted] has grown by one, no block index has changed, and the
    WAL has received the call [LogRecord(tx, name, record)]. *)
Theorem InsertRecord_zero_rows fuel ctx record t blk t1 :
  wf t ->
  NumRows record = 0 ->
  appender fuel ctx t = Ret (inl blk) t1 ->
  wal_fails (wal t1) (wal_calls (wal t1))
    (CallLogRecord (wrap64 (db_tx (db t1) + 1)) (name t1) record) = None ->
  exists t',
    InsertRecord fuel ctx record t = Ret (wrap64 (db_tx (db t1) + 1), None) t' /\
    zeroRowsInserted (metrics t') = zeroRowsInserted (metrics t) + 1 /\
    (forall p, indexAt t' p = indexAt t p) /\
    (forall it, it ∈ memoryItems t' <-> it ∈ memoryItems t) /\
    wal_calls (wal t') =
      wal_calls (wal t1) ++ [CallLogRecord (wrap64 (db_tx (db t1) + 1)) (name t) record].
Proof.
  intros Hwf Hzero Happ Hok.
  destruct (appender_post ctx fuel t blk t1 Hwf Happ)
    as (Hwf1 & Hfr & Hact & Hcl & b & Hb & Hsz & Hw).
  destruct (InsertRecord_after_appender fuel ctx record t blk t1 b Happ Hb Hw)
    as (t' & HI & Hdb & Hwal & Hptrs & Hws & Hrs & Hcase).
  rewrite Hok in HI, Hcase. rewrite Hzero in Hcase. simpl in Hcase.
  destruct Hcase as (_ & _ & Hidx & Hz).
  exists t'. split; [assumption|].
  split; [rewrite Hz, (frame_zero _ _ Hfr); reflexivity|].
  split; [intros p; rewrite Hidx; apply (frame_index _ _ Hfr)|].
  split.
  { intros it. rewrite (memoryItems_same t1 t' Hptrs Hidx). apply memoryItems_frame. assumption. }
  rewrite Hwal. simpl. rewrite (frame_name _ _ Hfr). reflexivity.
Qed.

Lemma InsertRecord_zero_rows_witness :
  exists t',
    InsertRecord 3 liveCtx zeroRows (exampleTable NopWAL) = Ret (2, None) t' /\
    zeroRowsInserted (metrics t') = 0 + 1 /\
    (forall p, indexAt t' p = indexAt (exampleTable NopWAL) p) /\
    (forall it, it ∈ memoryItems t' <-> it ∈ memoryItems (exampleTable NopWAL)) /\
    wal_calls (wal t') = [] ++ [CallLogRecord 2 "t" zeroRows].
Proof.
  apply (InsertRecord_zero_rows 3 liveCtx zeroRows (exampleTable NopWAL) 0%nat
           (set_heap (alter (set_pendingWritersWg 1) 0%nat) (exampleTable NopWAL))).
  - split; [exists 0%nat; split; [reflexivity | simpl; lia] | repeat constructor; simpl; lia].
  - reflexivity.
  - reflexivity.
  - reflexivity.
Defined.

(** The zero-row batch of the example reaches the WAL: the statement of the
    specification fails on it. *)
Lemma zero_rows_are_logged :
  ~ zeroRowsNotLogged 3 liveCtx zeroRows (exampleTable NopWAL).
Proof.
  intros H. destruct (H eq_refl) as (tx & t' & HI & _ & _ & Hcalls).
  vm_compute in HI. inversion HI; subst. vm_compute in Hcalls. discriminate.
Qed.

(** The loop of [appender] passes its context to [RotateBlock] only, which
    does not read it. *)
Lemma appender_ignores_context fuel ctx ctx' : forall t,
  appender fuel ctx t = appender fuel ctx' t.
Proof.
  induction fuel as [|fuel IH]; intros t; [reflexivity|]. simpl. unfold bind.
  destruct (ActiveWriteBlock t) as [[blk|err] t1| | |]; try reflexivity.
  destruct (deref blk t1) as [b t2| | |]; try reflexivity.
  destruct (get t2) as [t3 t4| | |]; try reflexivity.
  destruct (Size b <? activeMemorySize (db t3)); [reflexivity|].
  destruct (pendingWritersWg_Done blk t4) as [[] t5| | |]; try reflexivity.
  change (RotateBlock ctx' blk t5) with (RotateBlock ctx blk t5).
  destruct (RotateBlock ctx blk t5) as [[e|] t6| | |]; try reflexivity. apply IH.
Qed.

(** C7, as the code has it.  [InsertRecord] never consults its context: under
    any two contexts, cancelled or not, it returns the same value and leaves
    the same state.  In particular, whatever the context, once [appender] has
    handed out the slot of a block (its writer wait-group counter is then at
    least one), [InsertRecord] returns with the call
    [LogRecord(tx, name, record)] made on the WAL. *)
Theorem InsertRecord_ignores_context fuel ctx record t :
  (forall ctx', InsertRecord fuel ctx record t = InsertRecord fuel ctx' record t) /\
  (forall blk t1,
     wf t -> appender fuel ctx t = Ret (inl blk) t1 ->
     exists res t',
       InsertRecord fuel ctx record t = Ret res t' /\
       wal_calls (wal t') =
         wal_calls (wal t1) ++ [CallLogRecord (wrap64 (db_tx (db t1) + 1)) (name t) record] /\
       exists b, heap t1 !! blk = Some b /\ 1 <= pendingWritersWg b).
Proof.
  split.
  - intros ctx'. unfold InsertRecord. unfold bind at 1 3.
    rewrite (appender_ignores_context fuel ctx ctx'). reflexivity.
  - intros blk t1 Hwf Happ.
    destruct (appender_post ctx fuel t blk t1 Hwf Happ)
      as (Hwf1 & Hfr & Hact & Hcl & b & Hb & Hsz & Hw).
    destruct (InsertRecord_after_appender fuel ctx record t blk t1 b Happ Hb Hw)
      as (t' & HI & Hdb & Hwal & _).
    eexists. exists t'. split; [exact HI|]. rewrite Hwal. simpl.
    rewrite (frame_name _ _ Hfr). split; [reflexivity | eauto].
Qed.

Lemma InsertRecord_ignores_context_witness :
  (forall ctx', InsertRecord 3 canceledCtx threeRows (exampleTable NopWAL) =
                InsertRecord 3 ctx' threeRows (exampleTable NopWAL)) /\
  (forall blk t1,
     wf (exampleTable NopWAL) ->
     appender 3 canceledCtx (exampleTable NopWAL) = Ret (inl blk) t1 ->
     exists res t',
       InsertRecord 3 canceledCtx threeRows (exampleTable NopWAL) = Ret res t' /\
       wal_calls (wal t') =
         wal_calls (wal t1) ++
         [CallLogRecord (wrap64 (db_tx (db t1) + 1)) (name (exampleTable NopWAL)) threeRows] /\
       exists b, heap t1 !! blk = Some b /\ 1 <= pendingWritersWg b).
Proof.
  apply (InsertRecord_ignores_context 3 canceledCtx threeRows (exampleTable NopWAL)).
Defined.

(** With a cancelled context the example insertion succeeds, the record is
    appended to the WAL and added to the index. *)
Lemma canceled_context_is_ignored :
  ~ honorsCancellation 3 canceledCtx threeRows (exampleTable NopWAL).
Proof.
  intros H. destruct H as (tx & e & t' & HI & _); [discriminate|].
  vm_compute in HI. discriminate.
Qed.

(** ** The transaction id returned by [InsertRecord] *)






(** The two cases on the examples: a failed rotation gives the id zero, a
    failed [LogRecord] gives the assigned id. *)
Example InsertRecord_tx_zero :
  exists t', InsertRecord 3 liveCtx threeRows (fullTable brokenWAL) =
               Ret (0, Some (Errorf "get appender"
                               (Errorf "rotate block" (ErrExternal "wal: closed")))) t'.
Proof. eexists. vm_compute. reflexivity. Qed.

Example InsertRecord_tx_assigned :
  exists t', InsertRecord 3 liveCtx threeRows (exampleTable failingLogRecordWAL) =
               Ret (2, Some (Errorf "append to log" (ErrExternal "wal: log record"))) t' /\
             db_tx (db t') = 2.
Proof. eexists. vm_compute. split; reflexivity. Qed.

(** ** The rotation trigger of [appender] *)

(** C4. On a well-formed table: (1) whenever [appender] returns a block, that
    block is the active one, its size read by the loop is strictly below
    [activeMemorySize] and its writer slot is held; (2) when the active block
    has reached the threshold, one iteration acquires the slot, releases it
    with nothing written, calls [RotateBlock] on that block and, if rotation
    succeeds, goes round the loop again in the state rotation left; (3) with a
    positive threshold two iterations are enough for [appender] to return. *)
Theorem appender_below_threshold ctx t :
  wf t ->
  (forall fuel blk t', appender fuel ctx t = Ret (inl blk) t' ->
     active t' = Some blk /\
     exists b, heap t' !! blk = Some b /\ Size b < activeMemorySize (db t') /\
               1 <= pendingWritersWg b) /\
  (forall fuel p b, closing t = false -> active t = Some p -> heap t !! p = Some b ->
     activeMemorySize (db t) <= Size b ->
     appender (S fuel) ctx t =
       match RotateBlock ctx p t with
       | Ret (Some e) t1 => Ret (inr (Errorf "rotate block" e)) t1
       | Ret None t1 => appender fuel ctx t1
       | Panic => Panic
       | Blocked => Blocked
       | OutOfFuel => OutOfFuel
       end) /\
  (0 < activeMemorySize (db t) -> exists r t', appender 2 ctx t = Ret r t').
Proof.
  intros Hwf. split; [|split].
  - intros fuel blk t' Happ.
    destruct (appender_post ctx fuel t blk t' Hwf Happ) as (_ & _ & Hact & _ & Hb).
    split; assumption.
  - intros fuel p b Hc Ha Hp Hge.
    destruct (wf_active t Hwf) as (p' & b' & Ha' & Hp' & Hw).
    rewrite Ha in Ha'. inversion Ha'; subst p'. rewrite Hp in Hp'. inversion Hp'; subst b'.
    rewrite (appender_step fuel ctx t p b Hc Ha Hp Hw).
    destruct (Z.ltb_spec (Size b) (activeMemorySize (db t))); [lia | reflexivity].
  - intros Hpos. destruct (closing t) eqn:Hc.
    { rewrite appender_closing by assumption. eauto. }
    destruct (wf_active t Hwf) as (p & b & Ha & Hp & Hw).
    rewrite (appender_step 1 ctx t p b Hc Ha Hp Hw).
    destruct (Size b <? activeMemorySize (db t)); [eauto|].
    destruct (RotateBlock_active ctx p t b Ha Hp)
      as (t1 & HR & Hdb & Hname & Hwal & Hcl & _ & _ & Hcase).
    rewrite HR. destruct (wal_fails (wal t) (wal_calls (wal t)) _) as [e|]; [eauto|].
    destruct Hcase as (Hact & Hheap & _).
    assert (heap t1 !! length (heap t) = Some (new_block (minTx b) (wrap64 (db_tx (db t) + 1))
                                                  (ulidSeq t (ulidNext t)))) as Hnew.
    { rewrite Hheap, lookup_app_r by lia. rewrite Nat.sub_diag. reflexivity. }
    rewrite (appender_step 0 ctx t1 _ _ (eq_trans Hcl Hc) Hact Hnew) by (simpl; lia).
    rewrite Hdb. simpl.
    destruct (Z.ltb_spec 0 (activeMemorySize (db t))); [eauto | lia].
Qed.

Lemma appender_below_threshold_witness :
  (forall fuel blk t', appender fuel liveCtx (fullTable NopWAL) = Ret (inl blk) t' ->
     active t' = Some blk /\
     exists b, heap t' !! blk = Some b /\ Size b < activeMemorySize (db t') /\
               1 <= pendingWritersWg b) /\
  (forall fuel p b, closing (fullTable NopWAL) = false -> active (fullTable NopWAL) = Some p ->
     heap (fullTable NopWAL) !! p = Some b ->
     activeMemorySize (db (fullTable NopWAL)) <= Size b ->
     appender (S fuel) liveCtx (fullTable NopWAL) =
       match RotateBlock liveCtx p (fullTable NopWAL) with
       | Ret (Some e) t1 => Ret (inr (Errorf "rotate block" e)) t1
       | Ret None t1 => appender fuel liveCtx t1
       | Panic => Panic
       | Blocked => Blocked
       | OutOfFuel => OutOfFuel
       end) /\
  (0 < activeMemorySize (db (fullTable NopWAL)) ->
   exists r t', appender 2 liveCtx (fullTable NopWAL) = Ret r t').
Proof.
  apply (appender_below_threshold liveCtx (fullTable NopWAL)).
  split; [exists 0%nat; split; [reflexivity | simpl; lia] | repeat constructor; simpl; lia].
Defined.

(** On the example whose active block is full, [appender] rotates once and
    returns the fresh block. *)
Example appender_rotates_full_block :
  exists t', appender 2 liveCtx (fullTable NopWAL) = Ret (inl 1%nat) t' /\
             active t' = Some 1%nat /\ elements (pendingBlocks t') = [0%nat] /\
             map pendingWritersWg (heap t') = [0; 1] /\ map index (heap t') = [[]; []].
Proof. eexists. vm_compute. repeat split; reflexivity. Qed.

(** ** [RotateBlock] and the active block *)

(** C3, as the code has it.  For a valid block pointer [blk]:
    - if the active block is not [blk], [RotateBlock] returns nil and leaves
      the table as it is;
    - if the active block is [blk], the result is the result of logging the
      [NewTableBlock] entry;
    - the active block is replaced if and only if it was [blk] and that
      logging succeeded; the new block then has [prevTx] the [minTx] of [blk],
      [blk] is pending and its persistence task has been started;
    - when logging fails the error is returned and active block, heap, pending
      set and started tasks are unchanged;
    - after a call that returned nil, calling [RotateBlock] on [blk] again
      returns nil and changes nothing. *)
Theorem RotateBlock_replaces_iff_logged ctx blk t b :
  heap t !! blk = Some b ->
  exists r t',
    RotateBlock ctx blk t = Ret r t' /\
    (active t <> Some blk -> r = None /\ t' = t) /\
    (active t = Some blk ->
     r = wal_fails (wal t) (wal_calls (wal t))
           (CallLog (wrap64 (db_tx (db t) + 1))
              (Entry_NewTableBlock (name t) (ulidSeq t (ulidNext t))))) /\
    (active t' <> active t <-> active t = Some blk /\ r = None) /\
    (active t = Some blk -> r = None ->
     active t' = Some (length (heap t)) /\
     heap t' = heap t ++ [new_block (minTx b) (wrap64 (db_tx (db t) + 1))
                            (ulidSeq t (ulidNext t))] /\
     blk ∈ pendingBlocks t' /\
     spawned t' = spawned t ++ [blk]) /\
    (forall e, r = Some e ->
     active t' = active t /\ heap t' = heap t /\
     pendingBlocks t' = pendingBlocks t /\ spawned t' = spawned t) /\
    (r = None -> RotateBlock ctx blk t' = Ret None t').
Proof.
  intros Hb. destruct (decide (active t = Some blk)) as [Ha|Hne].
  - destruct (RotateBlock_active ctx blk t b Ha Hb)
      as (t' & HR & Hdb & Hname & Hwal & Hcl & _ & _ & Hcase).
    eexists. exists t'. split; [exact HR|].
    split; [intros Hc; contradiction|]. split; [reflexivity|].
    pose proof (lookup_lt_Some _ _ _ Hb) as Hlt.
    destruct (wal_fails (wal t) (wal_calls (wal t)) _) as [e|];
      destruct Hcase as (Hact & Hheap & Hpend & Hsp & Hmet).
    + split; [split; [intros Hc; rewrite Hact, Ha in Hc; contradiction | intros [_ ?]; discriminate]|].
      split; [intros _ ?; discriminate|].
      split; [intros e' _; rewrite Hact, Ha; auto | intros ?; discriminate].
    + split.
      { split; [auto|]. intros _. rewrite Hact, Ha. intros [= E]. lia. }
      split.
      { intros _ _. split; [assumption|]. split; [assumption|]. split; [|assumption].
        rewrite Hpend. apply elem_of_union. left. apply elem_of_singleton. reflexivity. }
      split; [intros e' ?; discriminate|].
      intros _. apply RotateBlock_other. rewrite Hact. intros [= E]. lia.
  - exists None, t. split; [apply RotateBlock_other; assumption|].
    split; [auto|]. split; [intros; contradiction|].
    split; [split; [intros Hc; contradiction | intros [? _]; contradiction]|].
    split; [intros; contradiction|].
    split; [intros e ?; discriminate|].
    intros _. apply RotateBlock_other. assumption.
Qed.

Lemma RotateBlock_replaces_iff_logged_witness :
  exists r t',
    RotateBlock liveCtx 0%nat (fullTable NopWAL) = Ret r t' /\
    (active (fullTable NopWAL) <> Some 0%nat -> r = None /\ t' = fullTable NopWAL) /\
    (active (fullTable NopWAL) = Some 0%nat ->
     r = wal_fails (wal (fullTable NopWAL)) (wal_calls (wal (fullTable NopWAL)))
           (CallLog (wrap64 (db_tx (db (fullTable NopWAL)) + 1))
              (Entry_NewTableBlock (name (fullTable NopWAL))
                 (ulidSeq (fullTable NopWAL) (ulidNext (fullTable NopWAL)))))) /\
    (active t' <> active (fullTable NopWAL) <->
     active (fullTable NopWAL) = Some 0%nat /\ r = None) /\
    (active (fullTable NopWAL) = Some 0%nat -> r = None ->
     active t' = Some (length (heap (fullTable NopWAL))) /\
     heap t' = heap (fullTable NopWAL) ++
               [new_block (minTx (mkBlock (Z.shiftl 1000 80) 1 0 100 0 [] 0 0))
                  (wrap64 (db_tx (db (fullTable NopWAL)) + 1))
                  (ulidSeq (fullTable NopWAL) (ulidNext (fullTable NopWAL)))] /\
     0%nat ∈ pendingBlocks t' /\
     spawned t' = spawned (fullTable NopWAL) ++ [0%nat]) /\
    (forall e, r = Some e ->
     active t' = active (fullTable NopWAL) /\ heap t' = heap (fullTable NopWAL) /\
     pendingBlocks t' = pendingBlocks (fullTable NopWAL) /\
     spawned t' = spawned (fullTable NopWAL)) /\
    (r = None -> RotateBlock liveCtx 0%nat t' = Ret None t').
Proof.
  apply (RotateBlock_replaces_iff_logged liveCtx 0%nat (fullTable NopWAL)
           (mkBlock (Z.shiftl 1000 80) 1 0 100 0 [] 0 0)).
  reflexivity.
Defined.

(** The active block of the example is still [oldBlock], the WAL refuses the
    [NewTableBlock] entry, and the active block is not replaced. *)
Lemma rotation_needs_the_wal :
  ~ replacesIffStillActive liveCtx 0%nat (fullTable brokenWAL).
Proof.
  intros (r & t' & HR & Hiff). vm_compute in HR. inversion HR; subst r t'. clear HR.
  apply (proj2 Hiff); reflexivity.
Qed.

(** ** [SchemaIterator] *)

Lemma scanSources_ok path ts sources :
  snd (scanSources path ts sources) = None ->
  fst (scanSources path ts sources) = flat_map (fun s => fst (ds_Scan s path ts)) sources.
Proof.
  induction sources as [|s rest IH]; simpl; [reflexivity|].
  destruct (ds_Scan s path ts) as [items [e|]]; simpl; [discriminate|].
  destruct (scanSources path ts rest) as [items' err']; simpl in *.
  intros ->. rewrite IH by reflexivity. reflexivity.
Qed.





Example SchemaIterator_two_batches :
  exists t', SchemaIterator liveCtx 3 [fun _ => None] [] twoBatchTable =
               Ret ([(0%nat, ["v"%string]); (0%nat, ["v"%string; "w"%string])], None) t' /\
             numSources twoBatchTable = 1%nat.
Proof. eexists. vm_compute. split; reflexivity. Qed.

(** ** The parquet row writer *)

Lemma wrapInt_small z : - 2 ^ 63 <= z < 2 ^ 63 -> wrapInt z = z.
Proof. intros H. unfold wrapInt. rewrite Z.mod_small; lia. Qed.

Lemma rowWriter_eta p :
  mkRowWriter (w p) (rowGroupSize p) (maxNumRows p) (rowGroupRowsWritten p)
    (totalRowsWritten p) (rowsBufLen p) (rowsBufCap p) = p.
Proof. destruct p; reflexivity. Qed.

Lemma writerInv_set_rowsBufLen p l :
  writerInv p -> 0 <= l <= rowsBufLen p -> writerInv (set_rowsBufLen l p).
Proof.
  intros (Hlen & Hcap & Hsz & Hmx & Htot & Hgrp) Hl. unfold writerInv. simpl.
  repeat split; try lia; try assumption; apply Hgrp; assumption.
Qed.

Lemma capToRowGroup_ok p :
  writerInv p ->
  exists l, capToRowGroup p = Some (set_rowsBufLen l p) /\
            0 <= l <= rowsBufLen p /\
            (0 < rowGroupSize p -> rowGroupRowsWritten p + l <= rowGroupSize p).
Proof.
  intros (Hlen & Hcap & Hsz & Hmx & Htot & Hgrp). unfold capToRowGroup.
  destruct (Z.gtb_spec (rowGroupSize p) 0) as [Hpos|Hnpos]; simpl.
  - destruct (Hgrp Hpos) as (Hc & _ & _).
    unfold int_add, int_sub. rewrite !wrapInt_small by lia.
    destruct (Z.gtb_spec (rowGroupRowsWritten p + rowsBufLen p) (rowGroupSize p)) as [Hgt|Hle].
    + exists (rowGroupSize p - rowGroupRowsWritten p). unfold reslice.
      destruct (Z.ltb_spec (rowGroupSize p - rowGroupRowsWritten p) 0); [lia|].
      destruct (Z.ltb_spec (rowsBufCap p) (rowGroupSize p - rowGroupRowsWritten p)); [lia|].
      simpl. split; [reflexivity|]. lia.
    + exists (rowsBufLen p). unfold set_rowsBufLen. rewrite rowWriter_eta.
      split; [reflexivity|]. lia.
  - exists (rowsBufLen p). unfold set_rowsBufLen. rewrite rowWriter_eta.
    split; [reflexivity|]. lia.
Qed.

Lemma capToMaxRows_ok p :
  writerInv p ->
  maxNumRows p = 0 \/ totalRowsWritten p < maxNumRows p ->
  exists l, capToMaxRows p = Some (set_rowsBufLen l p) /\
            0 <= l <= rowsBufLen p /\
            (maxNumRows p <> 0 -> totalRowsWritten p + l <= maxNumRows p).
Proof.
  intros (Hlen & Hcap & Hsz & Hmx & Htot & Hgrp) Hcond. unfold capToMaxRows.
  destruct (Z.eqb_spec (maxNumRows p) 0) as [Hz|Hnz]; simpl.
  - exists (rowsBufLen p). unfold set_rowsBufLen. rewrite rowWriter_eta.
    split; [reflexivity|]. lia.
  - specialize (Htot Hnz). destruct Hcond as [?|Hlt]; [contradiction|].
    unfold int_add, int_sub. rewrite !wrapInt_small by lia.
    destruct (Z.gtb_spec (totalRowsWritten p + rowsBufLen p) (maxNumRows p)) as [Hgt|Hle].
    + exists (maxNumRows p - totalRowsWritten p). unfold reslice.
      destruct (Z.ltb_spec (maxNumRows p - totalRowsWritten p) 0); [lia|].
      destruct (Z.ltb_spec (rowsBufCap p) (maxNumRows p - totalRowsWritten p)); [lia|].
      simpl. split; [reflexivity|]. lia.
    + exists (rowsBufLen p). unfold set_rowsBufLen. rewrite rowWriter_eta.
      split; [reflexivity|]. lia.
Qed.



Section WriteRowsFacts.
Context {R : Type}.
Variable ReadRows : R -> Z -> list Row * readErr * R.
Hypothesis ReadRows_contract : readerContract ReadRows.

(** One pass through the body of the loop, entered with the loop condition
    true: it does not panic, it keeps the invariant, and when it goes back to
    the loop condition the total has grown and the row group counter is below
    [rowGroupSize] again. *)
Lemma writeRows_body_spec p rows written :
  writerInv p ->
  maxNumRows p = 0 \/ totalRowsWritten p < maxNumRows p ->
  match writeRows_body ReadRows p rows written with
  | IterContinue p' _ _ =>
      writerInv p' /\ writerStep p p' /\
      (maxNumRows p <> 0 -> totalRowsWritten p < totalRowsWritten p') /\
      (0 < rowGroupSize p -> rowGroupRowsWritten p' < rowGroupSize p)
  | IterStop (WrRet _ _ p' _) => writerInv p' /\ writerStep p p'
  | IterStop WrPanic => False
  | IterStop WrOutOfFuel => False
  end.
Proof.
  intros Hinv Hcond. unfold writeRows_body.
  destruct (capToRowGroup_ok p Hinv) as (l1 & E1 & Hl1 & Hg1). rewrite E1.
  pose proof (writerInv_set_rowsBufLen p l1 Hinv Hl1) as Hinv1.
  destruct (capToMaxRows_ok (set_rowsBufLen l1 p) Hinv1 Hcond) as (l2 & E2 & Hl2 & Hm2).
  rewrite E2. simpl in Hl2, Hm2.
  pose proof (writerInv_set_rowsBufLen _ l2 Hinv1 Hl2) as Hinv2.
  set (p2 := set_rowsBufLen l2 (set_rowsBufLen l1 p)) in *.
  assert (writerStep p p2) as Hstep2.
  { unfold writerStep, p2; simpl. repeat split; try lia.
    intros _. exists []. rewrite app_nil_r. split; [reflexivity | constructor]. }
  change (rowsBufLen p2) with l2.
  pose proof (ReadRows_contract rows l2 (proj1 Hl2)) as Hn.
  destruct (ReadRows rows l2) as [[got err] rows']. simpl in Hn.
  assert (match (if Z.of_nat (length got) =? 0
                 then IterStop (WrRet written None p2 rows')
                 else if rowsBufCap p2 <? Z.of_nat (length got) then IterStop WrPanic
                 else let '(w1, werr) := pw_WriteRows (w p2) got in
                      match werr with
                      | Some e => IterStop (WrRet 0 (Some e) (set_w w1 p2) rows')
                      | None =>
                          let p3 := addRows (Z.of_nat (length got)) (set_w w1 p2) in
                          if (rowGroupSize p3 >? 0) && (rowGroupRowsWritten p3 >=? rowGroupSize p3)
                          then let '(w2, ferr) := pw_Flush (w p3) in
                               match ferr with
                               | Some e => IterStop (WrRet 0 (Some e) (set_w w2 p3) rows')
                               | None => IterContinue (resetRowGroup (set_w w2 p3)) rows'
                                           (int_add written (Z.of_nat (length got)))
                               end
                          else IterContinue p3 rows' (int_add written (Z.of_nat (length got)))
                      end)
          with
          | IterContinue p' _ _ =>
              writerInv p' /\ writerStep p p' /\
              (maxNumRows p <> 0 -> totalRowsWritten p < totalRowsWritten p') /\
              (0 < rowGroupSize p -> rowGroupRowsWritten p' < rowGroupSize p)
          | IterStop (WrRet _ _ p' _) => writerInv p' /\ writerStep p p'
          | IterStop WrPanic => False
          | IterStop WrOutOfFuel => False
          end) as Hmain.
  2: { destruct err; [exact Hmain | exact Hmain | split; assumption]. }
  destruct (Z.eqb_spec (Z.of_nat (length got)) 0) as [Hz|Hnz]; [split; assumption|].
  set (n := Z.of_nat (length got)) in *.
  assert (0 < n) as Hnpos by (unfold n in *; lia).
  destruct Hinv as (Hlen & Hcap & Hsz & Hmx & Htot & Hgrp).
  destruct (Z.ltb_spec (rowsBufCap p2) n) as [Hbad|_]; [unfold p2 in Hbad; simpl in Hbad; lia|].
  unfold pw_WriteRows. change (w p2) with (w p).
  destruct (pw_fails (w p) (pw_calls (w p))) as [e|].
  { split.
    - unfold writerInv, p2; simpl. repeat split; try lia; try assumption; apply Hgrp; assumption.
    - unfold writerStep, p2; simpl. repeat split; try lia.
      intros _. exists []. rewrite app_nil_r. split; [reflexivity | constructor]. }
  cbn zeta. cbn [addRows set_w w rowGroupSize rowGroupRowsWritten totalRowsWritten maxNumRows
                  rowsBufLen rowsBufCap p2 set_rowsBufLen pw_Flush pw_groups pw_open pw_calls
                  pw_fails].
  assert (maxNumRows p <> 0 -> int_add (totalRowsWritten p) n = totalRowsWritten p + n /\
                               0 <= totalRowsWritten p /\
                               totalRowsWritten p + n <= maxNumRows p) as Htotal.
  { intros Hne. specialize (Htot Hne). specialize (Hm2 Hne).
    unfold int_add. rewrite wrapInt_small by lia. lia. }
  destruct (Z.gtb_spec (rowGroupSize p) 0) as [Hpos|Hle0]; cbn [andb].
  - destruct (Hgrp Hpos) as (Hc & Hopen & Hclosed). specialize (Hg1 Hpos).
    assert (int_add (rowGroupRowsWritten p) n = rowGroupRowsWritten p + n) as Hcn.
    { unfold int_add. rewrite wrapInt_small by lia. reflexivity. }
    rewrite Hcn.
    destruct (Z.geb_spec (rowGroupRowsWritten p + n) (rowGroupSize p)) as [Hfull|Hroom].
    + unfold pw_Flush. cbn [pw_fails pw_calls pw_groups pw_open].
      destruct (pw_fails (w p) (S (pw_calls (w p)))) as [e|].
      * split.
        -- unfold writerInv; simpl.
           split; [lia|]. split; [lia|]. split; [lia|]. split; [lia|]. split.
           ++ intros Hne. destruct (Htotal Hne) as (-> & ? & ?). lia.
           ++ intros _. split; [lia|]. split; [rewrite length_app; lia | assumption].
        -- unfold writerStep; simpl. split; [reflexivity|]. split; [reflexivity|]. split.
           ++ intros Hne. destruct (Htotal Hne) as (-> & ? & ?). lia.
           ++ intros _. exists []. rewrite app_nil_r. split; [reflexivity | constructor].
      * split; [|split; [|split]].
        -- unfold writerInv; simpl.
           split; [lia|]. split; [lia|]. split; [lia|]. split; [lia|]. split.
           ++ intros Hne. destruct (Htotal Hne) as (-> & ? & ?). lia.
           ++ intros _. split; [lia|]. split; [reflexivity|].
              apply Forall_app. split; [assumption|]. repeat constructor.
              rewrite length_app. lia.
        -- unfold writerStep; simpl. split; [reflexivity|]. split; [reflexivity|]. split.
           ++ intros Hne. destruct (Htotal Hne) as (-> & ? & ?). lia.
           ++ intros _. exists [pw_open (w p) ++ got]. split; [reflexivity|].
              repeat constructor. rewrite length_app. lia.
        -- simpl. intros Hne. destruct (Htotal Hne) as (-> & ? & ?). lia.
        -- simpl. lia.
    + split; [|split; [|split]].
      * unfold writerInv; simpl.
        split; [lia|]. split; [lia|]. split; [lia|]. split; [lia|]. split.
        -- intros Hne. destruct (Htotal Hne) as (-> & ? & ?). lia.
        -- intros _. split; [lia|]. split; [rewrite length_app; lia | assumption].
      * unfold writerStep; simpl. split; [reflexivity|]. split; [reflexivity|]. split.
        -- intros Hne. destruct (Htotal Hne) as (-> & ? & ?). lia.
        -- intros _. exists []. rewrite app_nil_r. split; [reflexivity | constructor].
      * simpl. intros Hne. destruct (Htotal Hne) as (-> & ? & ?). lia.
      * simpl. lia.
  - split; [|split; [|split]].
    + unfold writerInv; simpl.
      split; [lia|]. split; [lia|]. split; [lia|]. split; [lia|]. split.
      * intros Hne. destruct (Htotal Hne) as (-> & ? & ?). lia.
      * intros ?. lia.
    + unfold writerStep; simpl. split; [reflexivity|]. split; [reflexivity|]. split.
      * intros Hne. destruct (Htotal Hne) as (-> & ? & ?). lia.
      * intros ?. lia.
    + simpl. intros Hne. destruct (Htotal Hne) as (-> & ? & ?). lia.
    + intros ?. lia.
Qed.



End WriteRowsFacts.

(** The writers [rowWriter] builds are in such a state. *)
Lemma rowWriter_inv pw configRowGroupSize max p :
  pw_groups pw = [] -> pw_open pw = [] ->
  0 <= configRowGroupSize < 2 ^ 62 -> 0 <= max < 2 ^ 62 ->
  rowWriter (inl pw) configRowGroupSize [withMaxRows max] = Some (inl p) ->
  writerInv p /\ rowGroupSize p = configRowGroupSize /\ maxNumRows p = max /\
  totalRowsWritten p = 0.
Proof.
  intros Hg Ho Hcfg Hmax. unfold rowWriter, int_of_uint64.
  destruct (Z.ltb_spec configRowGroupSize (2 ^ 63)) as [_|?]; [|lia].
  destruct (Z.gtb_spec configRowGroupSize 0) as [Hpos|Hz].
  - destruct (Z.ltb_spec configRowGroupSize 0); [lia|]. simpl. intros [= <-]. simpl.
    unfold writerInv; simpl. rewrite Hg, Ho. simpl.
    repeat split; try lia. constructor.
  - simpl. intros [= <-]. simpl. unfold writerInv; simpl.
    repeat split; try lia.
Qed.

Lemma sliceReader_contract : readerContract sliceReader.
Proof.
  intros rs len Hlen. unfold sliceReader; simpl. rewrite length_take. lia.
Qed.

Lemma exampleRowWriter_inv pw :
  pw_groups pw = [] -> pw_open pw = [] -> writerInv (exampleRowWriter pw).
Proof.
  intros Hg Ho. unfold writerInv, exampleRowWriter; simpl. rewrite Hg, Ho. simpl.
  repeat split; try lia. constructor.
Qed.


(** Seven rows offered to a writer for row groups of three rows and five rows
    in all: one full row group, two rows in the open one, two rows unread. *)
Example writeRows_five_of_seven :
  exists p', writeRows sliceReader 10 (exampleRowWriter goodWriter) sevenRows =
               WrRet 5 None p' [[6]; [7]] /\
             pw_groups (w p') = [[[1]; [2]; [3]]] /\ pw_open (w p') = [[4]; [5]] /\
             totalRowsWritten p' = 5 /\ rowGroupRowsWritten p' = 2.
Proof. eexists. vm_compute. repeat split; reflexivity. Qed.

(** ** The Synchronize barrier *)

Lemma sumZ_insert {A : Type} (f : A -> Z) (l : list A) : forall i p x,
  l !! i = Some p -> sumZ f (<[i:=x]> l) = sumZ f l - f p + f x.
Proof.
  induction l as [|y l IH]; intros [|i] p x Hp; simpl in *; try discriminate.
  - inversion Hp; subst. lia.
  - rewrite (IH i p x Hp). lia.
Qed.

Lemma sumZ_nonneg {A : Type} (f : A -> Z) (l : list A) :
  (forall x, 0 <= f x) -> 0 <= sumZ f l.
Proof. intros Hf. induction l as [|y l IH]; simpl; [lia | specialize (Hf y); lia]. Qed.

Lemma sumZ_lookup_le {A : Type} (f : A -> Z) (l : list A) :
  (forall x, 0 <= f x) -> forall i p, l !! i = Some p -> f p <= sumZ f l.
Proof.
  intros Hf. induction l as [|y l IH]; intros [|i] p Hp; simpl in *; try discriminate.
  - inversion Hp; subst. pose proof (sumZ_nonneg f l Hf). lia.
  - specialize (IH i p Hp). specialize (Hf y). lia.
Qed.

Lemma sumZ_zero_lookup {A : Type} (f : A -> Z) (l : list A) :
  (forall x, 0 <= f x) -> sumZ f l = 0 -> forall i p, l !! i = Some p -> f p = 0.
Proof.
  intros Hf Hz i p Hp. pose proof (sumZ_lookup_le f l Hf i p Hp). specialize (Hf p). lia.
Qed.

Lemma callbacksLeft_nonneg p : 0 <= callbacksLeft p.
Proof. destruct p; simpl; lia. Qed.

Lemma notDecremented_nonneg p : 0 <= notDecremented p.
Proof. destruct p; simpl; lia. Qed.

Lemma stepsLeft_nonneg p : 0 <= stepsLeft p.
Proof. destruct p; simpl; lia. Qed.

(** A registered producer takes a step only if it holds the mutex or the mutex
    is free: in both cases no other producer holds it. *)
Lemma sync_step_others i s s' :
  (forall j q, producers s !! j = Some q -> (holdsMutex q = true <-> mtx s = Some j)) ->
  (forall k, producers s !! i <> Some (Unregistered k)) ->
  sync_step i s = Some s' ->
  forall j q, j <> i -> producers s !! j = Some q -> holdsMutex q = false.
Proof.
  intros Hm Hreg Hstep j q Hne Hq. destruct (holdsMutex q) eqn:Hh; [|reflexivity]. exfalso.
  pose proof (proj1 (Hm j q Hq) Hh) as Hj.
  unfold sync_step in Hstep. destruct (producers s !! i) as [p|] eqn:Hp; [|discriminate].
  assert (holdsMutex p = true -> False) as Hnot.
  { intros Hhp. apply (Hm i p Hp) in Hhp. congruence. }
  destruct p as [k|[|k]|k|k|k| | | | |]; try (apply Hnot; reflexivity);
    try discriminate; try (rewrite Hj in Hstep; discriminate).
  exact (Hreg k eq_refl).
Qed.

(** The mutex invariant after producer [i] moved from [p] to [p']. *)
Lemma mutex_update (l : list producer) (m m' : option nat) i p p' :
  (forall j q, l !! j = Some q -> (holdsMutex q = true <-> m = Some j)) ->
  l !! i = Some p ->
  (holdsMutex p' = true <-> m' = Some i) ->
  (forall j, j <> i -> (m = Some j <-> m' = Some j)) ->
  forall j q, <[i:=p']> l !! j = Some q -> (holdsMutex q = true <-> m' = Some j).
Proof.
  intros Hm Hp Hi Hothers j q Hq. destruct (decide (i = j)) as [<-|Hne].
  - rewrite list_lookup_insert_eq in Hq by (eapply lookup_lt_Some; eassumption).
    inversion Hq; subst. assumption.
  - rewrite list_lookup_insert_ne in Hq by assumption.
    rewrite (Hm j q Hq). apply Hothers. congruence.
Qed.

(** After a step of producer [i], a producer that holds the mutex is [i]. *)
Lemma holder_after_step (l : list producer) i p' j q :
  (forall j q, j <> i -> l !! j = Some q -> holdsMutex q = false) ->
  <[i:=p']> l !! j = Some q -> holdsMutex q = true -> j = i /\ q = p'.
Proof.
  intros Hothers Hq Hh. destruct (decide (i = j)) as [<-|Hne].
  - split; [reflexivity|].
    destruct (decide (i < length l)%nat) as [Hlt|Hge].
    + rewrite list_lookup_insert_eq in Hq by assumption. congruence.
    + rewrite list_insert_ge in Hq by lia. apply lookup_lt_Some in Hq. lia.
  - rewrite list_lookup_insert_ne in Hq by assumption.
    rewrite (Hothers j q ltac:(congruence) Hq) in Hh. discriminate.
Qed.

(** The invariant after producer [i] moved from [p] to [p'], from what the
    move changes locally. *)
Lemma syncInv_update ks s i p p' r' m' cb' fin' :
  syncInv ks s ->
  producers s !! i = Some p ->
  (forall j q, j <> i -> producers s !! j = Some q -> holdsMutex q = false) ->
  (forall k, p' <> Unregistered k) ->
  Z.of_nat cb' + callbacksLeft p' = Z.of_nat (sinkCallbacks s) + callbacksLeft p ->
  r' + notDecremented p = running s + notDecremented p' ->
  (holdsMutex p' = true <-> m' = Some i) ->
  (forall j, j <> i -> (mtx s = Some j <-> m' = Some j)) ->
  (p' = FinLast \/ p' = FinRunning -> r' = 0) ->
  ((fin' = 0%nat /\ (0 < r' \/ p' = FinLast)) \/
   (fin' = 1%nat /\ r' = 0 /\ p' <> FinLast)) ->
  syncInv ks (sync_update i p' r' m' cb' fin' s).
Proof.
  intros (H0 & H1 & H2 & H3 & H5 & H4 & H6) Hp Hothers Ha Hb Hc Hd Hd' He Hf.
  pose proof (lookup_lt_Some _ _ _ Hp) as Hlt.
  unfold syncInv, sync_update; simpl.
  split; [apply Forall_insert; assumption|].
  split; [rewrite (sumZ_insert _ _ i p p' Hp); lia|].
  split; [rewrite (sumZ_insert _ _ i p p' Hp); lia|].
  split; [eapply mutex_update; eassumption|].
  split.
  - intros (j & Hj). apply He.
    destruct Hj as [Hj|Hj];
      destruct (holder_after_step _ i p' j _ Hothers Hj eq_refl) as [_ <-]; auto.
  - split.
    + destruct Hf as [(Hfin & Hr)|(Hfin & Hr & Hnl)].
      * left. split; [assumption|]. destruct Hr as [Hr| ->]; [left; assumption|].
        right. exists i. apply list_lookup_insert_eq. assumption.
      * right. split; [assumption|]. split; [assumption|].
        intros j Hj. destruct (holder_after_step _ i p' j _ Hothers Hj eq_refl) as [_ <-].
        contradiction.
    + intros h Hh. rewrite length_insert. destruct (decide (h = i)) as [->|Hne]; [assumption|].
      apply H6. apply (Hd' h Hne). assumption.
Qed.

(** Every step of a producer keeps the invariant. *)
Lemma sync_step_inv ks i s s' :
  syncInv ks s -> sync_step i s = Some s' -> syncInv ks s'.
Proof.
  intros Hinv Hstep. pose proof Hinv as (H0 & H1 & H2 & H3 & H5 & H4 & H6).
  assert (forall k, producers s !! i <> Some (Unregistered k)) as Hreg.
  { intros k Hk. rewrite Forall_forall in H0.
    apply (H0 _ (list_elem_of_lookup_2 _ _ _ Hk) k). reflexivity. }
  pose proof (sync_step_others i s s' H3 Hreg Hstep) as Hothers.
  unfold sync_step in Hstep. destruct (producers s !! i) as [p|] eqn:Hp; [|discriminate].
  assert (notDecremented p <= running s) as Hrun.
  { rewrite H2. apply (sumZ_lookup_le _ _ notDecremented_nonneg i p Hp). }
  pose proof (H3 i p Hp) as Hmine.
  assert (p = FinLast \/ p = FinRunning -> running s = 0) as Hlast.
  { intros [-> | ->]; apply H5; exists i; auto. }
  assert ((sinkFinishes s = 0%nat /\ (0 < running s \/ p = FinLast)) \/
          (sinkFinishes s = 1%nat /\ running s = 0 /\ p <> FinLast)) as Hfin.
  { destruct H4 as [(Hz & [Hr|(j & Hj)])|(Ho & Hr & Hnl)].
    - left. auto.
    - left. split; [assumption|]. right.
      destruct (decide (j = i)) as [->|Hne]; [congruence|].
      pose proof (Hothers j _ Hne Hj). discriminate.
    - right. split; [assumption|]. split; [assumption|]. intros ->. exact (Hnl i Hp). }
  assert (forall j, j <> i -> mtx s = Some j -> False) as Hfree.
  { intros j Hne Hm. destruct (producers s !! j) as [q|] eqn:Hq.
    - pose proof (Hothers j q Hne Hq) as Hh. apply (H3 j q Hq) in Hm. congruence.
    - unfold sync_step in *. destruct p as [k|[|k]|k|k|k| | | | |];
        try (rewrite Hm in Hstep; discriminate); try (exact (Hreg k eq_refl));
        try discriminate;
        (assert (mtx s = Some i) as Hi by (apply Hmine; reflexivity); congruence). }
  assert (forall m' : option nat, (m' = mtx s \/ (mtx s = None /\ m' = Some i) \/ m' = None) ->
            forall j, j <> i -> (mtx s = Some j <-> m' = Some j)) as Hmutex.
  { intros m' Hcase j Hne. split; intros Hx.
    - exfalso. exact (Hfree j Hne Hx).
    - destruct Hcase as [->|[[_ ->]| ->]]; [assumption | congruence | discriminate]. }
  destruct p as [k|[|k]|k|k|k| | | | |]; try discriminate; try (exfalso; exact (Hreg k eq_refl));
    simpl in Hrun, Hmine.
  - (* Idle 0: enters Finish *)
    destruct (mtx s) as [h|] eqn:Hm; [discriminate|]. inversion Hstep; subst s'.
    apply (syncInv_update ks s i (Idle 0) FinLocked); try assumption.
    + discriminate.
    + simpl; lia.
    + simpl; lia.
    + simpl. split; reflexivity.
    + rewrite Hm. apply Hmutex. right. left. auto.
    + intros [?|?]; discriminate.
    + destruct Hfin as [(? & [?|?])|(? & ? & ?)]; try discriminate; [left; auto | lia].
  - (* Idle (S k): enters Callback *)
    destruct (mtx s) as [h|] eqn:Hm; [discriminate|]. inversion Hstep; subst s'.
    apply (syncInv_update ks s i (Idle (S k)) (CbLocked k)); try assumption.
    + discriminate.
    + simpl; lia.
    + simpl; lia.
    + simpl. split; reflexivity.
    + rewrite Hm. apply Hmutex. right. left. auto.
    + intros [?|?]; discriminate.
    + destruct Hfin as [(? & [?|?])|(? & ? & ?)]; try discriminate; [left; auto | lia].
  - (* CbLocked: the sink's Callback is entered *)
    inversion Hstep; subst s'.
    apply (syncInv_update ks s i (CbLocked k) (CbRunning k)); try assumption.
    + discriminate.
    + simpl; lia.
    + simpl; lia.
    + apply Hmutex. left. reflexivity.
    + intros [?|?]; discriminate.
    + destruct Hfin as [(? & [?|?])|(? & ? & ?)]; try discriminate; [left; auto | lia].
  - (* CbRunning: the sink's Callback returns *)
    inversion Hstep; subst s'.
    apply (syncInv_update ks s i (CbRunning k) (CbReturned k)); try assumption.
    + discriminate.
    + simpl; lia.
    + simpl; lia.
    + apply Hmutex. left. reflexivity.
    + intros [?|?]; discriminate.
    + destruct Hfin as [(? & [?|?])|(? & ? & ?)]; try discriminate; [left; auto | lia].
  - (* CbReturned: unlock *)
    inversion Hstep; subst s'.
    apply (syncInv_update ks s i (CbReturned k) (Idle k)); try assumption.
    + discriminate.
    + simpl; lia.
    + simpl; lia.
    + simpl. split; discriminate.
    + apply Hmutex. right. right. reflexivity.
    + intros [?|?]; discriminate.
    + destruct Hfin as [(? & [?|?])|(? & ? & ?)]; try discriminate; [left; auto | lia].
  - (* FinLocked: decrement *)
    inversion Hstep; subst s'.
    destruct (Z.eqb_spec (running s - 1) 0) as [Hz|Hnz].
    + apply (syncInv_update ks s i FinLocked FinLast); try assumption.
      * discriminate.
      * simpl; lia.
      * simpl; lia.
      * apply Hmutex. left. reflexivity.
      * intros _. assumption.
      * destruct Hfin as [(? & _)|(? & ? & _)]; [left; auto | lia].
    + apply (syncInv_update ks s i FinLocked FinReturned); try assumption.
      * discriminate.
      * simpl; lia.
      * simpl; lia.
      * apply Hmutex. left. reflexivity.
      * intros [?|?]; discriminate.
      * destruct Hfin as [(? & _)|(? & ? & _)]; [left; split; [assumption | left; lia] | lia].
  - (* FinLast: the sink's Finish is entered *)
    inversion Hstep; subst s'. specialize (Hlast (or_introl eq_refl)).
    apply (syncInv_update ks s i FinLast FinRunning); try assumption.
    + discriminate.
    + simpl; lia.
    + simpl; lia.
    + apply Hmutex. left. reflexivity.
    + intros _. assumption.
    + destruct Hfin as [(Hz & _)|(_ & _ & Hc)]; [|contradiction].
      right. rewrite Hz. split; [reflexivity|]. split; [assumption | discriminate].
  - (* FinRunning: the sink's Finish returns *)
    inversion Hstep; subst s'. specialize (Hlast (or_intror eq_refl)).
    apply (syncInv_update ks s i FinRunning FinReturned); try assumption.
    + discriminate.
    + simpl; lia.
    + simpl; lia.
    + apply Hmutex. left. reflexivity.
    + intros [?|?]; discriminate.
    + destruct Hfin as [(? & [?|?])|(? & ? & ?)]; try discriminate; try lia.
      right. split; [assumption|]. split; [assumption | discriminate].
  - (* FinReturned: unlock *)
    inversion Hstep; subst s'.
    apply (syncInv_update ks s i FinReturned Finished); try assumption.
    + discriminate.
    + simpl; lia.
    + simpl; lia.
    + simpl. split; discriminate.
    + apply Hmutex. right. right. reflexivity.
    + intros [?|?]; discriminate.
    + destruct Hfin as [(? & [?|?])|(? & ? & ?)]; try discriminate; [left; auto | right; auto].
Qed.

Lemma sync_run_inv ks sched : forall s s',
  syncInv ks s -> sync_run sched s = Some s' -> syncInv ks s'.
Proof.
  induction sched as [|i sched IH]; intros s s' Hinv Hrun; simpl in Hrun.
  - inversion Hrun; subst. assumption.
  - destruct (sync_step i s) as [s1|] eqn:Hstep; [|discriminate].
    eapply IH; [eapply sync_step_inv; eassumption | eassumption].
Qed.

Lemma lookup_map_Idle ks i p : map Idle ks !! i = Some p -> exists k, p = Idle k.
Proof.
  revert i. induction ks as [|k ks IH]; intros [|i] Hp; simpl in *; try discriminate.
  - inversion Hp. eauto.
  - eauto.
Qed.

Lemma syncInv_registered ks : ks <> [] -> syncInv ks (sync_registered ks).
Proof.
  intros Hne. unfold syncInv, sync_registered; simpl.
  split; [apply Forall_forall; intros p Hp k; apply list_elem_of_lookup in Hp as [i Hi];
          apply lookup_map_Idle in Hi as [k' ->]; discriminate|].
  split; [induction ks as [|k ks IH]; simpl; [reflexivity|];
          destruct ks; [simpl; lia | specialize (IH ltac:(discriminate)); simpl in *; lia]|].
  split; [clear Hne; induction ks as [|k ks IH]; simpl length; simpl sumZ; [reflexivity|];
          rewrite <- IH; lia|].
  split; [intros i p Hp; apply lookup_map_Idle in Hp as [k ->]; simpl; split; discriminate|].
  split.
  { intros (i & [Hi|Hi]); apply lookup_map_Idle in Hi as [k Hk]; discriminate. }
  split; [|intros h Hh; discriminate].
  left. split; [reflexivity|]. left. destruct ks; [contradiction | simpl; lia].
Qed.

(** Every step uses up at least one of the steps the producers have left. *)
Lemma sync_step_measure i s s' :
  sync_step i s = Some s' ->
  sumZ stepsLeft (producers s') < sumZ stepsLeft (producers s).
Proof.
  unfold sync_step. destruct (producers s !! i) as [p|] eqn:Hp; [|discriminate].
  destruct p as [k|[|k]|k|k|k| | | | |]; try discriminate;
    try (destruct (mtx s); [discriminate|]);
    intros [= <-]; simpl; rewrite (sumZ_insert _ _ i _ _ Hp); simpl; try lia.
  destruct (running s - 1 =? 0); simpl; lia.
Qed.

Lemma sync_run_measure sched : forall s s',
  sync_run sched s = Some s' ->
  Z.of_nat (length sched) + sumZ stepsLeft (producers s') <= sumZ stepsLeft (producers s).
Proof.
  induction sched as [|i sched IH]; intros s s' Hrun; simpl in Hrun.
  - inversion Hrun; subst. simpl. lia.
  - destruct (sync_step i s) as [s1|] eqn:Hstep; [|discriminate].
    specialize (IH s1 s' Hrun). apply sync_step_measure in Hstep. simpl length. lia.
Qed.

(** A producer that is not finished can move, or the holder of the mutex
    can. *)
Lemma sync_progress ks s :
  syncInv ks s -> ~ sync_done s -> exists i s', sync_step i s = Some s'.
Proof.
  intros (H0 & _ & _ & H3 & _ & _ & H6) Hnd.
  destruct (mtx s) as [h|] eqn:Hm.
  - destruct (lookup_lt_is_Some_2 _ _ (H6 h eq_refl)) as [p Hp].
    pose proof (proj2 (H3 h p Hp) eq_refl) as Hh. exists h. unfold sync_step. rewrite Hp.
    destruct p as [k|[|k]|k|k|k| | | | |]; try discriminate; eauto.
  - apply not_Forall_Exists in Hnd; [|intros p; apply _].
    apply Exists_exists in Hnd as (p & Hp & Hnf). apply list_elem_of_lookup in Hp as [i Hi].
    assert (holdsMutex p = false) as Hh.
    { destruct (holdsMutex p) eqn:E; [|reflexivity]. apply (H3 i p Hi) in E. discriminate. }
    rewrite Forall_forall in H0. pose proof (H0 p (list_elem_of_lookup_2 _ _ _ Hi)) as Hr.
    exists i. unfold sync_step. rewrite Hi, Hm.
    destruct p as [k|[|k]|k|k|k| | | | |]; try discriminate; eauto.
    exfalso. apply Hnf. reflexivity.
Qed.

(** From every state of such a run the producers can all reach the end of
    [Finish]. *)
Lemma sync_completes ks n : forall s,
  syncInv ks s -> sumZ stepsLeft (producers s) <= Z.of_nat n ->
  exists sched s', sync_run sched s = Some s' /\ sync_done s'.
Proof.
  induction n as [|n IH]; intros s Hinv Hn.
  - destruct (decide (Forall (fun p => p = Finished) (producers s))) as [Hd|Hnd].
    + exists [], s. split; [reflexivity | assumption].
    + destruct (sync_progress ks s Hinv Hnd) as (i & s1 & Hstep).
      pose proof (sync_step_measure i s s1 Hstep).
      pose proof (sumZ_nonneg stepsLeft (producers s1) stepsLeft_nonneg). lia.
  - destruct (decide (Forall (fun p => p = Finished) (producers s))) as [Hd|Hnd].
    + exists [], s. split; [reflexivity | assumption].
    + destruct (sync_progress ks s Hinv Hnd) as (i & s1 & Hstep).
      pose proof (sync_step_measure i s s1 Hstep).
      destruct (IH s1 (sync_step_inv ks i s s1 Hinv Hstep) ltac:(lia)) as (sched & s' & Hrun & Hd).
      exists (i :: sched), s'. split; [simpl; rewrite Hstep; assumption | assumption].
Qed.

Lemma sumZ_done (f : producer -> Z) l :
  f Finished = 0 -> Forall (fun p => p = Finished) l -> sumZ f l = 0.
Proof.
  intros Hf. induction 1 as [|p l -> _ IH]; simpl; [reflexivity | lia].
Qed.

(** What the invariant of the registered producers says about a state. *)
Lemma syncInv_safe ks s :
  syncInv ks s ->
  (forall i j pi pj, producers s !! i = Some pi -> producers s !! j = Some pj ->
                     inSink pi = true -> inSink pj = true -> i = j) /\
  (forall i, producers s !! i = Some FinRunning ->
             forall j pj, j <> i -> producers s !! j = Some pj -> pj = Finished) /\
  (sinkFinishes s <= 1)%nat /\
  Z.of_nat (sinkCallbacks s) <= sumZ Z.of_nat ks /\
  (sync_done s ->
   Z.of_nat (sinkCallbacks s) = sumZ Z.of_nat ks /\ sinkFinishes s = 1%nat).
Proof.
  intros Hinv. pose proof Hinv as (H0 & H1 & H2 & H3 & H5 & H4 & H6).
  split; [|split; [|split; [|split]]].
  - intros i j pi pj Hi Hj Hsi Hsj.
    assert (holdsMutex pi = true) as Hhi by (destruct pi; try discriminate; reflexivity).
    assert (holdsMutex pj = true) as Hhj by (destruct pj; try discriminate; reflexivity).
    apply (H3 i pi Hi) in Hhi. apply (H3 j pj Hj) in Hhj. congruence.
  - intros i Hi j pj Hnej Hj.
    assert (running s = 0) as Hz by (apply H5; exists i; auto).
    rewrite H2 in Hz.
    pose proof (sumZ_zero_lookup _ _ notDecremented_nonneg Hz j pj Hj) as Hnd.
    assert (mtx s = Some i) as Hm by (apply (H3 i FinRunning Hi); reflexivity).
    assert (holdsMutex pj = false) as Hh.
    { destruct (holdsMutex pj) eqn:E; [|reflexivity]. apply (H3 j pj Hj) in E. congruence. }
    rewrite Forall_forall in H0. pose proof (H0 pj (list_elem_of_lookup_2 _ _ _ Hj)) as Hr.
    destruct pj as [k|k|k|k|k| | | | |]; simpl in Hnd, Hh; try discriminate; try lia;
      [exfalso; exact (Hr k eq_refl) | reflexivity].
  - destruct H4 as [(-> & _)|(-> & _)]; lia.
  - pose proof (sumZ_nonneg callbacksLeft (producers s) callbacksLeft_nonneg). lia.
  - intros Hd. split.
    + rewrite (sumZ_done callbacksLeft _ eq_refl Hd) in H1. lia.
    + destruct H4 as [(_ & [Hr|(i & Hi)])|(Hf & _)]; [| |assumption].
      * rewrite H2, (sumZ_done notDecremented _ eq_refl Hd) in Hr. lia.
      * unfold sync_done in Hd. rewrite Forall_forall in Hd.
        specialize (Hd _ (list_elem_of_lookup_2 _ _ _ Hi)). discriminate.
Qed.

(** The runs in which every producer has registered before the first step:
    the schedules of S4 whose registrations all come first. *)
Lemma synchronize_registered ks sched s :
  ks <> [] ->
  sync_run sched (sync_registered ks) = Some s ->
  (forall i j pi pj, producers s !! i = Some pi -> producers s !! j = Some pj ->
                     inSink pi = true -> inSink pj = true -> i = j) /\
  (forall i, producers s !! i = Some FinRunning ->
             forall j pj, j <> i -> producers s !! j = Some pj -> pj = Finished) /\
  (sinkFinishes s <= 1)%nat /\
  Z.of_nat (sinkCallbacks s) <= sumZ Z.of_nat ks /\
  (sync_done s ->
   Z.of_nat (sinkCallbacks s) = sumZ Z.of_nat ks /\ sinkFinishes s = 1%nat) /\
  (exists sched' s', sync_run sched' s = Some s' /\ sync_done s') /\
  Z.of_nat (length sched) <= sumZ stepsLeft (map Idle ks).
Proof.
  intros Hne Hrun.
  pose proof (sync_run_inv ks sched _ s (syncInv_registered ks Hne) Hrun) as Hinv.
  destruct (syncInv_safe ks s Hinv) as (S1 & S2 & S3 & S4 & S5).
  split; [exact S1|]. split; [exact S2|]. split; [exact S3|]. split; [exact S4|].
  split; [exact S5|]. split.
  - apply (sync_completes ks (Z.to_nat (sumZ stepsLeft (producers s))) s Hinv).
    pose proof (sumZ_nonneg stepsLeft (producers s) stepsLeft_nonneg). lia.
  - pose proof (sync_run_measure sched _ s Hrun) as Hm. simpl in Hm.
    pose proof (sumZ_nonneg stepsLeft (producers s) stepsLeft_nonneg). lia.
Qed.

(** *** Producers that register during the run *)

Lemma allRegistered_Forall s :
  allRegistered s = true <-> Forall (fun p => forall k, p <> Unregistered k) (producers s).
Proof.
  unfold allRegistered. induction (producers s) as [|p l IH]; simpl.
  - split; [constructor | reflexivity].
  - rewrite andb_true_iff, IH. split.
    + intros [Hp Hl]. constructor; [|assumption].
      intros k ->. discriminate.
    + intros Hf. inversion Hf as [|? ? Hp Hl]; subst. split; [|assumption].
      destruct p; try reflexivity. exfalso. exact (Hp k eq_refl).
Qed.

Lemma not_allRegistered_lookup (l : list producer) :
  forallb (fun p => negb (isUnregistered p)) l = false ->
  exists i k, l !! i = Some (Unregistered k).
Proof.
  induction l as [|p l IH]; simpl; [discriminate|].
  destruct p as [k| | | | | | | | |]; simpl;
    try (intros H; destruct (IH H) as (i & k' & Hi); exists (S i), k'; exact Hi).
  intros _. exists 0%nat, k. reflexivity.
Qed.

Lemma toRegister_nonneg p : 0 <= toRegister p.
Proof. unfold toRegister. destruct (isUnregistered p); lia. Qed.

Lemma insert_nonempty {A : Type} (l : list A) i x : l <> [] -> <[i:=x]> l <> [].
Proof. destruct l; [contradiction|]. destruct i; discriminate. Qed.

(** A producer that has registered moves only if no other producer holds the
    mutex. *)
Lemma sync_step_mutex i s s' :
  (forall j q, producers s !! j = Some q -> (holdsMutex q = true <-> mtx s = Some j)) ->
  (forall k, producers s !! i <> Some (Unregistered k)) ->
  sync_step i s = Some s' ->
  forall j, j <> i -> mtx s = Some j -> False.
Proof.
  intros Hm Hreg Hstep j Hne Hj.
  unfold sync_step in Hstep. destruct (producers s !! i) as [p|] eqn:Hp; [|discriminate].
  assert (holdsMutex p = true -> False) as Hnot.
  { intros Hhp. apply (Hm i p Hp) in Hhp. congruence. }
  destruct p as [k|[|k]|k|k|k| | | | |]; try (apply Hnot; reflexivity);
    try discriminate; try (rewrite Hj in Hstep; discriminate).
  exact (Hreg k eq_refl).
Qed.

(** The invariant of the first phase after producer [i] moved from [p] to
    [p']. *)
Lemma syncPre_update ks s i p p' r' m' cb' :
  syncPre ks s ->
  producers s !! i = Some p ->
  beforeObservation p' = true ->
  Z.of_nat cb' + callbacksLeft p' = Z.of_nat (sinkCallbacks s) + callbacksLeft p ->
  r' + notDecremented p = running s + notDecremented p' ->
  (holdsMutex p' = true <-> m' = Some i) ->
  (forall j, j <> i -> (mtx s = Some j <-> m' = Some j)) ->
  syncPre ks (sync_update i p' r' m' cb' (sinkFinishes s) s).
Proof.
  intros (P0 & P1 & P2 & P3 & P4 & P5 & P6) Hp Ha Hb Hc Hd Hd'.
  pose proof (lookup_lt_Some _ _ _ Hp) as Hlt.
  unfold syncPre, sync_update; simpl.
  split; [apply Forall_insert; assumption|].
  split; [rewrite (sumZ_insert _ _ i p p' Hp); lia|].
  split; [rewrite (sumZ_insert _ _ i p p' Hp); lia|].
  split; [eapply mutex_update; eassumption|].
  split; [assumption|].
  split; [|apply insert_nonempty; assumption].
  intros h Hh. rewrite length_insert. destruct (decide (h = i)) as [->|Hne]; [assumption|].
  apply P5. apply (Hd' h Hne). assumption.
Qed.

(** A step that is not an observation of the counter keeps the invariant of
    the first phase: a registration, or a step of a callback, or the entry
    into [Finish]. *)
Lemma sync_step_pre ks i s s' :
  syncPre ks s -> sync_step i s = Some s' -> observes i s = false -> syncPre ks s'.
Proof.
  intros Hpre Hstep Hobs. pose proof Hpre as (P0 & P1 & P2 & P3 & P4 & P5 & P6).
  pose proof (sync_step_mutex i s s' P3) as Hfree0.
  unfold sync_step in Hstep. unfold observes in Hobs.
  destruct (producers s !! i) as [p|] eqn:Hp; [|discriminate].
  pose proof (H3 := P3 i p Hp).
  assert (beforeObservation p = true) as Hbefore.
  { rewrite Forall_forall in P0. apply P0. apply (list_elem_of_lookup_2 _ _ _ Hp). }
  assert ((forall k, p <> Unregistered k) ->
          forall m' : option nat, (m' = mtx s \/ (mtx s = None /\ m' = Some i) \/ m' = None) ->
            forall j, j <> i -> (mtx s = Some j <-> m' = Some j)) as Hmutex.
  { intros Hreg m' Hcase j Hne. split; intros Hx.
    - exfalso. apply (Hfree0 ltac:(intros k [= E]; exact (Hreg k E))
                        ltac:(unfold sync_step; rewrite Hp; exact Hstep) j Hne Hx).
    - destruct Hcase as [->|[[_ ->]| ->]]; [assumption | congruence | discriminate]. }
  destruct p as [k|[|k]|k|k|k| | | | |]; try discriminate; clear Hbefore; simpl in H3.
  - (* Unregistered: registration *)
    inversion Hstep; subst s'.
    apply (syncPre_update ks s i (Unregistered k) (Idle k)); try assumption.
    + reflexivity.
    + simpl; lia.
    + simpl; lia.
    + intros j _. reflexivity.
  - (* Idle 0: enters Finish *)
    destruct (mtx s) as [h|] eqn:Hm; [discriminate|]. inversion Hstep; subst s'.
    apply (syncPre_update ks s i (Idle 0) FinLocked); try assumption.
    + reflexivity.
    + simpl; lia.
    + simpl; lia.
    + simpl. split; reflexivity.
    + rewrite Hm. apply Hmutex; [discriminate|]. right. left. auto.
  - (* Idle (S k): enters Callback *)
    destruct (mtx s) as [h|] eqn:Hm; [discriminate|]. inversion Hstep; subst s'.
    apply (syncPre_update ks s i (Idle (S k)) (CbLocked k)); try assumption.
    + reflexivity.
    + simpl; lia.
    + simpl; lia.
    + simpl. split; reflexivity.
    + rewrite Hm. apply Hmutex; [discriminate|]. right. left. auto.
  - (* CbLocked: the sink's Callback is entered *)
    inversion Hstep; subst s'.
    apply (syncPre_update ks s i (CbLocked k) (CbRunning k)); try assumption.
    + reflexivity.
    + simpl; lia.
    + simpl; lia.
    + apply Hmutex; [discriminate|]. left. reflexivity.
  - (* CbRunning: the sink's Callback returns *)
    inversion Hstep; subst s'.
    apply (syncPre_update ks s i (CbRunning k) (CbReturned k)); try assumption.
    + reflexivity.
    + simpl; lia.
    + simpl; lia.
    + apply Hmutex; [discriminate|]. left. reflexivity.
  - (* CbReturned: unlock *)
    inversion Hstep; subst s'.
    apply (syncPre_update ks s i (CbReturned k) (Idle k)); try assumption.
    + reflexivity.
    + simpl; lia.
    + simpl; lia.
    + simpl. split; discriminate.
    + apply Hmutex; [discriminate|]. right. right. reflexivity.
Qed.

(** Once the last producer has registered the first invariant gives the
    second. *)
Lemma syncPre_registered ks s :
  syncPre ks s -> allRegistered s = true -> syncInv ks s.
Proof.
  intros (P0 & P1 & P2 & P3 & P4 & P5 & P6) Hall.
  apply allRegistered_Forall in Hall.
  assert (forall i p, producers s !! i = Some p -> notDecremented p = 1) as Hone.
  { intros i p Hp. rewrite Forall_forall in P0, Hall.
    pose proof (P0 p (list_elem_of_lookup_2 _ _ _ Hp)) as Hb.
    pose proof (Hall p (list_elem_of_lookup_2 _ _ _ Hp)) as Hr.
    destruct p; try discriminate; try reflexivity. exfalso. exact (Hr k eq_refl). }
  unfold syncInv.
  split; [assumption|]. split; [assumption|]. split; [assumption|]. split; [assumption|].
  split.
  { intros (i & [Hi|Hi]); apply Hone in Hi; discriminate. }
  split; [|assumption].
  left. split; [assumption|]. left.
  destruct (producers s) as [|p l] eqn:Hl; [contradiction|].
  pose proof (Hone 0%nat p eq_refl) as Hp.
  pose proof (sumZ_lookup_le notDecremented (p :: l) notDecremented_nonneg 0%nat p eq_refl).
  lia.
Qed.

(** A step of a schedule that respects S4 keeps one of the two invariants. *)
Lemma sync_step_S4_inv ks i s s' :
  syncPre ks s \/ syncInv ks s ->
  sync_step i s = Some s' ->
  negb (observes i s) || allRegistered s = true ->
  syncPre ks s' \/ syncInv ks s'.
Proof.
  intros [Hpre|Hinv] Hstep HS4.
  - destruct (observes i s) eqn:Hobs; simpl in HS4.
    + right. eapply sync_step_inv; [apply syncPre_registered; eassumption | eassumption].
    + left. eapply sync_step_pre; eassumption.
  - right. eapply sync_step_inv; eassumption.
Qed.

Lemma sync_run_S4_inv ks sched : forall s s',
  syncPre ks s \/ syncInv ks s ->
  sync_run sched s = Some s' -> sync_S4 sched s = true ->
  syncPre ks s' \/ syncInv ks s'.
Proof.
  induction sched as [|i sched IH]; intros s s' Hinv Hrun HS4; simpl in Hrun, HS4.
  - inversion Hrun; subst. assumption.
  - destruct (sync_step i s) as [s1|] eqn:Hstep; [|discriminate].
    apply andb_true_iff in HS4 as [Hi HS4].
    eapply IH; [eapply sync_step_S4_inv; eassumption | eassumption | eassumption].
Qed.

Lemma lookup_map_Unregistered ks i p :
  map Unregistered ks !! i = Some p -> exists k, p = Unregistered k.
Proof.
  revert i. induction ks as [|k ks IH]; intros [|i] Hp; simpl in *; try discriminate.
  - inversion Hp. eauto.
  - eauto.
Qed.

Lemma syncPre_unregistered ks : ks <> [] -> syncPre ks (sync_unregistered ks).
Proof.
  intros Hne. unfold syncPre, sync_unregistered; simpl.
  split; [apply Forall_forall; intros p Hp; apply list_elem_of_lookup in Hp as [i Hi];
          apply lookup_map_Unregistered in Hi as [k' ->]; reflexivity|].
  split; [clear Hne; induction ks as [|k ks IH]; simpl in *; lia|].
  split; [clear Hne; induction ks as [|k ks IH]; simpl in *; lia|].
  split; [intros i p Hp; apply lookup_map_Unregistered in Hp as [k ->]; simpl;
          split; discriminate|].
  split; [reflexivity|].
  split; [intros h Hh; discriminate|].
  destruct ks; [contradiction | discriminate].
Qed.

(** Once all producers have registered, every schedule respects S4. *)
Lemma sync_S4_registered ks sched : forall s, syncInv ks s -> sync_S4 sched s = true.
Proof.
  induction sched as [|i sched IH]; intros s Hinv; simpl; [reflexivity|].
  apply andb_true_iff. split.
  - apply orb_true_iff. right. apply allRegistered_Forall. apply Hinv.
  - destruct (sync_step i s) as [s1|] eqn:Hstep; [|reflexivity].
    apply IH. eapply sync_step_inv; eassumption.
Qed.

Lemma sync_run_app sched1 : forall sched2 s s1,
  sync_run sched1 s = Some s1 -> sync_run (sched1 ++ sched2) s = sync_run sched2 s1.
Proof.
  induction sched1 as [|i sched1 IH]; intros sched2 s s1 Hrun; simpl in *.
  - inversion Hrun; subst. reflexivity.
  - destruct (sync_step i s) as [s'|]; [|discriminate]. apply IH. assumption.
Qed.

Lemma sync_S4_app sched1 : forall sched2 s s1,
  sync_run sched1 s = Some s1 ->
  sync_S4 (sched1 ++ sched2) s = sync_S4 sched1 s && sync_S4 sched2 s1.
Proof.
  induction sched1 as [|i sched1 IH]; intros sched2 s s1 Hrun; simpl in *.
  - inversion Hrun; subst. reflexivity.
  - destruct (sync_step i s) as [s'|]; [|discriminate].
    rewrite (IH sched2 s' s1 Hrun). rewrite andb_assoc. reflexivity.
Qed.

(** The producers that have still to register can do so at once, whatever
    the others are doing; no step of these is an observation. *)
Lemma sync_register_all ks n : forall s,
  syncPre ks s -> sumZ toRegister (producers s) <= Z.of_nat n ->
  exists sched s', sync_run sched s = Some s' /\ sync_S4 sched s = true /\ syncInv ks s'.
Proof.
  induction n as [|n IH]; intros s Hpre Hn;
    (destruct (allRegistered s) eqn:Hall;
     [exists [], s; split; [reflexivity|]; split; [reflexivity|];
      apply syncPre_registered; assumption|]);
    destruct (not_allRegistered_lookup _ Hall) as (i & k & Hi);
    pose proof (sumZ_lookup_le toRegister _ toRegister_nonneg i _ Hi) as Hle;
    change (toRegister (Unregistered k)) with 1 in Hle; [lia|].
  assert (observes i s = false) as Hobs by (unfold observes; rewrite Hi; reflexivity).
  assert (sync_step i s = Some (sync_update i (Idle k) (running s + 1) (mtx s)
                                  (sinkCallbacks s) (sinkFinishes s) s)) as Hstep.
  { unfold sync_step. rewrite Hi. reflexivity. }
  pose proof (sync_step_pre ks i s _ Hpre Hstep Hobs) as Hpre1.
  destruct (IH _ Hpre1) as (sched & s' & Hrun & HS4 & Hinv).
  { simpl. rewrite (sumZ_insert _ _ i _ _ Hi).
    change (toRegister (Unregistered k)) with 1. change (toRegister (Idle k)) with 0. lia. }
  exists (i :: sched), s'. split; [simpl; rewrite Hstep; assumption|].
  split; [|assumption].
  simpl. rewrite Hobs, Hstep. simpl. assumption.
Qed.

(** From every state of a run that respects S4 the producers can all reach
    the end of [Finish], by steps that respect S4. *)
Lemma sync_S4_completes ks s :
  syncPre ks s \/ syncInv ks s ->
  exists sched s', sync_run sched s = Some s' /\ sync_S4 sched s = true /\ sync_done s'.
Proof.
  intros [Hpre|Hinv].
  - destruct (sync_register_all ks (Z.to_nat (sumZ toRegister (producers s))) s Hpre)
      as (sched1 & s1 & Hrun1 & HS1 & Hinv1).
    { pose proof (sumZ_nonneg toRegister (producers s) toRegister_nonneg). lia. }
    destruct (sync_completes ks (Z.to_nat (sumZ stepsLeft (producers s1))) s1 Hinv1)
      as (sched2 & s2 & Hrun2 & Hd).
    { pose proof (sumZ_nonneg stepsLeft (producers s1) stepsLeft_nonneg). lia. }
    exists (sched1 ++ sched2), s2.
    split; [rewrite (sync_run_app _ _ _ _ Hrun1); assumption|].
    split; [|assumption].
    rewrite (sync_S4_app _ _ _ _ Hrun1), HS1. apply (sync_S4_registered ks). assumption.
  - destruct (sync_completes ks (Z.to_nat (sumZ stepsLeft (producers s))) s Hinv)
      as (sched2 & s2 & Hrun2 & Hd).
    { pose proof (sumZ_nonneg stepsLeft (producers s) stepsLeft_nonneg). lia. }
    exists sched2, s2. split; [assumption|]. split; [|assumption].
    apply (sync_S4_registered ks). assumption.
Qed.

(** What the invariant of the first phase says about a state. *)
Lemma syncPre_safe ks s :
  syncPre ks s ->
  (forall i j pi pj, producers s !! i = Some pi -> producers s !! j = Some pj ->
                     inSink pi = true -> inSink pj = true -> i = j) /\
  (forall i, producers s !! i = Some FinRunning ->
             forall j pj, j <> i -> producers s !! j = Some pj -> pj = Finished) /\
  (sinkFinishes s <= 1)%nat /\
  Z.of_nat (sinkCallbacks s) <= sumZ Z.of_nat ks /\
  (sync_done s ->
   Z.of_nat (sinkCallbacks s) = sumZ Z.of_nat ks /\ sinkFinishes s = 1%nat).
Proof.
  intros (P0 & P1 & P2 & P3 & P4 & P5 & P6).
  split; [|split; [|split; [|split]]].
  - intros i j pi pj Hi Hj Hsi Hsj.
    assert (holdsMutex pi = true) as Hhi by (destruct pi; try discriminate; reflexivity).
    assert (holdsMutex pj = true) as Hhj by (destruct pj; try discriminate; reflexivity).
    apply (P3 i pi Hi) in Hhi. apply (P3 j pj Hj) in Hhj. congruence.
  - intros i Hi. rewrite Forall_forall in P0.
    pose proof (P0 _ (list_elem_of_lookup_2 _ _ _ Hi)). discriminate.
  - lia.
  - pose proof (sumZ_nonneg callbacksLeft (producers s) callbacksLeft_nonneg). lia.
  - intros Hd. exfalso. unfold sync_done in Hd.
    destruct (producers s) as [|p l]; [contradiction|].
    inversion Hd; subst. inversion P0; subst. discriminate.
Qed.

(** C6.  The producers of the test ([ks] non-empty, producer [i] registering,
    issuing [ks !! i] callbacks and then one [Finish]) start unregistered and
    run against the barrier under any schedule that respects invariant S4:
    each producer registers as its own first step, and none is still
    unregistered when a producer observes the counter in [Finish].  In every
    state reached: no two producers are inside a call of the sink; while a
    producer is inside the sink's [Finish] every other producer has returned
    from its own [Finish]; the sink's [Finish] has been invoked at most once
    and the sink's [Callback] at most the sum of the [ks] times.  When all
    producers have returned from [Finish] the sink's [Callback] has been
    invoked exactly the sum of the [ks] times and its [Finish] exactly once.
    Every such run can be continued to that end by a schedule that still
    respects S4, and no run is longer than the number of steps the producers
    have to take. *)
Theorem synchronize_exactly_once ks sched s :
  ks <> [] ->
  sync_run sched (sync_unregistered ks) = Some s ->
  sync_S4 sched (sync_unregistered ks) = true ->
  (forall i j pi pj, producers s !! i = Some pi -> producers s !! j = Some pj ->
                     inSink pi = true -> inSink pj = true -> i = j) /\
  (forall i, producers s !! i = Some FinRunning ->
             forall j pj, j <> i -> producers s !! j = Some pj -> pj = Finished) /\
  (sinkFinishes s <= 1)%nat /\
  Z.of_nat (sinkCallbacks s) <= sumZ Z.of_nat ks /\
  (sync_done s ->
   Z.of_nat (sinkCallbacks s) = sumZ Z.of_nat ks /\ sinkFinishes s = 1%nat) /\
  (exists sched' s',
     sync_run (sched ++ sched') (sync_unregistered ks) = Some s' /\
     sync_S4 (sched ++ sched') (sync_unregistered ks) = true /\
     sync_done s') /\
  Z.of_nat (length sched) <= sumZ stepsLeft (map Unregistered ks).
Proof.
  intros Hne Hrun HS4.
  pose proof (sync_run_S4_inv ks sched _ s (or_introl (syncPre_unregistered ks Hne)) Hrun HS4)
    as Hinv.
  assert ((forall i j pi pj, producers s !! i = Some pi -> producers s !! j = Some pj ->
                     inSink pi = true -> inSink pj = true -> i = j) /\
          (forall i, producers s !! i = Some FinRunning ->
             forall j pj, j <> i -> producers s !! j = Some pj -> pj = Finished) /\
          (sinkFinishes s <= 1)%nat /\
          Z.of_nat (sinkCallbacks s) <= sumZ Z.of_nat ks /\
          (sync_done s ->
           Z.of_nat (sinkCallbacks s) = sumZ Z.of_nat ks /\ sinkFinishes s = 1%nat))
    as (S1 & S2 & S3 & S4 & S5).
  { destruct Hinv as [Hpre|Hreg]; [apply syncPre_safe | apply syncInv_safe]; assumption. }
  split; [exact S1|]. split; [exact S2|]. split; [exact S3|]. split; [exact S4|].
  split; [exact S5|]. split.
  - destruct (sync_S4_completes ks s Hinv) as (sched' & s' & Hrun' & HS4' & Hd).
    exists sched', s'.
    split; [rewrite (sync_run_app _ _ _ _ Hrun); assumption|].
    split; [|assumption].
    rewrite (sync_S4_app _ _ _ _ Hrun), HS4, HS4'. reflexivity.
  - pose proof (sync_run_measure sched _ s Hrun) as Hm. simpl in Hm.
    pose proof (sumZ_nonneg stepsLeft (producers s) stepsLeft_nonneg). lia.
Qed.

(** The two producers of the test, one callback each: the second registers
    while the first holds the mutex in its [Callback], and each runs its
    [Finish] after both have registered. *)
Lemma synchronize_exactly_once_witness :
  let ks := [1; 1]%nat in
  let sched := [0; 0; 1; 0; 0; 0; 1; 1; 1; 1; 0; 0; 0; 1; 1; 1; 1; 1]%nat in
  let s := mkSync [Finished; Finished] 0 None 2 1 in
  (forall i j pi pj, producers s !! i = Some pi -> producers s !! j = Some pj ->
                     inSink pi = true -> inSink pj = true -> i = j) /\
  (forall i, producers s !! i = Some FinRunning ->
             forall j pj, j <> i -> producers s !! j = Some pj -> pj = Finished) /\
  (sinkFinishes s <= 1)%nat /\
  Z.of_nat (sinkCallbacks s) <= sumZ Z.of_nat ks /\
  (sync_done s ->
   Z.of_nat (sinkCallbacks s) = sumZ Z.of_nat ks /\ sinkFinishes s = 1%nat) /\
  (exists sched' s',
     sync_run (sched ++ sched') (sync_unregistered ks) = Some s' /\
     sync_S4 (sched ++ sched') (sync_unregistered ks) = true /\
     sync_done s') /\
  Z.of_nat (length sched) <= sumZ stepsLeft (map Unregistered ks).
Proof.
  intros ks sched s.
  apply (synchronize_exactly_once ks sched s).
  - discriminate.
  - reflexivity.
  - reflexivity.
Defined.

(** The test's two producers with interleaved callbacks: the schedule
    respects S4 although the second producer registers after the first has
    entered the barrier. *)
Example synchronize_two_producers :
  sync_run [0; 0; 1; 0; 0; 0; 1; 1; 1; 1; 0; 0; 0; 1; 1; 1; 1; 1]%nat
           (sync_unregistered [1; 1]%nat) =
  Some (mkSync [Finished; Finished] 0 None 2 1) /\
  sync_S4 [0; 0; 1; 0; 0; 0; 1; 1; 1; 1; 0; 0; 0; 1; 1; 1; 1; 1]%nat
          (sync_unregistered [1; 1]%nat) = true.
Proof. split; vm_compute; reflexivity. Qed.

(** Why S4 is needed: a producer that registers only after the other one has
    run its [Finish] finds the counter at zero again, and the sink's [Finish]
    runs twice.  The schedule breaks S4 at the first producer's
    observation. *)
Example late_registration_finishes_twice :
  sync_run [0; 0; 0; 0; 0; 0; 1; 1; 1; 1; 1; 1]%nat (sync_unregistered [0; 0]%nat) =
  Some (mkSync [Finished; Finished] 0 None 0 2) /\
  sync_S4 [0; 0; 0; 0; 0; 0; 1; 1; 1; 1; 1; 1]%nat (sync_unregistered [0; 0]%nat) = false.
Proof. split; vm_compute; reflexivity. Qed.

(** ** The persistence task and the watermark *)

(** [writeBlock] on a rotated block whose writers and readers have drained:
    when [Persist] and the logging of the [TableBlockPersisted] entry succeed,
    the block leaves the pending set and its entry [{prevTx, minTx}] goes
    through [completeBlock]; when either fails, the watermark and the list of
    completed blocks stay as they are. *)
Lemma writeBlock_records_completion sortSlice persistErr blk t b :
  heap t !! blk = Some b -> pendingWritersWg b = 0 -> pendingReadersWg b = 0 ->
  exists t',
    writeBlock sortSlice persistErr blk t = Ret tt t' /\
    pendingBlocks t' = pendingBlocks t ∖ {[blk]} /\
    (lastCompleted t', completedBlocks t') =
      match persistErr,
            wal_fails (wal t) (wal_calls (wal t))
              (CallLog (wrap64 (db_tx (db t) + 1))
                 (Entry_TableBlockPersisted (name t) (ulid b)))
      with
      | None, None =>
          completeBlock sortSlice (lastCompleted t, completedBlocks t)
            (mkCompleted (prevTx b) (minTx b))
      | _, _ => (lastCompleted t, completedBlocks t)
      end.
Proof.
  intros Hb Hw Hr. unfold writeBlock, dropPendingBlock, recordCompleted. munfold.
  rewrite Hb. simpl. rewrite Hw. simpl. rewrite Hb. simpl. rewrite Hr. simpl.
  destruct persistErr as [e|]; simpl.
  { eexists. split; [reflexivity|]. split; reflexivity. }
  rewrite Hb. simpl.
  destruct (wal_fails (wal t) (wal_calls (wal t)) _) as [e|]; simpl.
  { eexists. split; [reflexivity|]. split; reflexivity. }
  eexists. split; [reflexivity|].
  destruct (length _ <? S _)%nat; simpl; split; try reflexivity;
    destruct (completeBlock sortSlice _ _); reflexivity.
Qed.

(** The comparison handed to [sort.Slice] and the order of the result. *)
Lemma prevTxLe_lessPrevTx a b : prevTxLe a b <-> lessPrevTx b a = false.
Proof. unfold prevTxLe, lessPrevTx. rewrite Z.ltb_ge. reflexivity. Qed.

(** [writeBlock] touches no block and does not move the active pointer. *)
Lemma writeBlock_outcome_heap sortSlice persistErr blk t b :
  heap t !! blk = Some b -> pendingWritersWg b = 0 -> pendingReadersWg b = 0 ->
  exists t',
    writeBlock sortSlice persistErr blk t = Ret tt t' /\
    heap t' = heap t /\ active t' = active t.
Proof.
  intros Hb Hw Hr. unfold writeBlock, dropPendingBlock, recordCompleted. munfold.
  rewrite Hb. simpl. rewrite Hw. simpl. rewrite Hb. simpl. rewrite Hr. simpl.
  destruct persistErr as [e|]; simpl.
  { eexists. split; [reflexivity|]. split; reflexivity. }
  rewrite Hb. simpl.
  destruct (wal_fails (wal t) (wal_calls (wal t)) _) as [e|]; simpl.
  { eexists. split; [reflexivity|]. split; reflexivity. }
  eexists. split; [reflexivity|].
  destruct (length _ <? S _)%nat; simpl; split; reflexivity.
Qed.
Arguments ulid_Time : simpl never.


(** ** [collectRowGroups] and the memory blocks *)

Lemma lookup_bumpReaders d h p :
  bumpReaders d h !! p =
  (fun b => set_pendingReadersWg (pendingReadersWg b + d p) b) <$> h !! p.
Proof. unfold bumpReaders. apply list_lookup_imap. Qed.


Lemma bumpReaders_zero d h : (forall p, d p = 0) -> bumpReaders d h = h.
Proof.
  intros Hd. apply list_eq. intros p. rewrite lookup_bumpReaders, Hd.
  destruct (h !! p) as [b|]; simpl; [|reflexivity]. f_equal.
  destruct b; unfold set_pendingReadersWg; simpl. f_equal. lia.
Qed.

Lemma alter_bumpReaders d h p b0 delta :
  h !! p = Some b0 ->
  alter (set_pendingReadersWg (pendingReadersWg b0 + d p + delta)) p (bumpReaders d h) =
  bumpReaders (fun q => if decide (q = p) then d q + delta else d q) h.
Proof.
  intros Hp. apply list_eq. intros q. rewrite lookup_bumpReaders.
  destruct (decide (p = q)) as [<-|Hne].
  - rewrite list_lookup_alter_eq, lookup_bumpReaders, Hp. simpl.
    rewrite decide_True by reflexivity. unfold set_pendingReadersWg; simpl.
    f_equal. f_equal. lia.
  - rewrite list_lookup_alter_ne by assumption. rewrite lookup_bumpReaders.
    rewrite decide_False by congruence. reflexivity.
Qed.

(** [Add(delta)] on the reader wait-group of a valid block. *)
Lemma pendingReadersWg_Add_bump t h d p b0 delta :
  heap t = bumpReaders d h -> h !! p = Some b0 ->
  0 <= pendingReadersWg b0 + d p + delta ->
  pendingReadersWg_Add p delta t =
    Ret tt (set_heap (fun _ => bumpReaders
                                 (fun q => if decide (q = p) then d q + delta else d q) h) t).
Proof.
  intros Hh Hp Hpos. unfold pendingReadersWg_Add. munfold.
  rewrite Hh, lookup_bumpReaders, Hp. simpl.
  destruct (Z.ltb_spec (pendingReadersWg b0 + d p + delta) 0); [lia|].
  f_equal. unfold set_heap. rewrite Hh. f_equal. apply alter_bumpReaders. assumption.
Qed.

Lemma set_heap_same t h : heap t = h -> set_heap (fun _ => h) t = t.
Proof. intros <-. destruct t; reflexivity. Qed.

Lemma set_heap_twice t h1 h2 :
  set_heap (fun _ => h2) (set_heap (fun _ => h1) t) = set_heap (fun _ => h2) t.
Proof. reflexivity. Qed.

Lemma occurrences_nonneg p ps : 0 <= occurrences p ps.
Proof. induction ps as [|q ps IH]; simpl; [lia | destruct (decide (q = p)); lia]. Qed.

(** The loop of [memoryBlocks] raises the reader counter of every pending
    block once per occurrence, and leaves in [lastReadBlockTimestamp] the
    smallest [ulid.Time()] met so far. *)
Lemma memoryBlocks_pending_bump h ps : forall acc ts d t,
  heap t = bumpReaders d h -> (forall q, 0 <= d q) ->
  Forall (fun b => 0 <= pendingReadersWg b) h ->
  (forall p, p ∈ ps -> is_Some (h !! p)) ->
  exists ts' d',
    memoryBlocks_pending ps acc ts t =
      Ret (acc ++ ps, ts') (set_heap (fun _ => bumpReaders d' h) t) /\
    (forall q, d' q = d q + occurrences q ps) /\
    ts' <= ts /\
    (forall p b, p ∈ ps -> h !! p = Some b -> ts' <= ulid_Time (ulid b)) /\
    (ts' = ts \/ exists p b, p ∈ ps /\ h !! p = Some b /\ ts' = ulid_Time (ulid b)).
Proof.
  induction ps as [|p ps IH]; intros acc ts d t Hh Hd Hall Hvalid.
  - exists ts, d. cbn [memoryBlocks_pending occurrences].
    rewrite app_nil_r, set_heap_same by assumption.
    split; [reflexivity|]. split; [intros q; lia|]. split; [lia|].
    split; [intros p b Hp; inversion Hp | left; reflexivity].
  - destruct (Hvalid p ltac:(left)) as [b0 Hp].
    assert (0 <= pendingReadersWg b0) as Hb0.
    { rewrite Forall_forall in Hall. apply Hall. apply list_elem_of_lookup. eauto. }
    cbn [memoryBlocks_pending]. unfold bind at 1. unfold deref at 1.
    rewrite Hh, lookup_bumpReaders, Hp. cbn [fmap option_fmap option_map].
    change (ulid (set_pendingReadersWg (pendingReadersWg b0 + d p) b0)) with (ulid b0).
    unfold bind at 1.
    rewrite (pendingReadersWg_Add_bump t h d p b0 1 Hh Hp) by (specialize (Hd p); lia).
    set (ts1 := if ulid_Time (ulid b0) <? ts then ulid_Time (ulid b0) else ts).
    assert (ts1 <= ts /\ ts1 <= ulid_Time (ulid b0) /\
            (ts1 = ts \/ ts1 = ulid_Time (ulid b0))) as (Hts1 & Hts2 & Hts3).
    { unfold ts1. destruct (Z.ltb_spec (ulid_Time (ulid b0)) ts); lia. }
    edestruct (IH (acc ++ [p]) ts1
                 (fun q => if decide (q = p) then d q + 1 else d q)
                 (set_heap (fun _ => bumpReaders
                                       (fun q => if decide (q = p) then d q + 1 else d q) h) t))
      as (ts' & d' & Hrun & Hd' & Hle & Hmin & Hwit).
    + reflexivity.
    + intros q. specialize (Hd q). destruct (decide (q = p)); lia.
    + assumption.
    + intros q Hq. apply Hvalid. right. assumption.
    + exists ts', d'. rewrite Hrun, set_heap_twice, <- app_assoc. split; [reflexivity|].
      split.
      { intros q. rewrite Hd'. cbn [occurrences].
        destruct (decide (q = p)) as [->|Hne].
        * rewrite decide_True by reflexivity. lia.
        * rewrite decide_False by congruence. lia. }
      split; [lia|]. split.
      { intros q b Hq Hqb. apply elem_of_cons in Hq as [->|Hq].
        - rewrite Hp in Hqb. inversion Hqb; subst b. lia.
        - eauto. }
      destruct Hwit as [->|(q & b & Hq & Hqb & ->)].
      * destruct Hts3 as [->| ->]; [left; reflexivity|].
        right. exists p, b0. split; [left|]. split; [assumption | reflexivity].
      * right. exists q, b. split; [right; assumption|]. split; [assumption | reflexivity].
Qed.

Lemma derefAll_bump h d ps : forall t,
  heap t = bumpReaders d h ->
  (forall p, p ∈ ps -> is_Some (h !! p)) ->
  exists bs, derefAll ps t = Ret bs t /\ map index bs = map (indexOf h) ps.
Proof.
  induction ps as [|p ps IH]; intros t Hh Hvalid.
  - exists []. split; reflexivity.
  - destruct (Hvalid p ltac:(left)) as [b0 Hp].
    destruct (IH t Hh) as (bs & Hbs & Hidx); [intros q Hq; apply Hvalid; right; assumption|].
    cbn [derefAll]. unfold bind at 1. unfold deref at 1.
    rewrite Hh, lookup_bumpReaders, Hp. cbn [fmap option_fmap option_map].
    unfold bind at 1. rewrite Hbs. unfold ret.
    eexists. split; [reflexivity|]. cbn [map]. rewrite Hidx. unfold indexOf at 2. rewrite Hp.
    reflexivity.
Qed.

(** Releasing gives back one unit per occurrence. *)
Lemma releaseReaders_bump h ps : forall d t,
  heap t = bumpReaders d h ->
  Forall (fun b => 0 <= pendingReadersWg b) h ->
  (forall p, p ∈ ps -> is_Some (h !! p)) ->
  (forall q, occurrences q ps <= d q) ->
  exists d',
    releaseReaders ps t = Ret tt (set_heap (fun _ => bumpReaders d' h) t) /\
    (forall q, d' q = d q - occurrences q ps).
Proof.
  induction ps as [|p ps IH]; intros d t Hh Hall Hvalid Hocc.
  - exists d. cbn [releaseReaders occurrences]. rewrite set_heap_same by assumption.
    split; [reflexivity | intros q; lia].
  - destruct (Hvalid p ltac:(left)) as [b0 Hp].
    assert (0 <= pendingReadersWg b0) as Hb0.
    { rewrite Forall_forall in Hall. apply Hall. apply list_elem_of_lookup. eauto. }
    pose proof (Hocc p) as Hop. cbn [occurrences] in Hop.
    rewrite decide_True in Hop by reflexivity.
    pose proof (occurrences_nonneg p ps).
    cbn [releaseReaders]. unfold bind at 1. unfold pendingReadersWg_Done.
    rewrite (pendingReadersWg_Add_bump t h d p b0 (-1) Hh Hp) by lia.
    edestruct (IH (fun q => if decide (q = p) then d q + -1 else d q)
                 (set_heap (fun _ => bumpReaders
                                       (fun q => if decide (q = p) then d q + -1 else d q) h) t))
      as (d' & Hrun & Hd').
    + reflexivity.
    + assumption.
    + intros q Hq. apply Hvalid. right. assumption.
    + intros q. specialize (Hocc q). cbn [occurrences] in Hocc.
      destruct (decide (q = p)) as [->|Hne].
      * rewrite decide_True in Hocc by reflexivity. lia.
      * rewrite decide_False in Hocc by congruence. lia.
    + exists d'. rewrite Hrun, set_heap_twice. split; [reflexivity|].
      intros q. rewrite Hd'. cbn [occurrences].
      destruct (decide (q = p)) as [->|Hne].
      * rewrite decide_True by reflexivity. lia.
      * rewrite decide_False by congruence. lia.
Qed.

Lemma memoryBlocks_bump t a :
  readable t -> active t = Some a ->
  exists ts d,
    memoryBlocks t = Ret (memoryPtrs t, ts) (set_heap (fun _ => bumpReaders d (heap t)) t) /\
    (forall q, d q = occurrences q (memoryPtrs t)) /\
    (forall p b, p ∈ memoryPtrs t -> heap t !! p = Some b -> ts <= ulid_Time (ulid b)) /\
    (exists p b, p ∈ memoryPtrs t /\ heap t !! p = Some b /\ ts = ulid_Time (ulid b)).
Proof.
  intros [Hvalid Hall] Ha. unfold memoryBlocks, memoryPtrs in *.
  unfold bind at 1. unfold get at 1. rewrite Ha in *.
  destruct (Hvalid a ltac:(left)) as [b Hb].
  assert (0 <= pendingReadersWg b) as Hb0.
  { rewrite Forall_forall in Hall. apply Hall. apply list_elem_of_lookup. eauto. }
  assert (heap t = bumpReaders (fun _ => 0) (heap t)) as Hh0
    by (symmetry; apply bumpReaders_zero; reflexivity).
  unfold bind at 1. unfold deref at 1. rewrite Hb. unfold bind at 1.
  rewrite (pendingReadersWg_Add_bump t (heap t) (fun _ => 0) a b 1 Hh0 Hb) by lia.
  set (d1 := fun q : nat => if decide (q = a) then 0 + 1 else 0).
  set (t1 := set_heap (fun _ => bumpReaders d1 (heap t)) t).
  destruct (memoryBlocks_pending_bump (heap t) (elements (pendingBlocks t)) [a]
              (ulid_Time (ulid b)) d1 t1 eq_refl) as (ts & d2 & Hrun & Hd2 & Hle & Hmin & Hwit).
  { intros q. unfold d1. destruct (decide (q = a)); lia. }
  { assumption. }
  { intros p Hp. apply Hvalid. right. assumption. }
  exists ts, d2. rewrite Hrun. unfold t1. rewrite set_heap_twice.
  split; [reflexivity|]. split.
  { intros q. rewrite Hd2. unfold d1. cbn [occurrences].
    destruct (decide (q = a)) as [->|Hne].
    - rewrite decide_True by reflexivity. lia.
    - rewrite decide_False by congruence. lia. }
  split.
  { intros p b' Hp Hpb. apply elem_of_cons in Hp as [->|Hp].
    - rewrite Hb in Hpb. inversion Hpb; subst b'. lia.
    - eauto. }
  destruct Hwit as [->|(q & b' & Hq & Hqb & ->)].
  - exists a, b. split; [left|]. split; [assumption | reflexivity].
  - exists q, b'. split; [right; assumption|]. split; [assumption | reflexivity].
Qed.

Lemma scanSources_app path ts l1 l2 :
  scanSources path ts (l1 ++ l2) =
  match scanSources path ts l1 with
  | (items1, Some e) => (items1, Some e)
  | (items1, None) =>
      let '(items2, err2) := scanSources path ts l2 in (items1 ++ items2, err2)
  end.
Proof.
  induction l1 as [|s l1 IH]; simpl.
  - destruct (scanSources path ts l2). reflexivity.
  - destruct (ds_Scan s path ts) as [items [e|]]; [reflexivity|]. rewrite IH.
    destruct (scanSources path ts l1) as [items1 [e|]]; [reflexivity|].
    destruct (scanSources path ts l2) as [items2 err2]. rewrite app_assoc. reflexivity.
Qed.

Lemma scanSources_indexes path ts (idx : nat -> LSM) ps :
  scanSources path ts (map (fun p => indexSource (idx p)) ps) =
  (flat_map (fun p => fst (LSM_Scan (idx p))) ps, None).
Proof.
  induction ps as [|p ps IH]; simpl; [reflexivity|]. rewrite IH. reflexivity.
Qed.

Lemma collectRowGroups_reads_memory ctx tx t :
  readable t ->
  exists ts,
    collectRowGroups ctx tx t =
      Ret (scanSources (scanPath t) ts
             (db_sources (db t) ++ map (fun p => indexSource (indexAt t p)) (memoryPtrs t))) t /\
    (forall p b, p ∈ memoryPtrs t -> heap t !! p = Some b -> ts <= ulid_Time (ulid b)) /\
    match active t with
    | None => ts = 0
    | Some _ => exists p b, p ∈ memoryPtrs t /\ heap t !! p = Some b /\ ts = ulid_Time (ulid b)
    end.
Proof.
  intros Hr. unfold collectRowGroups. unfold bind at 1.
  destruct (active t) as [a|] eqn:Ha.
  2: { exists 0. unfold memoryBlocks, memoryPtrs. unfold bind at 1. unfold get at 1.
       rewrite Ha. unfold ret at 1. unfold bind at 1. unfold get at 1.
       cbn [fst snd derefAll releaseReaders]. unfold bind, ret.
       unfold scanSourcesOf, scanPath. cbn [map]. split; [reflexivity|].
       split; [intros p b Hp; inversion Hp | reflexivity]. }
  destruct (memoryBlocks_bump t a Hr Ha) as (ts & d2 & Hrun & Hd2 & Hmin & Hwit).
  destruct Hr as [Hvalid Hall].
  rewrite Hrun. set (ptrs := memoryPtrs t) in *.
  set (t2 := set_heap (fun _ => bumpReaders d2 (heap t)) t).
  exists ts. split; [|split; assumption].
  unfold get at 1. unfold bind at 1. cbn [fst snd].
  destruct (derefAll_bump (heap t) d2 ptrs t2 eq_refl) as (bs & Hbs & Hidx).
  { intros p Hp. apply Hvalid. exact Hp. }
  unfold bind at 1. rewrite Hbs.
  destruct (releaseReaders_bump (heap t) ptrs d2 t2 eq_refl Hall) as (d3 & Hrel & Hd3).
  { intros p Hp. apply Hvalid. exact Hp. }
  { intros q. rewrite Hd2. lia. }
  unfold bind at 1. rewrite Hrel. unfold t2. rewrite set_heap_twice.
  rewrite (bumpReaders_zero d3) by (intros q; rewrite Hd3, Hd2; lia).
  rewrite (set_heap_same t (heap t)) by reflexivity.
  unfold ret. f_equal. unfold scanSourcesOf, scanPath. cbn [db name set_heap]. f_equal. f_equal.
  rewrite <- (map_map index indexSource bs), Hidx, map_map. reflexivity.
Qed.

(** The items of a scan that meets no error: those of the sources of the
    database, then those of the memory blocks. *)
Lemma collectRowGroups_items ctx tx t items t' :
  readable t ->
  collectRowGroups ctx tx t = Ret (items, None) t' ->
  t' = t /\
  exists ts,
    items = flat_map (fun s => fst (ds_Scan s (scanPath t) ts)) (db_sources (db t)) ++
            memoryItems t.
Proof.
  intros Hr Hc. destruct (collectRowGroups_reads_memory ctx tx t Hr) as (ts & Hspec & _).
  rewrite Hc in Hspec. inversion Hspec as [[Hres Ht]]. split; [reflexivity|].
  exists ts. rewrite scanSources_app, scanSources_indexes in Hres.
  destruct (scanSources (scanPath t) ts (db_sources (db t))) as [items1 [e|]] eqn:Hext;
    [discriminate|].
  inversion Hres; subst items. f_equal.
  rewrite <- (scanSources_ok (scanPath t) ts (db_sources (db t))); rewrite Hext; reflexivity.
Qed.

(** ** Scans: [memoryBlocks] and [collectRowGroups] *)




(** On the example the cut-off is the timestamp of the older, pending block. *)
Example memoryBlocks_rotatedTable :
  exists t', memoryBlocks (rotatedTable NopWAL) = Ret ([1%nat; 0%nat], 1000) t' /\
             map pendingReadersWg (heap t') = [1; 1].
Proof. eexists. vm_compute. split; reflexivity. Qed.







(** The same scan, run: one row group from the first source, one from the
    failing source, then the error; the two batches in memory are not read. *)
Example collectRowGroups_broken_source :
  collectRowGroups liveCtx 4 (tableWithSources [bucketSource; brokenSource; bucketSource]) =
    Ret ([ItemRowGroup ["a"%string; "b"%string]; ItemRowGroup ["c"%string]],
         Some (ErrExternal "bucket: timeout"))
        (tableWithSources [bucketSource; brokenSource; bucketSource]).
Proof. vm_compute. reflexivity. Qed.

(** ** Insertion followed by a scan *)

Lemma InsertRecord_inv fuel ctx record t res t' :
  InsertRecord fuel ctx record t = Ret res t' ->
  (exists err, appender fuel ctx t = Ret (inr err) t' /\
               res = (0, Some (Errorf "get appender" err))) \/
  (exists blk t1, appender fuel ctx t = Ret (inl blk) t1).
Proof.
  unfold InsertRecord. unfold bind at 1.
  destruct (appender fuel ctx t) as [[blk|err] t1| | |]; try discriminate.
  - intros _. right. eauto.
  - unfold ret. intros [= <- <-]. left. eauto.
Qed.

Lemma memoryPtrs_active t t' blk :
  memoryPtrs t' = memoryPtrs t -> active t = Some blk -> active t' = Some blk.
Proof.
  unfold memoryPtrs. intros Hp Ha. rewrite Ha in Hp.
  destruct (active t') as [a'|]; [|discriminate]. inversion Hp. reflexivity.
Qed.

(** X4.  A batch that [InsertRecord] has accepted is read by every later scan.
    After a call that returned no error for a batch with rows, on a table that
    is well formed and readable: the table is still readable, the index of the
    active block is the index that block had before followed by the batch
    under the returned transaction id, no other index has changed, and every
    scan of that state that meets no error leaves it as it is and emits the
    batch as well as every item the memory blocks held before the call. *)
Theorem InsertRecord_then_scan fuel ctx record t tx t' :
  wf t -> readable t -> NumRows record <> 0 ->
  InsertRecord fuel ctx record t = Ret (tx, None) t' ->
  readable t' /\
  (exists blk, active t' = Some blk /\
               indexAt t' blk = indexAt t blk ++ [(tx, record)] /\
               forall p, p <> blk -> indexAt t' p = indexAt t p) /\
  forall ctx' tx' items s,
    collectRowGroups ctx' tx' t' = Ret (items, None) s ->
    s = t' /\ ItemRecord record ∈ items /\ forall it, it ∈ memoryItems t -> it ∈ items.
Proof.
  intros Hwf Hr Hrows HI.
  destruct (InsertRecord_inv _ _ _ _ _ _ HI) as [(err & _ & [=])|(blk & t1 & Happ)].
  destruct (appender_post ctx fuel t blk t1 Hwf Happ)
    as (Hwf1 & Hfr & Hact & Hcl & b & Hb & Hsz & Hw).
  destruct (InsertRecord_after_appender fuel ctx record t blk t1 b Happ Hb Hw)
    as (t2 & HI2 & Hdb & Hwal & Hptrs & Hws & Hrs & Hcase).
  rewrite HI in HI2.
  destruct (wal_fails (wal t1) (wal_calls (wal t1)) _) as [e|]; [discriminate|].
  injection HI2 as Htx Ht. subst t2.
  destruct (Z.eqb_spec (NumRows record) 0) as [|_]; [contradiction|].
  destruct Hcase as (_ & _ & Hblk & Hother & _).
  rewrite <- Htx in Hblk. rewrite (frame_index _ _ Hfr) in Hblk.
  assert (readable t') as Hr'.
  { apply (readable_heap t1 t' Hptrs Hrs). apply (frame_readable _ _ Hfr Hr). }
  assert (active t' = Some blk) as Hact' by (eapply memoryPtrs_active; eassumption).
  split; [assumption|]. split.
  { exists blk. split; [assumption|]. split; [assumption|].
    intros p Hp. rewrite Hother by assumption. apply (frame_index _ _ Hfr). }
  intros ctx' tx' items s Hscan.
  destruct (collectRowGroups_items ctx' tx' t' items s Hr' Hscan) as (-> & ts & ->).
  split; [reflexivity|]. split.
  - apply elem_of_app. right. apply memoryItems_elem. exists blk. split.
    + unfold memoryPtrs. rewrite Hact'. left.
    + rewrite Hblk. unfold LSM_Scan. cbn [fst]. rewrite map_app. apply elem_of_app.
      right. left.
  - intros it Hit. apply elem_of_app. right.
    apply memoryItems_elem in Hit as (p & Hp & Hit). apply memoryItems_elem.
    exists p. split; [rewrite Hptrs; apply (frame_ptrs _ _ Hfr); assumption|].
    destruct (decide (p = blk)) as [->|Hne].
    + rewrite Hblk. unfold LSM_Scan in *. cbn [fst] in *. rewrite map_app.
      apply elem_of_app. left. assumption.
    + rewrite Hother by assumption. rewrite (frame_index _ _ Hfr). assumption.
Qed.

Lemma exampleTable_wf w : wf (exampleTable w).
Proof.
  split; [exists 0%nat; split; [reflexivity | simpl; lia] | repeat constructor; simpl; lia].
Qed.

Lemma exampleTable_readable w : readable (exampleTable w).
Proof.
  split.
  - intros p Hp. vm_compute in Hp. apply list_elem_of_singleton in Hp as ->.
    eexists; reflexivity.
  - repeat constructor; simpl; lia.
Qed.

Lemma InsertRecord_then_scan_witness :
  exists t',
    InsertRecord 3 liveCtx threeRows (exampleTable NopWAL) = Ret (2, None) t' /\
    readable t' /\
    (exists blk, active t' = Some blk /\
                 indexAt t' blk = indexAt (exampleTable NopWAL) blk ++ [(2, threeRows)] /\
                 forall p, p <> blk -> indexAt t' p = indexAt (exampleTable NopWAL) p) /\
    forall ctx' tx' items s,
      collectRowGroups ctx' tx' t' = Ret (items, None) s ->
      s = t' /\ ItemRecord threeRows ∈ items /\
      forall it, it ∈ memoryItems (exampleTable NopWAL) -> it ∈ items.
Proof.
  eexists. split; [vm_compute; reflexivity|].
  apply (InsertRecord_then_scan 3 liveCtx threeRows (exampleTable NopWAL) 2).
  - apply exampleTable_wf.
  - apply exampleTable_readable.
  - vm_compute. discriminate.
  - vm_compute. reflexivity.
Defined.

(** ** Closing a table *)

(** X5.  Once [close] has returned, the table accepts no insertion: on a table
    whose active block has no writer, [close] returns with [closing] set and
    nothing else changed, and from then on every [InsertRecord] returns the
    transaction id zero and [ErrTableClosing] wrapped as "get appender",
    leaving the table, its WAL and the transaction clock untouched. *)
Theorem InsertRecord_after_close fuel ctx record t a b :
  active t = Some a -> heap t !! a = Some b -> pendingWritersWg b = 0 ->
  close t = Ret tt (set_closing true t) /\
  InsertRecord (S fuel) ctx record (set_closing true t) =
    Ret (0, Some (Errorf "get appender" ErrTableClosing)) (set_closing true t).
Proof.
  intros Ha Hb Hw. split.
  - unfold close. munfold. rewrite Ha, Hb, Hw. reflexivity.
  - unfold InsertRecord. unfold bind at 1.
    rewrite appender_closing by reflexivity. reflexivity.
Qed.

Lemma InsertRecord_after_close_witness :
  close (exampleTable NopWAL) = Ret tt (set_closing true (exampleTable NopWAL)) /\
  InsertRecord 1 liveCtx threeRows (set_closing true (exampleTable NopWAL)) =
    Ret (0, Some (Errorf "get appender" ErrTableClosing))
        (set_closing true (exampleTable NopWAL)).
Proof.
  apply (InsertRecord_after_close 0 liveCtx threeRows (exampleTable NopWAL) 0%nat
           (new_block 0 1 (Z.shiftl 1000 80))); reflexivity.
Defined.

(** X6.  [close] waits for the writers of the active block: in the state in which
    [appender] has handed out a writer slot, [close] does not return. *)
Theorem close_waits_for_writer fuel ctx t blk t1 :
  wf t -> appender fuel ctx t = Ret (inl blk) t1 -> close t1 = Blocked.
Proof.
  intros Hwf Happ.
  destruct (appender_post ctx fuel t blk t1 Hwf Happ)
    as (_ & _ & Hact & _ & b & Hb & _ & Hw).
  unfold close. munfold. rewrite Hact, Hb.
  destruct (Z.eqb_spec (pendingWritersWg b) 0); [lia | reflexivity].
Qed.

Lemma close_waits_for_writer_witness :
  close (set_heap (alter (set_pendingWritersWg 1) 0%nat) (exampleTable NopWAL)) = Blocked.
Proof.
  apply (close_waits_for_writer 3 liveCtx (exampleTable NopWAL) 0%nat).
  - apply exampleTable_wf.
  - reflexivity.
Defined.

(** ** Writer slots are given back *)

Lemma map_writers_alter h p n b :
  h !! p = Some b -> pendingWritersWg b = n ->
  map pendingWritersWg (alter (set_pendingWritersWg n) p h) = map pendingWritersWg h.
Proof.
  revert p. induction h as [|x h IH]; intros [|p] Hp Hn; simpl in *; try discriminate.
  - inversion Hp; subst x. rewrite Hn. reflexivity.
  - f_equal. apply IH; assumption.
Qed.

Lemma RotateBlock_writers ctx blk t r t' :
  RotateBlock ctx blk t = Ret r t' ->
  exists k, map pendingWritersWg (heap t') = map pendingWritersWg (heap t) ++ replicate k 0.
Proof.
  intros HR. destruct (decide (active t = Some blk)) as [Ha|Hne].
  2: { rewrite RotateBlock_other in HR by assumption. inversion HR. exists 0%nat.
       simpl. rewrite app_nil_r. reflexivity. }
  destruct (heap t !! blk) as [b|] eqn:Hb.
  2: { rewrite RotateBlock_dangling in HR by assumption. discriminate. }
  destruct (RotateBlock_active ctx blk t b Ha Hb)
    as (t2 & HR2 & _ & _ & _ & _ & _ & _ & Hcase).
  rewrite HR in HR2. inversion HR2; subst r t2. clear HR2.
  destruct (wal_fails (wal t) (wal_calls (wal t)) _) as [e|];
    destruct Hcase as (_ & Hheap & _); rewrite Hheap.
  - exists 0%nat. simpl. rewrite app_nil_r. reflexivity.
  - exists 1%nat. rewrite map_app. reflexivity.
Qed.

(** The writer counters when [appender] returns: those of the table it
    started from, with a zero for every block created on the way, and one
    more on the block whose slot is handed out. *)
Lemma appender_writers ctx fuel : forall t r t1,
  wf t -> appender fuel ctx t = Ret r t1 ->
  exists k,
    match r with
    | inl blk =>
        exists b, heap t1 !! blk = Some b /\
          map pendingWritersWg (alter (set_pendingWritersWg (pendingWritersWg b - 1)) blk (heap t1)) =
          map pendingWritersWg (heap t) ++ replicate k 0
    | inr _ => map pendingWritersWg (heap t1) = map pendingWritersWg (heap t) ++ replicate k 0
    end.
Proof.
  induction fuel as [|fuel IH]; intros t r t1 Hwf Happ; [discriminate|].
  destruct (closing t) eqn:Hc.
  { rewrite appender_closing in Happ by assumption. inversion Happ; subst.
    exists 0%nat. simpl. rewrite app_nil_r. reflexivity. }
  destruct (wf_active t Hwf) as (p & b & Ha & Hp & Hw).
  rewrite (appender_step fuel ctx t p b Hc Ha Hp Hw) in Happ.
  destruct (Size b <? activeMemorySize (db t)).
  - inversion Happ; subst r t1. clear Happ. exists 0%nat.
    exists (set_pendingWritersWg (pendingWritersWg b + 1) b). simpl.
    rewrite list_lookup_alter_eq, Hp. split; [reflexivity|].
    rewrite list_alter_alter_eq, app_nil_r.
    apply (map_writers_alter (heap t) p _ b); [assumption|]. simpl. lia.
  - destruct (RotateBlock ctx p t) as [[e|] t2| | |] eqn:HR; try discriminate.
    + inversion Happ; subst r t1. eapply RotateBlock_writers. eassumption.
    + destruct (RotateBlock_writers _ _ _ _ _ HR) as (k1 & Hk1).
      destruct (IH t2 r t1 (RotateBlock_wf _ _ _ _ _ Hwf HR) Happ) as (k2 & Hk2).
      exists (k1 + k2)%nat. rewrite replicate_add, app_assoc, <- Hk1.
      destruct r as [blk|err]; exact Hk2.
Qed.

(** X7.  [InsertRecord] gives back the writer slot it takes, on every path on
    which it returns: whatever the result (success, closing table, failed
    rotation, failed WAL append), the writer counter of every block the table
    had is what it was before the call, and the blocks created by rotations on
    the way have no writer. *)
Theorem InsertRecord_releases_slot fuel ctx record t res t' :
  wf t -> InsertRecord fuel ctx record t = Ret res t' ->
  exists k,
    map pendingWritersWg (heap t') = map pendingWritersWg (heap t) ++ replicate k 0.
Proof.
  intros Hwf HI.
  destruct (InsertRecord_inv _ _ _ _ _ _ HI) as [(err & Happ & _)|(blk & t1 & Happ)].
  - destruct (appender_writers ctx fuel t _ _ Hwf Happ) as (k & Hk). exists k. exact Hk.
  - destruct (appender_writers ctx fuel t _ _ Hwf Happ) as (k & b & Hb & Hk).
    destruct (appender_post ctx fuel t blk t1 Hwf Happ)
      as (_ & _ & _ & _ & b' & Hb' & _ & Hw).
    rewrite Hb in Hb'. inversion Hb'; subst b'. clear Hb'.
    destruct (InsertRecord_after_appender fuel ctx record t blk t1 b Happ Hb Hw)
      as (t2 & HI2 & _ & _ & _ & Hws & _).
    rewrite HI in HI2. inversion HI2; subst t2.
    exists k. rewrite Hws. exact Hk.
Qed.

Lemma InsertRecord_releases_slot_witness :
  exists res t' k,
    InsertRecord 3 liveCtx threeRows (fullTable NopWAL) = Ret res t' /\
    map pendingWritersWg (heap t') =
      map pendingWritersWg (heap (fullTable NopWAL)) ++ replicate k 0.
Proof.
  eexists. eexists.
  assert (wf (fullTable NopWAL)) as Hwf.
  { split; [exists 0%nat; split; [reflexivity | simpl; lia] | repeat constructor; simpl; lia]. }
  destruct (InsertRecord_releases_slot 3 liveCtx threeRows (fullTable NopWAL) _ _ Hwf
              ltac:(vm_compute; reflexivity)) as (k & Hk).
  exists k. split; [vm_compute; reflexivity | exact Hk].
Defined.

(** After an insertion that went through a rotation the table can be closed
    at once: no writer is left on the new active block. *)
Example close_after_rotating_insert :
  exists res t1 t2,
    InsertRecord 3 liveCtx threeRows (fullTable NopWAL) = Ret res t1 /\
    active t1 = Some 1%nat /\ close t1 = Ret tt t2 /\ closing t2 = true.
Proof.
  do 3 eexists. split; [vm_compute; reflexivity|]. split; [reflexivity|].
  split; [vm_compute; reflexivity | reflexivity].
Qed.

(** ** The persistence task [writeBlock] *)

(** X8.  [writeBlock] starts only once the block has neither writers nor readers:
    on a valid block it never panics, and it is stuck (on
    [pendingWritersWg.Wait()] before persisting, or on
    [pendingReadersWg.Wait()] in [dropPendingBlock]) exactly when one of the
    two wait-group counters of the block is not zero. *)
Theorem writeBlock_waits sortSlice persistErr blk t b :
  heap t !! blk = Some b ->
  writeBlock sortSlice persistErr blk t <> Panic /\
  (writeBlock sortSlice persistErr blk t = Blocked <->
   pendingWritersWg b <> 0 \/ pendingReadersWg b <> 0).
Proof.
  intros Hb.
  destruct (Z.eq_dec (pendingWritersWg b) 0) as [Hw|Hw].
  - destruct (Z.eq_dec (pendingReadersWg b) 0) as [Hr|Hr].
    + destruct (writeBlock_records_completion sortSlice persistErr blk t b Hb Hw Hr)
        as (t' & Hrun & _).
      rewrite Hrun. split; [discriminate|]. split; [discriminate | lia].
    + assert (writeBlock sortSlice persistErr blk t = Blocked) as ->.
      { unfold writeBlock, dropPendingBlock. munfold. rewrite Hb. simpl. rewrite Hw. simpl.
        rewrite Hb. simpl. destruct (Z.eqb_spec (pendingReadersWg b) 0); [lia | reflexivity]. }
      split; [discriminate|]. split; [intros _; right; assumption | reflexivity].
  - assert (writeBlock sortSlice persistErr blk t = Blocked) as ->.
    { unfold writeBlock. munfold. rewrite Hb. simpl.
      destruct (Z.eqb_spec (pendingWritersWg b) 0); [lia | reflexivity]. }
    split; [discriminate|]. split; [intros _; left; assumption | reflexivity].
Qed.

Lemma writeBlock_waits_witness :
  writeBlock sortByPrevTx None 0%nat (rotatedTable NopWAL) <> Panic /\
  (writeBlock sortByPrevTx None 0%nat (rotatedTable NopWAL) = Blocked <->
   pendingWritersWg (mkBlock (Z.shiftl 1000 80) 1 0 120 0 [(2, threeRows)] 0 0) <> 0 \/
   pendingReadersWg (mkBlock (Z.shiftl 1000 80) 1 0 120 0 [(2, threeRows)] 0 0) <> 0).
Proof.
  apply (writeBlock_waits sortByPrevTx None 0%nat (rotatedTable NopWAL)). reflexivity.
Defined.

(** While a scan holds the rotated block, its persistence task is stuck. *)
Example writeBlock_during_scan :
  exists mb t1,
    memoryBlocks (rotatedTable NopWAL) = Ret mb t1 /\
    writeBlock sortByPrevTx None 0%nat t1 = Blocked.
Proof. do 2 eexists. split; [vm_compute; reflexivity|]. vm_compute. reflexivity. Qed.

(** X9.  What [writeBlock] does to a drained block.  The block always leaves the
    pending set, also when persisting failed, and no block is touched.  If
    [Persist] failed nothing else happens: no transaction is begun and the WAL
    is not called.  Otherwise a transaction is begun and committed and the WAL
    receives one [TableBlockPersisted] entry under it; the pair
    [{prevTx, minTx}] of the block goes through the watermark loop only if the
    WAL accepted that entry. *)
Theorem writeBlock_outcome sortSlice persistErr blk t b :
  heap t !! blk = Some b -> pendingWritersWg b = 0 -> pendingReadersWg b = 0 ->
  exists t',
    writeBlock sortSlice persistErr blk t = Ret tt t' /\
    pendingBlocks t' = pendingBlocks t ∖ {[blk]} /\
    heap t' = heap t /\ active t' = active t /\
    match persistErr with
    | Some _ =>
        db t' = db t /\ wal t' = wal t /\
        lastCompleted t' = lastCompleted t /\ completedBlocks t' = completedBlocks t
    | None =>
        let tx := wrap64 (db_tx (db t) + 1) in
        let call := CallLog tx (Entry_TableBlockPersisted (name t) (ulid b)) in
        db t' = add_db_committed tx (set_db_tx tx (db t)) /\
        wal t' = mkWAL (wal_calls (wal t) ++ [call]) (wal_fails (wal t)) /\
        (lastCompleted t', completedBlocks t') =
          match wal_fails (wal t) (wal_calls (wal t)) call with
          | Some _ => (lastCompleted t, completedBlocks t)
          | None => completeBlock sortSlice (lastCompleted t, completedBlocks t)
                      (mkCompleted (prevTx b) (minTx b))
          end
    end.
Proof.
  intros Hb Hw Hr. unfold writeBlock, dropPendingBlock, recordCompleted. munfold.
  rewrite Hb. simpl. rewrite Hw. simpl. rewrite Hb. simpl. rewrite Hr. simpl.
  destruct persistErr as [e|]; simpl.
  { eexists. split; [reflexivity|]. repeat split; reflexivity. }
  rewrite Hb. simpl.
  destruct (wal_fails (wal t) (wal_calls (wal t)) _) as [e|]; simpl.
  { eexists. split; [reflexivity|]. repeat split; reflexivity. }
  eexists. split; [reflexivity|].
  destruct (length _ <? S _)%nat; simpl; repeat split; try reflexivity;
    destruct (completeBlock sortSlice _ _); reflexivity.
Qed.

Lemma writeBlock_outcome_witness :
  exists t',
    writeBlock sortByPrevTx (Some (ErrExternal "bucket: upload")) 0%nat (rotatedTable NopWAL) =
      Ret tt t' /\
    pendingBlocks t' = pendingBlocks (rotatedTable NopWAL) ∖ {[0%nat]} /\
    heap t' = heap (rotatedTable NopWAL) /\ active t' = active (rotatedTable NopWAL) /\
    db t' = db (rotatedTable NopWAL) /\ wal t' = wal (rotatedTable NopWAL) /\
    lastCompleted t' = lastCompleted (rotatedTable NopWAL) /\
    completedBlocks t' = completedBlocks (rotatedTable NopWAL).
Proof.
  apply (writeBlock_outcome sortByPrevTx (Some (ErrExternal "bucket: upload")) 0%nat
           (rotatedTable NopWAL)
           (mkBlock (Z.shiftl 1000 80) 1 0 120 0 [(2, threeRows)] 0 0));
    reflexivity.
Defined.

(** When persisting fails the block is dropped all the same: the batch it
    held is no longer among the items of the memory blocks. *)
Example failed_persist_loses_the_block :
  exists t',
    writeBlock sortByPrevTx (Some (ErrExternal "bucket: upload")) 0%nat (rotatedTable NopWAL) =
      Ret tt t' /\
    ItemRecord threeRows ∈ memoryItems (rotatedTable NopWAL) /\
    memoryItems t' = [ItemRecord twoRows].
Proof.
  eexists. split; [vm_compute; reflexivity|]. split; [|vm_compute; reflexivity].
  vm_compute. right. left.
Qed.

(** ** From rotation to the watermark *)

(** X10.  Rotating the active block and then persisting it moves the watermark to
    that block.  On a table whose watermark is the [prevTx] of the active
    block [blk], with no completed block waiting, a WAL that accepts the two
    entries and [blk] drained: [RotateBlock] succeeds, [writeBlock] on [blk]
    returns, and afterwards [lastCompleted] is the [minTx] of [blk], no
    completed block is waiting, [blk] is no longer pending, and the new active
    block has [prevTx] equal to the new watermark, so that the table is in the
    same situation one block later. *)
Theorem RotateBlock_then_writeBlock ctx sortSlice blk t b :
  (forall l, sortSlice l ≡ₚ l) ->
  (forall calls c, wal_fails (wal t) calls c = None) ->
  active t = Some blk -> heap t !! blk = Some b ->
  pendingWritersWg b = 0 -> pendingReadersWg b = 0 ->
  completedBlocks t = [] -> lastCompleted t = prevTx b ->
  exists t1 t2 nb,
    RotateBlock ctx blk t = Ret None t1 /\
    writeBlock sortSlice None blk t1 = Ret tt t2 /\
    lastCompleted t2 = minTx b /\ completedBlocks t2 = [] /\
    (blk ∉ pendingBlocks t2) /\
    active t2 = Some (length (heap t)) /\
    heap t2 !! length (heap t) = Some nb /\
    prevTx nb = lastCompleted t2 /\ index nb = [] /\
    pendingWritersWg nb = 0 /\ pendingReadersWg nb = 0.
Proof.
  intros Hperm Hwal Ha Hb Hw Hr Hcb Hlc.
  destruct (RotateBlock_active ctx blk t b Ha Hb)
    as (t1 & HR & Hdb1 & Hname1 & Hwal1 & _ & Hcb1 & Hlc1 & Hcase).
  rewrite Hwal in HR, Hcase. destruct Hcase as (Hact1 & Hheap1 & Hpend1 & _ & _).
  assert (heap t1 !! blk = Some b) as Hb1.
  { rewrite Hheap1. rewrite lookup_app_l by (eapply lookup_lt_Some; eassumption). assumption. }
  destruct (writeBlock_records_completion sortSlice None blk t1 b Hb1 Hw Hr)
    as (t2 & HW & Hpend2 & Hcomp).
  rewrite Hwal1 in Hcomp. cbn [wal_fails wal_calls] in Hcomp. rewrite Hwal in Hcomp.
  rewrite Hlc1, Hcb1, Hlc, Hcb in Hcomp. unfold completeBlock in Hcomp. cbn [fst snd app] in Hcomp.
  rewrite (proj1 (Permutation_singleton_r _ _) (Hperm _)) in Hcomp.
  cbn [advanceCompleted cb_prevTx cb_tx] in Hcomp.
  rewrite Z.eqb_refl in Hcomp. cbn [negb] in Hcomp. injection Hcomp as Hlc2 Hcb2.
  destruct (writeBlock_outcome_heap sortSlice None blk t1 b Hb1 Hw Hr) as (t2' & HW' & Hh2 & Ha2).
  rewrite HW in HW'. inversion HW'; subst t2'. clear HW'.
  exists t1, t2, (new_block (minTx b) (wrap64 (db_tx (db t) + 1)) (ulidSeq t (ulidNext t))).
  split; [exact HR|]. split; [exact HW|]. split; [exact Hlc2|]. split; [exact Hcb2|].
  split.
  { rewrite Hpend2. intros Hin. apply elem_of_difference in Hin as [_ Hnot].
    apply Hnot. apply elem_of_singleton. reflexivity. }
  split; [congruence|].
  split; [rewrite Hh2, Hheap1; apply list_lookup_middle; reflexivity|].
  rewrite Hlc2. repeat split; reflexivity.
Qed.

Lemma RotateBlock_then_writeBlock_witness :
  exists t1 t2 nb,
    RotateBlock liveCtx 0%nat (fullTable NopWAL) = Ret None t1 /\
    writeBlock sortByPrevTx None 0%nat t1 = Ret tt t2 /\
    lastCompleted t2 = minTx (mkBlock (Z.shiftl 1000 80) 1 0 100 0 [] 0 0) /\
    completedBlocks t2 = [] /\
    (0%nat ∉ pendingBlocks t2) /\
    active t2 = Some (length (heap (fullTable NopWAL))) /\
    heap t2 !! length (heap (fullTable NopWAL)) = Some nb /\
    prevTx nb = lastCompleted t2 /\ index nb = [] /\
    pendingWritersWg nb = 0 /\ pendingReadersWg nb = 0.
Proof.
  apply (RotateBlock_then_writeBlock liveCtx sortByPrevTx 0%nat (fullTable NopWAL)
           (mkBlock (Z.shiftl 1000 80) 1 0 100 0 [] 0 0)).
  - apply (merge_sort_Permutation prevTxLe).
  - reflexivity.
  - reflexivity.
  - reflexivity.
  - reflexivity.
  - reflexivity.
  - reflexivity.
  - reflexivity.
Defined.

(** ** [writeRows] copies the rows it reads *)

Lemma capToRowGroup_pos p :
  writerInv p -> 0 < rowsBufLen p ->
  (0 < rowGroupSize p -> rowGroupRowsWritten p < rowGroupSize p) ->
  exists l, capToRowGroup p = Some (set_rowsBufLen l p) /\ 0 < l <= rowsBufLen p.
Proof.
  intros (Hlen & Hcap & Hsz & Hmx & Htot & Hgrp) Hbuf Hroom. unfold capToRowGroup.
  destruct (Z.gtb_spec (rowGroupSize p) 0) as [Hpos|Hnpos]; simpl.
  - destruct (Hgrp Hpos) as (Hc & _ & _). specialize (Hroom Hpos).
    unfold int_add, int_sub. rewrite !wrapInt_small by lia.
    destruct (Z.gtb_spec (rowGroupRowsWritten p + rowsBufLen p) (rowGroupSize p)) as [Hgt|Hle].
    + exists (rowGroupSize p - rowGroupRowsWritten p). unfold reslice.
      destruct (Z.ltb_spec (rowGroupSize p - rowGroupRowsWritten p) 0); [lia|].
      destruct (Z.ltb_spec (rowsBufCap p) (rowGroupSize p - rowGroupRowsWritten p)); [lia|].
      simpl. split; [reflexivity|]. lia.
    + exists (rowsBufLen p). unfold set_rowsBufLen. rewrite rowWriter_eta.
      split; [reflexivity|]. lia.
  - exists (rowsBufLen p). unfold set_rowsBufLen. rewrite rowWriter_eta.
    split; [reflexivity|]. lia.
Qed.

Lemma capToMaxRows_pos p :
  writerInv p -> 0 < rowsBufLen p ->
  maxNumRows p = 0 \/ totalRowsWritten p < maxNumRows p ->
  exists l, capToMaxRows p = Some (set_rowsBufLen l p) /\ 0 < l <= rowsBufLen p.
Proof.
  intros (Hlen & Hcap & Hsz & Hmx & Htot & Hgrp) Hbuf Hcond. unfold capToMaxRows.
  destruct (Z.eqb_spec (maxNumRows p) 0) as [Hz|Hnz]; simpl.
  - exists (rowsBufLen p). unfold set_rowsBufLen. rewrite rowWriter_eta.
    split; [reflexivity|]. lia.
  - specialize (Htot Hnz). destruct Hcond as [?|Hlt]; [contradiction|].
    unfold int_add, int_sub. rewrite !wrapInt_small by lia.
    destruct (Z.gtb_spec (totalRowsWritten p + rowsBufLen p) (maxNumRows p)) as [Hgt|Hle].
    + exists (maxNumRows p - totalRowsWritten p). unfold reslice.
      destruct (Z.ltb_spec (maxNumRows p - totalRowsWritten p) 0); [lia|].
      destruct (Z.ltb_spec (rowsBufCap p) (maxNumRows p - totalRowsWritten p)); [lia|].
      simpl. split; [reflexivity|]. lia.
    + exists (rowsBufLen p). unfold set_rowsBufLen. rewrite rowWriter_eta.
      split; [reflexivity|]. lia.
Qed.

Lemma writeRows_body_copies p rs written :
  copyReady p rs written ->
  maxNumRows p = 0 \/ totalRowsWritten p < maxNumRows p ->
  match writeRows_body sliceReader p rs written with
  | IterContinue p' rest written' =>
      exists took, took <> [] /\ rs = took ++ rest /\
        fileRows (w p') = fileRows (w p) ++ took /\
        written' = written + Z.of_nat (length took) /\
        totalRowsWritten p' = totalRowsWritten p + Z.of_nat (length took) /\
        0 < rowsBufLen p'
  | IterStop (WrRet n None p' rest) =>
      rs = [] /\ rest = [] /\ n = written /\ w p' = w p /\
      totalRowsWritten p' = totalRowsWritten p
  | IterStop (WrRet n (Some _) _ _) => n = 0
  | IterStop WrPanic => False
  | IterStop WrOutOfFuel => False
  end.
Proof.
  intros (Hinv & Hbuf & Hroom & Hwr & Htot0 & Hwb & Htb) Hcond. unfold writeRows_body.
  destruct (capToRowGroup_pos p Hinv Hbuf Hroom) as (l1 & E1 & Hl1). rewrite E1.
  pose proof (writerInv_set_rowsBufLen p l1 Hinv ltac:(lia)) as Hinv1.
  destruct (capToMaxRows_pos (set_rowsBufLen l1 p) Hinv1 ltac:(simpl; lia) Hcond)
    as (l2 & E2 & Hl2).
  rewrite E2. simpl in Hl2.
  set (p2 := set_rowsBufLen l2 (set_rowsBufLen l1 p)) in *.
  change (rowsBufLen p2) with l2. unfold sliceReader.
  remember (take (Z.to_nat l2) rs) as got eqn:Hgotdef.
  remember (drop (Z.to_nat l2) rs) as rest eqn:Hrestdef.
  assert (rs = got ++ rest) as Hsplit by (subst got rest; symmetry; apply take_drop).
  assert (Z.of_nat (length got) <= l2) as Hgot by (subst got; rewrite length_take; lia).
  assert (length rs = (length got + length rest)%nat) as Hlen
    by (rewrite Hsplit at 1; apply length_app).
  assert (match (if Z.of_nat (length got) =? 0
                 then IterStop (WrRet written None p2 rest)
                 else if rowsBufCap p2 <? Z.of_nat (length got) then IterStop WrPanic
                 else let '(w1, werr) := pw_WriteRows (w p2) got in
                      match werr with
                      | Some e => IterStop (WrRet 0 (Some e) (set_w w1 p2) rest)
                      | None =>
                          let p3 := addRows (Z.of_nat (length got)) (set_w w1 p2) in
                          if (rowGroupSize p3 >? 0) && (rowGroupRowsWritten p3 >=? rowGroupSize p3)
                          then let '(w2, ferr) := pw_Flush (w p3) in
                               match ferr with
                               | Some e => IterStop (WrRet 0 (Some e) (set_w w2 p3) rest)
                               | None => IterContinue (resetRowGroup (set_w w2 p3)) rest
                                           (int_add written (Z.of_nat (length got)))
                               end
                          else IterContinue p3 rest (int_add written (Z.of_nat (length got)))
                      end)
          with
          | IterContinue p' rest' written' =>
              exists took, took <> [] /\ rs = took ++ rest' /\
                fileRows (w p') = fileRows (w p) ++ took /\
                written' = written + Z.of_nat (length took) /\
                totalRowsWritten p' = totalRowsWritten p + Z.of_nat (length took) /\
                0 < rowsBufLen p'
          | IterStop (WrRet n None p' rest') =>
              rs = [] /\ rest' = [] /\ n = written /\ w p' = w p /\
              totalRowsWritten p' = totalRowsWritten p
          | IterStop (WrRet n (Some _) _ _) => n = 0
          | IterStop WrPanic => False
          | IterStop WrOutOfFuel => False
          end) as Hmain.
  2: { destruct rest; exact Hmain. }
  destruct (Z.eqb_spec (Z.of_nat (length got)) 0) as [Hz|Hnz].
  { assert (rs = []) as Hrs.
    { destruct rs as [|r rs']; [reflexivity|]. rewrite Hgotdef in Hz.
      rewrite length_take in Hz. simpl in Hz. lia. }
    split; [exact Hrs|]. split; [rewrite Hrestdef, Hrs; apply drop_nil|].
    repeat split; reflexivity. }
  set (n := Z.of_nat (length got)) in *.
  assert (0 < n) as Hnpos by (unfold n in *; lia).
  destruct Hinv as (Hblen & Hcap & Hsz & Hmx & Htot & Hgrp).
  destruct (Z.ltb_spec (rowsBufCap p2) n) as [Hbad|_]; [unfold p2 in Hbad; simpl in Hbad; lia|].
  unfold pw_WriteRows. change (w p2) with (w p).
  destruct (pw_fails (w p) (pw_calls (w p))) as [e|]; [reflexivity|].
  cbn zeta. cbn [addRows set_w w rowGroupSize rowGroupRowsWritten totalRowsWritten maxNumRows
                  rowsBufLen rowsBufCap p2 set_rowsBufLen pw_Flush pw_groups pw_open pw_calls
                  pw_fails].
  assert (got <> []) as Hne.
  { intros E. unfold n in Hnpos. rewrite E in Hnpos. simpl in Hnpos. lia. }
  assert (int_add written n = written + n) as Hwn.
  { unfold int_add. rewrite wrapInt_small; [reflexivity|]. unfold n. lia. }
  assert (int_add (totalRowsWritten p) n = totalRowsWritten p + n) as Htn.
  { unfold int_add. rewrite wrapInt_small; [reflexivity|]. unfold n. lia. }
  destruct ((rowGroupSize p >? 0) && (int_add (rowGroupRowsWritten p) n >=? rowGroupSize p)).
  - unfold pw_Flush. cbn [pw_fails pw_calls pw_groups pw_open].
    destruct (pw_fails (w p) (S (pw_calls (w p)))) as [e|]; [reflexivity|].
    exists got. split; [assumption|]. split; [assumption|].
    cbn [resetRowGroup set_w w totalRowsWritten rowsBufLen addRows].
    split.
    { unfold fileRows. cbn [pw_groups pw_open]. rewrite concat_app. simpl.
      rewrite !app_nil_r, app_assoc. reflexivity. }
    split; [exact Hwn|]. split; [exact Htn | unfold p2; simpl; lia].
  - exists got. split; [assumption|]. split; [assumption|].
    cbn [set_w w totalRowsWritten rowsBufLen addRows].
    split.
    { unfold fileRows. cbn [pw_groups pw_open]. rewrite app_assoc. reflexivity. }
    split; [exact Hwn|]. split; [exact Htn | unfold p2; simpl; lia].
Qed.

Lemma writeRows_loop_copies fuel : forall p rs written,
  copyReady p rs written ->
  match writeRows_loop sliceReader fuel p rs written with
  | WrRet n None p' rest =>
      exists took, rs = took ++ rest /\
        fileRows (w p') = fileRows (w p) ++ took /\
        n = written + Z.of_nat (length took) /\
        totalRowsWritten p' = totalRowsWritten p + Z.of_nat (length took) /\
        (rest = [] \/ (maxNumRows p <> 0 /\ maxNumRows p <= totalRowsWritten p'))
  | WrRet n (Some _) _ _ => n = 0
  | WrPanic => False
  | WrOutOfFuel => True
  end.
Proof.
  induction fuel as [|fuel IH]; intros p rs written Hready; cbn [writeRows_loop]; [exact I|].
  destruct ((maxNumRows p =? 0) || (totalRowsWritten p <? maxNumRows p)) eqn:Hcond.
  2: { apply orb_false_iff in Hcond as [Hz Hlt].
       apply Z.eqb_neq in Hz. apply Z.ltb_ge in Hlt.
       exists []. rewrite app_nil_r. simpl.
       split; [reflexivity|]. split; [reflexivity|]. split; [lia|]. split; [lia|].
       right. split; assumption. }
  assert (maxNumRows p = 0 \/ totalRowsWritten p < maxNumRows p) as Hc.
  { apply orb_true_iff in Hcond as [H|H]; [left; apply Z.eqb_eq | right; apply Z.ltb_lt];
      assumption. }
  pose proof (writeRows_body_copies p rs written Hready Hc) as Hcopy.
  destruct Hready as (Hinv & Hbuf & Hroom & Hwr & Htot0 & Hwb & Htb).
  pose proof (writeRows_body_spec sliceReader sliceReader_contract p rs written Hinv Hc)
    as Hbody.
  destruct (writeRows_body sliceReader p rs written)
    as [p' rest written'|[n [e|] p' rest| |]]; try assumption; try exact I.
  - destruct Hcopy as (took & Hne & Hsplit & Hfile & Hwr' & Htot' & Hbuf').
    destruct Hbody as (Hinv' & (Hm & Hs & _) & _ & Hroom').
    assert (length rs = (length took + length rest)%nat) as Hlen
      by (rewrite Hsplit; apply length_app).
    assert (copyReady p' rest written') as Hready'.
    { split; [assumption|]. split; [assumption|]. split; [rewrite Hs; assumption|]. lia. }
    specialize (IH p' rest written' Hready').
    destruct (writeRows_loop sliceReader fuel p' rest written') as [n [e|] p'' rest'| |];
      try assumption.
    destruct IH as (took' & Hsplit' & Hfile' & Hn & Htot'' & Hend).
    exists (took ++ took'). rewrite length_app.
    split; [rewrite Hsplit, Hsplit', app_assoc; reflexivity|].
    split; [rewrite Hfile', Hfile, app_assoc; reflexivity|].
    split; [lia|]. split; [lia|]. rewrite <- Hm. exact Hend.
  - destruct Hcopy as (-> & -> & -> & Hw & Htot').
    exists []. simpl. rewrite Hw, app_nil_r.
    split; [reflexivity|]. split; [reflexivity|]. split; [lia|]. split; [lia|].
    left. reflexivity.
Qed.

(** Every pass that goes round again has consumed at least one row. *)
Lemma writeRows_loop_copies_returns fuel : forall p rs written,
  copyReady p rs written -> (length rs < fuel)%nat ->
  writeRows_loop sliceReader fuel p rs written <> WrOutOfFuel.
Proof.
  induction fuel as [|fuel IH]; intros p rs written Hready Hfuel; [lia|].
  cbn [writeRows_loop].
  destruct ((maxNumRows p =? 0) || (totalRowsWritten p <? maxNumRows p)) eqn:Hcond;
    [|discriminate].
  assert (maxNumRows p = 0 \/ totalRowsWritten p < maxNumRows p) as Hc.
  { apply orb_true_iff in Hcond as [H|H]; [left; apply Z.eqb_eq | right; apply Z.ltb_lt];
      assumption. }
  pose proof (writeRows_body_copies p rs written Hready Hc) as Hcopy.
  destruct Hready as (Hinv & Hbuf & Hroom & Hwr & Htot0 & Hwb & Htb).
  pose proof (writeRows_body_spec sliceReader sliceReader_contract p rs written Hinv Hc)
    as Hbody.
  destruct (writeRows_body sliceReader p rs written)
    as [p' rest written'|[n err p' rest| |]]; try discriminate; try contradiction.
  destruct Hcopy as (took & Hne & Hsplit & Hfile & Hwr' & Htot' & Hbuf').
  destruct Hbody as (Hinv' & (Hm & Hs & _) & _ & Hroom').
  assert (length rs = (length took + length rest)%nat) as Hlen
    by (rewrite Hsplit; apply length_app).
  assert (0 < length took)%nat by (destruct took; [contradiction | simpl; lia]).
  apply IH; [|lia].
  split; [assumption|]. split; [assumption|]. split; [rewrite Hs; assumption|]. lia.
Qed.

(** X11.  [writeRows] copies rows from the reader to the parquet writer in order,
    without losing or repeating one.  For a writer between two calls with a
    buffer that is not empty and room in its open row group, reading from a
    slice [rs]: the call returns; when it returns no error, the rows the file
    holds are those it held before followed by a prefix [took] of [rs], the
    reader is left with the rest of [rs], the count returned is the length of
    [took] and [totalRowsWritten] has grown by it, and the call has stopped
    short of the end of [rs] only because [maxNumRows] was reached; when it
    returns an error the count returned is zero. *)
Theorem writeRows_copies_rows p rs :
  writerInv p -> 0 < rowsBufLen p ->
  (0 < rowGroupSize p -> rowGroupRowsWritten p < rowGroupSize p) ->
  0 <= totalRowsWritten p ->
  totalRowsWritten p + Z.of_nat (length rs) < 2 ^ 62 ->
  (exists n err p' rest, writeRows sliceReader (S (length rs)) p rs = WrRet n err p' rest) /\
  (forall fuel n p' rest,
     writeRows sliceReader fuel p rs = WrRet n None p' rest ->
     exists took,
       rs = took ++ rest /\
       fileRows (w p') = fileRows (w p) ++ took /\
       n = Z.of_nat (length took) /\
       totalRowsWritten p' = totalRowsWritten p + n /\
       (rest = [] \/ (maxNumRows p <> 0 /\ maxNumRows p <= totalRowsWritten p'))) /\
  (forall fuel n e p' rest,
     writeRows sliceReader fuel p rs = WrRet n (Some e) p' rest -> n = 0).
Proof.
  intros Hinv Hbuf Hroom Htot Hbound.
  assert (copyReady p rs 0) as Hready.
  { split; [assumption|]. split; [assumption|]. split; [assumption|]. lia. }
  split; [|split].
  - pose proof (writeRows_loop_copies_returns (S (length rs)) p rs 0 Hready ltac:(lia)) as Hret.
    pose proof (writeRows_loop_copies (S (length rs)) p rs 0 Hready) as Hspec.
    unfold writeRows.
    destruct (writeRows_loop sliceReader (S (length rs)) p rs 0) as [n err p' rest| |];
      [eauto | contradiction | contradiction].
  - intros fuel n p' rest Hrun.
    pose proof (writeRows_loop_copies fuel p rs 0 Hready) as Hspec.
    unfold writeRows in Hrun. rewrite Hrun in Hspec.
    destruct Hspec as (took & Hsplit & Hfile & Hn & Htot' & Hend).
    exists took. split; [assumption|]. split; [assumption|]. split; [lia|].
    split; [lia | assumption].
  - intros fuel n e p' rest Hrun.
    pose proof (writeRows_loop_copies fuel p rs 0 Hready) as Hspec.
    unfold writeRows in Hrun. rewrite Hrun in Hspec. exact Hspec.
Qed.

Lemma writeRows_copies_rows_witness :
  (exists n err p' rest,
     writeRows sliceReader (S (length sevenRows)) (exampleRowWriter goodWriter) sevenRows =
       WrRet n err p' rest) /\
  (forall fuel n p' rest,
     writeRows sliceReader fuel (exampleRowWriter goodWriter) sevenRows = WrRet n None p' rest ->
     exists took,
       sevenRows = took ++ rest /\
       fileRows (w p') = fileRows (w (exampleRowWriter goodWriter)) ++ took /\
       n = Z.of_nat (length took) /\
       totalRowsWritten p' = totalRowsWritten (exampleRowWriter goodWriter) + n /\
       (rest = [] \/ (maxNumRows (exampleRowWriter goodWriter) <> 0 /\
                      maxNumRows (exampleRowWriter goodWriter) <= totalRowsWritten p'))) /\
  (forall fuel n e p' rest,
     writeRows sliceReader fuel (exampleRowWriter goodWriter) sevenRows =
       WrRet n (Some e) p' rest -> n = 0).
Proof.
  apply (writeRows_copies_rows (exampleRowWriter goodWriter) sevenRows).
  - apply exampleRowWriter_inv; reflexivity.
  - simpl. lia.
  - simpl. lia.
  - simpl. lia.
  - simpl. lia.
Defined.

(** A writer without limits takes everything; a failing [Flush] makes the
    call return zero although three rows have reached the file. *)
Example writeRows_unlimited :
  exists p', writeRows sliceReader 10 (mkRowWriter goodWriter 0 0 0 0 4 4) sevenRows =
               WrRet 7 None p' [] /\
             fileRows (w p') = sevenRows.
Proof. eexists. vm_compute. split; reflexivity. Qed.

Example writeRows_error_returns_zero :
  exists p' rest,
    writeRows sliceReader 10
      (exampleRowWriter (mkWriter [] [] 0
         (fun n => if (n =? 1)%nat then Some (ErrExternal "disk full") else None)))
      sevenRows = WrRet 0 (Some (ErrExternal "disk full")) p' rest /\
    totalRowsWritten p' = 3 /\ pw_open (w p') = [[1]; [2]; [3]] /\ rest = [[4]; [5]; [6]; [7]].
Proof. do 2 eexists. vm_compute. repeat split; reflexivity. Qed.

(** ** Table configuration *)




Lemma applyOptions_app l1 l2 t : applyOptions (l1 ++ l2) t = applyOptions l2 (applyOptions l1 t).
Proof. unfold applyOptions. apply fold_left_app. Qed.

(** X13.  Options apply from left to right and [FromConfig] comes last with the
    values of its argument: whatever the options before it did,
    [RowGroupSize] and [DisableWal] are those of the given configuration, also
    when they are zero and false; [BlockReaderLimit] is taken from it unless
    it is zero there; the schema chosen by the first argument of
    [NewTableConfig] is never replaced. *)
Theorem FromConfig_overrides gomaxprocs schema options config cfg0 :
  NewTableConfig gomaxprocs schema options = Some cfg0 ->
  exists cfg,
    NewTableConfig gomaxprocs schema (options ++ [FromConfig config]) = Some cfg /\
    Schema cfg = Schema cfg0 /\
    RowGroupSize cfg = RowGroupSize config /\
    DisableWal cfg = DisableWal config /\
    BlockReaderLimit cfg =
      if BlockReaderLimit config =? 0 then BlockReaderLimit cfg0 else BlockReaderLimit config.
Proof.
  unfold NewTableConfig. intros H.
  destruct schema as [v|v|]; try discriminate; injection H as <-;
    rewrite applyOptions_app; eexists; (split; [reflexivity|]);
    cbn [applyOptions fold_left FromConfig fst Schema RowGroupSize DisableWal BlockReaderLimit];
    destruct (BlockReaderLimit config =? 0); repeat split; reflexivity.
Qed.

Lemma FromConfig_overrides_witness :
  exists cfg,
    NewTableConfig 8 (Msg_SchemaV2 7)
      ([WithoutWAL; WithRowGroupSize 100] ++ [FromConfig (mkConfig None 0 0 false)]) =
      Some cfg /\
    Schema cfg = Schema (mkConfig (Some (TableConfig_SchemaV2 7)) 100 8 true) /\
    RowGroupSize cfg = RowGroupSize (mkConfig None 0 0 false) /\
    DisableWal cfg = DisableWal (mkConfig None 0 0 false) /\
    BlockReaderLimit cfg =
      if BlockReaderLimit (mkConfig None 0 0 false) =? 0
      then BlockReaderLimit (mkConfig (Some (TableConfig_SchemaV2 7)) 100 8 true)
      else BlockReaderLimit (mkConfig None 0 0 false).
Proof.
  apply (FromConfig_overrides 8 (Msg_SchemaV2 7) [WithoutWAL; WithRowGroupSize 100]
           (mkConfig None 0 0 false) (mkConfig (Some (TableConfig_SchemaV2 7)) 100 8 true)).
  reflexivity.
Defined.

(** ** Construction of a table *)

Section NewTableFacts.
Context {dynSchema : Type}.
Variable SchemaFromDefinition : protoMessage -> dynSchema + error.

(** X14.  [newTable] checks the column store before anything else, the index
    degree first; a nil configuration is replaced by the default one, which
    has no schema; the result carries the schema built from the configuration,
    which [Schema()] returns; the WAL given is kept unless the configuration
    disables it, in which case the table logs to a fresh [NopWAL]. *)
Theorem newTable_checks cs d nm tableConfig gomaxprocs wl ulids :
  let c := match tableConfig with Some c => c | None => defaultTableConfig gomaxprocs end in
  match newTable SchemaFromDefinition cs d nm tableConfig gomaxprocs wl ulids with
  | inr (ErrIndexDegree n) => n = indexDegree cs /\ indexDegree cs <= 0
  | inr (ErrSplitSize n) => n = splitSize cs /\ 0 < indexDegree cs /\ splitSize cs < 2
  | inr (ErrSchema e) =>
      0 < indexDegree cs /\ 2 <= splitSize cs /\
      schemaFromTableConfig SchemaFromDefinition c = inr e
  | inl h =>
      0 < indexDegree cs /\ 2 <= splitSize cs /\
      config h = Some c /\
      schemaFromTableConfig SchemaFromDefinition c = inl (schema h) /\
      Table_Schema h = schema h /\
      (tableConfig = None -> Table_Schema h = None) /\
      wal (tbl h) = (if DisableWal c then NopWAL else wl) /\
      db (tbl h) = d /\ name (tbl h) = nm
  end.
Proof.
  intros c. unfold newTable.
  destruct (Z.leb_spec (indexDegree cs) 0); [split; [reflexivity | assumption]|].
  destruct (Z.ltb_spec (splitSize cs) 2); [repeat split; assumption|].
  fold c. destruct (schemaFromTableConfig SchemaFromDefinition c) as [s|e] eqn:Hs.
  - cbn [config schema tbl wal db name]. unfold Table_Schema. cbn [config schema].
    repeat split; try assumption; try reflexivity.
    intros ->. unfold c in Hs. cbn in Hs. congruence.
  - repeat split; assumption.
Qed.

End NewTableFacts.


(** ** A threshold that is not positive *)

(** X16.  With [activeMemorySize <= 0] the loop of [appender] never ends: every
    block, also a fresh empty one, has reached the threshold, so each pass
    releases the slot and rotates.  On an open table whose active block has a
    size that is not negative and whose WAL accepts every entry, no amount of
    fuel lets [appender], or [InsertRecord], return. *)
Theorem appender_never_returns ctx record fuel : forall t a b,
  wf t -> closing t = false -> activeMemorySize (db t) <= 0 ->
  active t = Some a -> heap t !! a = Some b -> 0 <= Size b ->
  (forall calls c, wal_fails (wal t) calls c = None) ->
  appender fuel ctx t = OutOfFuel /\ InsertRecord fuel ctx record t = OutOfFuel.
Proof.
  assert (forall t a b,
    wf t -> closing t = false -> activeMemorySize (db t) <= 0 ->
    active t = Some a -> heap t !! a = Some b -> 0 <= Size b ->
    (forall calls c, wal_fails (wal t) calls c = None) ->
    appender fuel ctx t = OutOfFuel) as Happ.
  { induction fuel as [|fuel IH]; intros t a b Hwf Hcl Hth Ha Hb Hsz Hwal; [reflexivity|].
    destruct (wf_active t Hwf) as (p & b' & Ha' & Hp & Hw).
    rewrite Ha in Ha'. inversion Ha'; subst p. rewrite Hb in Hp. inversion Hp; subst b'.
    rewrite (appender_step fuel ctx t a b Hcl Ha Hb Hw).
    destruct (Z.ltb_spec (Size b) (activeMemorySize (db t))); [lia|].
    destruct (RotateBlock_active ctx a t b Ha Hb)
      as (t1 & HR & Hdb & _ & Hwal1 & Hcl1 & _ & _ & Hcase).
    rewrite Hwal in HR, Hcase. rewrite HR.
    destruct Hcase as (Hact1 & Hheap1 & _).
    apply (IH t1 (length (heap t))
             (new_block (minTx b) (wrap64 (db_tx (db t) + 1)) (ulidSeq t (ulidNext t)))).
    - eapply RotateBlock_wf; eassumption.
    - congruence.
    - rewrite Hdb. simpl. assumption.
    - assumption.
    - rewrite Hheap1. apply list_lookup_middle. reflexivity.
    - simpl. lia.
    - intros calls c. rewrite Hwal1. simpl. apply Hwal. }
  intros t a b Hwf Hcl Hth Ha Hb Hsz Hwal.
  pose proof (Happ t a b Hwf Hcl Hth Ha Hb Hsz Hwal) as H.
  split; [exact H|]. unfold InsertRecord. unfold bind at 1. rewrite H. reflexivity.
Qed.

(** The example table over a database whose threshold is zero. *)
Lemma appender_never_returns_witness :
  appender 50 liveCtx
    (set_db (fun d => mkDB (db_name d) (db_tx d) (db_committed d) 0 (db_sources d))
       (exampleTable NopWAL)) = OutOfFuel /\
  InsertRecord 50 liveCtx threeRows
    (set_db (fun d => mkDB (db_name d) (db_tx d) (db_committed d) 0 (db_sources d))
       (exampleTable NopWAL)) = OutOfFuel.
Proof.
  apply (appender_never_returns liveCtx threeRows 50
           (set_db (fun d => mkDB (db_name d) (db_tx d) (db_committed d) 0 (db_sources d))
              (exampleTable NopWAL))
           0%nat (new_block 0 1 (Z.shiftl 1000 80))).
  - split; [exists 0%nat; split; [reflexivity | simpl; lia] | repeat constructor; simpl; lia].
  - reflexivity.
  - simpl. lia.
  - reflexivity.
  - reflexivity.
  - simpl. lia.
  - reflexivity.
Defined.

(** ** What an insertion counts *)

Lemma appender_error_frame ctx fuel : forall t err t',
  wf t -> appender fuel ctx t = Ret (inr err) t' -> frame t t'.
Proof.
  induction fuel as [|fuel IH]; intros t err t' Hwf Happ; [discriminate|].
  destruct (closing t) eqn:Hc.
  { rewrite appender_closing in Happ by assumption. inversion Happ. apply frame_refl. }
  destruct (wf_active t Hwf) as (p & b & Ha & Hp & Hw).
  rewrite (appender_step fuel ctx t p b Hc Ha Hp Hw) in Happ.
  destruct (Size b <? activeMemorySize (db t)); [discriminate|].
  destruct (RotateBlock ctx p t) as [[e|] t1| | |] eqn:HR; try discriminate.
  - inversion Happ; subst. eapply RotateBlock_frame. eassumption.
  - eapply frame_trans; [eapply RotateBlock_frame; eassumption|].
    eapply IH; [eapply RotateBlock_wf; eassumption | eassumption].
Qed.

(** X17.  The insertion metrics follow the result of [InsertRecord].  When it
    returns no error, [rowsInserted] has grown by the number of rows of the
    batch, the histogram [rowInsertSize] has one more observation, that
    number, and [zeroRowsInserted] has grown by one exactly for an empty
    batch.  When it returns an error, whichever, the three are what they were
    before the call. *)
Theorem InsertRecord_counts_rows fuel ctx record t tx oerr t' :
  wf t -> InsertRecord fuel ctx record t = Ret (tx, oerr) t' ->
  match oerr with
  | None =>
      rowsInserted (metrics t') = rowsInserted (metrics t) + NumRows record /\
      rowInsertSize (metrics t') = rowInsertSize (metrics t) ++ [NumRows record] /\
      zeroRowsInserted (metrics t') =
        zeroRowsInserted (metrics t) + (if NumRows record =? 0 then 1 else 0)
  | Some _ =>
      rowsInserted (metrics t') = rowsInserted (metrics t) /\
      rowInsertSize (metrics t') = rowInsertSize (metrics t) /\
      zeroRowsInserted (metrics t') = zeroRowsInserted (metrics t)
  end.
Proof.
  intros Hwf HI.
  destruct (InsertRecord_inv _ _ _ _ _ _ HI) as [(err & Happ & Hres)|(blk & t1 & Happ)].
  - injection Hres as _ ->.
    pose proof (appender_error_frame ctx fuel t err t' Hwf Happ) as Hfr.
    split; [apply (frame_rows _ _ Hfr)|].
    split; [apply (frame_sizes _ _ Hfr) | apply (frame_zero _ _ Hfr)].
  - destruct (appender_post ctx fuel t blk t1 Hwf Happ)
      as (Hwf1 & Hfr & Hact & Hcl & b & Hb & Hsz & Hw).
    destruct (InsertRecord_after_appender fuel ctx record t blk t1 b Happ Hb Hw)
      as (t2 & HI2 & _ & _ & _ & _ & _ & Hcase).
    rewrite HI in HI2.
    destruct (wal_fails (wal t1) (wal_calls (wal t1)) _) as [e|].
    + injection HI2 as _ -> ->. destruct Hcase as [_ Hmet]. rewrite Hmet.
      split; [apply (frame_rows _ _ Hfr)|].
      split; [apply (frame_sizes _ _ Hfr) | apply (frame_zero _ _ Hfr)].
    + injection HI2 as _ -> ->. destruct Hcase as (Hrows & Hsizes & Hz).
      rewrite Hrows, Hsizes, (frame_rows _ _ Hfr), (frame_sizes _ _ Hfr).
      split; [reflexivity|]. split; [reflexivity|].
      destruct (NumRows record =? 0).
      * destruct Hz as [_ Hz]. rewrite Hz, (frame_zero _ _ Hfr). reflexivity.
      * destruct Hz as (_ & _ & Hz). rewrite Hz, (frame_zero _ _ Hfr). lia.
Qed.

Lemma InsertRecord_counts_rows_witness :
  exists t',
    InsertRecord 3 liveCtx threeRows (fullTable NopWAL) = Ret (3, None) t' /\
    rowsInserted (metrics t') = rowsInserted (metrics (fullTable NopWAL)) + NumRows threeRows /\
    rowInsertSize (metrics t') =
      rowInsertSize (metrics (fullTable NopWAL)) ++ [NumRows threeRows] /\
    zeroRowsInserted (metrics t') =
      zeroRowsInserted (metrics (fullTable NopWAL)) + (if NumRows threeRows =? 0 then 1 else 0).
Proof.
  eexists. split; [vm_compute; reflexivity|].
  apply (InsertRecord_counts_rows 3 liveCtx threeRows (fullTable NopWAL) 3 None).
  - split; [exists 0%nat; split; [reflexivity | simpl; lia] | repeat constructor; simpl; lia].
  - vm_compute. reflexivity.
Defined.

(** ** Insertion keeps the table well formed *)

Lemma appender_safe ctx fuel : forall t,
  wf t ->
  match appender fuel ctx t with
  | Ret _ t' => wf t'
  | Panic => False
  | Blocked => False
  | OutOfFuel => True
  end.
Proof.
  induction fuel as [|fuel IH]; intros t Hwf; [exact I|].
  destruct (closing t) eqn:Hc.
  { rewrite appender_closing by assumption. assumption. }
  destruct (wf_active t Hwf) as (p & b & Ha & Hp & Hw).
  rewrite (appender_step fuel ctx t p b Hc Ha Hp Hw).
  destruct (Size b <? activeMemorySize (db t)).
  - apply wf_alter_writers; [assumption | lia].
  - destruct (RotateBlock_active ctx p t b Ha Hp) as (t1 & HR & _).
    rewrite HR. pose proof (RotateBlock_wf _ _ _ _ _ Hwf HR) as Hwf1.
    destruct (wal_fails (wal t) (wal_calls (wal t)) _) as [e|]; [assumption|].
    apply IH. assumption.
Qed.

Lemma Forall_map_eq {A} (P : Z -> Prop) (f : A -> Z) (l1 l2 : list A) :
  map f l1 = map f l2 -> Forall (fun x => P (f x)) l2 -> Forall (fun x => P (f x)) l1.
Proof.
  intros Hm H. apply (Forall_map f P). rewrite Hm. apply (Forall_map f P). assumption.
Qed.

(** X18.  On a well-formed table (the active pointer is valid, no writer counter is
    negative) [InsertRecord] neither panics nor waits: it returns, or its loop
    is still rotating when the fuel ends.  When it returns, with or without
    error, the table is well formed again, and readable if it was. *)
Theorem InsertRecord_keeps_well_formed fuel ctx record t :
  wf t ->
  InsertRecord fuel ctx record t <> Panic /\
  InsertRecord fuel ctx record t <> Blocked /\
  forall res t', InsertRecord fuel ctx record t = Ret res t' ->
                 wf t' /\ (readable t -> readable t').
Proof.
  intros Hwf. pose proof (appender_safe ctx fuel t Hwf) as Hsafe.
  destruct (appender fuel ctx t) as [[blk|err] t1| | |] eqn:Happ; try contradiction.
  - destruct (appender_post ctx fuel t blk t1 Hwf Happ)
      as (Hwf1 & Hfr & Hact & Hcl & b & Hb & Hsz & Hw).
    destruct (InsertRecord_after_appender fuel ctx record t blk t1 b Happ Hb Hw)
      as (t2 & HI & _ & _ & Hptrs & Hws & Hrs & _).
    rewrite HI. split; [discriminate|]. split; [discriminate|].
    intros res t' [= <- <-]. split.
    + destruct Hwf1 as [(a & Ha & Hlt) Hall]. split.
      * exists blk. split; [eapply memoryPtrs_active; eassumption|].
        apply (f_equal (@length _)) in Hws. rewrite !length_map, length_alter in Hws.
        rewrite Hws. eapply lookup_lt_Some. eassumption.
      * apply (Forall_map_eq (fun n => 0 <= n) pendingWritersWg _ _ Hws).
        apply Forall_forall. intros x Hx. apply list_elem_of_lookup in Hx as [i Hi].
        destruct (lookup_alter_writers _ _ _ _ _ Hi) as (b0 & Hb0 & _ & _ & _ & _ & Hne & Heq).
        destruct (decide (blk = i)) as [<-|Hd].
        -- rewrite (Heq eq_refl). lia.
        -- rewrite (Hne Hd). rewrite Forall_forall in Hall. apply Hall.
           apply list_elem_of_lookup. eauto.
    + intros Hr. apply (readable_heap t1 t2 Hptrs Hrs). apply (frame_readable _ _ Hfr Hr).
  - assert (InsertRecord fuel ctx record t = Ret (0, Some (Errorf "get appender" err)) t1) as HI.
    { unfold InsertRecord. unfold bind at 1. rewrite Happ. reflexivity. }
    rewrite HI. split; [discriminate|]. split; [discriminate|].
    intros res t' [= <- <-]. split; [assumption|].
    apply (frame_readable _ _ (appender_error_frame ctx fuel t err t1 Hwf Happ)).
  - assert (InsertRecord fuel ctx record t = OutOfFuel) as HI.
    { unfold InsertRecord. unfold bind at 1. rewrite Happ. reflexivity. }
    rewrite HI. split; [discriminate|]. split; [discriminate|]. intros res t' [=].
Qed.

Lemma InsertRecord_keeps_well_formed_witness :
  InsertRecord 3 liveCtx threeRows (fullTable failingLogRecordWAL) <> Panic /\
  InsertRecord 3 liveCtx threeRows (fullTable failingLogRecordWAL) <> Blocked /\
  forall res t',
    InsertRecord 3 liveCtx threeRows (fullTable failingLogRecordWAL) = Ret res t' ->
    wf t' /\ (readable (fullTable failingLogRecordWAL) -> readable t').
Proof.
  apply (InsertRecord_keeps_well_formed 3 liveCtx threeRows (fullTable failingLogRecordWAL)).
  split; [exists 0%nat; split; [reflexivity | simpl; lia] | repeat constructor; simpl; lia].
Defined.

(** ** [Iterator] *)

Section IteratorFacts.
Context {Conv : Type}.
Variable NewParquetConverter : Conv.
Variable conv_Convert : Conv -> list string -> Conv * option error.
Variable conv_Fields : Conv -> list string.
Variable conv_NumRows : Conv -> Z.
Variable conv_NewRecord : Conv -> option arrowRecord * Conv.



End IteratorFacts.


(** The same run: the first batch goes to worker 0, the second to worker 1. *)
Example Iterator_two_workers :
  Iterator tt (fun c _ => (c, None)) (fun _ => []) (fun _ => 0) (fun c => (None, c))
    liveCtx 3 [fun _ => None; fun _ => None] [0%nat; 1%nat] twoBatchTable =
    Ret ([(0%nat, Some threeRows); (1%nat, Some twoRows)], None) twoBatchTable.
Proof. vm_compute. reflexivity. Qed.

(** ** [aggregate.go]: group keys *)

Lemma xorAll_Permutation l l' : l ≡ₚ l' -> xorAll l = xorAll l'.
Proof.
  unfold xorAll. induction 1 as [|x l l' _ IH|x y l|l1 l2 l3 _ IH1 _ IH2]; simpl.
  - reflexivity.
  - rewrite IH. reflexivity.
  - rewrite <- !Z.lxor_assoc, (Z.lxor_comm y x). reflexivity.
  - congruence.
Qed.

Lemma lxor_shuffle h a b x y :
  Z.lxor (Z.lxor (Z.lxor h a) b) (Z.lxor x y) = Z.lxor h (Z.lxor (Z.lxor a x) (Z.lxor b y)).
Proof.
  apply Z.bits_inj'. intros n _. rewrite !Z.lxor_spec.
  destruct (Z.testbit h n), (Z.testbit a n), (Z.testbit b n), (Z.testbit x n),
    (Z.testbit y n); reflexivity.
Qed.

Section GroupKeyFacts.
Context {Scalar : Type}.
Variable IsValid : Scalar -> bool.
Variable Hash64Str : string -> Z.
Variable scalar_Hash : Scalar -> Z.

Lemma groupKey_loop_valid names : forall vals hash,
  length names = length vals ->
  Forall (fun s => IsValid s = true) vals ->
  groupKey_loop IsValid Hash64Str scalar_Hash hash (rowColumns names vals) =
  Z.lxor hash (Z.lxor (xorAll (map Hash64Str names)) (xorAll (map scalar_Hash vals))).
Proof.
  unfold rowColumns.
  induction names as [|n names IH]; intros [|s vals] hash Hlen Hall; try discriminate.
  - simpl. rewrite Z.lxor_0_r. reflexivity.
  - inversion Hall as [|? ? Hs Hrest]; subst. cbn [map zip zip_with groupKey_loop].
    rewrite Hs. cbn [negb]. rewrite IH by (try assumption; simpl in Hlen; lia).
    unfold xorAll. cbn [map foldr]. apply lxor_shuffle.
Qed.

(** X20.  The key under which [HashAggregate.Callback] groups a row does not
    tell which group-by column holds which value.  For rows whose group-by
    scalars are all valid: two rows over the same fields whose values are a
    rearrangement of each other have the same key, and a row that holds the
    same value in two columns has the key of the two field names alone,
    whatever the value.  Such rows are looked up under one entry of
    [hashToAggregate], for every choice of the two hash functions. *)
Theorem groupKey_ignores_columns names vals vals' :
  length names = length vals ->
  Forall (fun s => IsValid s = true) vals ->
  vals ≡ₚ vals' ->
  groupKey IsValid Hash64Str scalar_Hash (rowColumns names vals) =
  groupKey IsValid Hash64Str scalar_Hash (rowColumns names vals') /\
  forall n1 n2 s, IsValid s = true ->
    groupKey IsValid Hash64Str scalar_Hash (rowColumns [n1; n2] [s; s]) =
    Z.lxor (Hash64Str n1) (Hash64Str n2).
Proof.
  intros Hlen Hall Hperm. split.
  - unfold groupKey. rewrite !groupKey_loop_valid.
    + rewrite (xorAll_Permutation _ _ (Permutation_map scalar_Hash Hperm)). reflexivity.
    + rewrite <- (Permutation_length Hperm). assumption.
    + rewrite <- Hperm. assumption.
    + assumption.
    + assumption.
  - intros n1 n2 s Hs. unfold groupKey.
    rewrite groupKey_loop_valid by (repeat constructor; assumption).
    unfold xorAll. cbn [map foldr]. rewrite !Z.lxor_0_r, Z.lxor_nilpotent, Z.lxor_0_r.
    reflexivity.
Qed.
End GroupKeyFacts.

(** Rows (1, 2) and (2, 1) over the fields [a] and [b], with any hashes. *)
Lemma groupKey_ignores_columns_witness :
  groupKey (fun _ : Z => true) (fun n => Z.of_nat (String.length n)) (fun v => v * 7919)
    (rowColumns ["a"%string; "b"%string] [1; 2]) =
  groupKey (fun _ : Z => true) (fun n => Z.of_nat (String.length n)) (fun v => v * 7919)
    (rowColumns ["a"%string; "b"%string] [2; 1]) /\
  forall n1 n2 s, (fun _ : Z => true) s = true ->
    groupKey (fun _ : Z => true) (fun n => Z.of_nat (String.length n)) (fun v => v * 7919)
      (rowColumns [n1; n2] [s; s]) =
    Z.lxor ((fun n => Z.of_nat (String.length n)) n1) ((fun n => Z.of_nat (String.length n)) n2).
Proof.
  apply (groupKey_ignores_columns (fun _ : Z => true) (fun n => Z.of_nat (String.length n))
           (fun v => v * 7919) ["a"%string; "b"%string] [1; 2] [2; 1]).
  - reflexivity.
  - repeat constructor.
  - apply perm_swap.
Defined.

(** ** [aggregate.go]: [Int64SumAggregation] *)

Section Int64SumFacts.
Variable Int64_Sum : list Z -> Z.

Lemma sumInt64arrays_spec arrs :
  match sumInt64arrays Int64_Sum arrs with
  | Some sums =>
      exists vss, arrs = map ArrInt64 vss /\ sums = map Int64_Sum vss
  | None => exists typ, ArrOther typ ∈ arrs
  end.
Proof.
  induction arrs as [|[vs|typ] arrs IH]; cbn [sumInt64arrays].
  - exists []. split; reflexivity.
  - destruct (sumInt64arrays Int64_Sum arrs) as [sums|].
    + destruct IH as (vss & -> & ->). exists (vs :: vss). split; reflexivity.
    + destruct IH as (typ & Hin). exists typ. right. assumption.
  - exists typ. left.
Qed.

(** X21.  [Int64SumAggregation.Aggregate] looks at the type of the first array
    only.  No array gives the empty result.  If the first array is not an
    int64 array the call returns [ErrUnsupportedSumType], wrapped with the
    name of that type, whatever follows.  If the first array is an int64
    array the call returns one sum per array, in order, when all arrays are
    int64 arrays, and panics otherwise. *)
Theorem Int64SumAggregation_checks_first_array arrs :
  match Int64SumAggregation_Aggregate Int64_Sum arrs with
  | Some (inl sums) =>
      exists vss, arrs = map ArrInt64 vss /\ sums = map Int64_Sum vss
  | Some (inr e) =>
      exists typ rest, arrs = ArrOther typ :: rest /\
                       e = Errorf ("sum array of " ++ typ) ErrUnsupportedSumType
  | None =>
      exists vs rest typ, arrs = ArrInt64 vs :: rest /\ ArrOther typ ∈ rest
  end.
Proof.
  destruct arrs as [|[vs|typ] rest]; unfold Int64SumAggregation_Aggregate.
  - exists []. split; reflexivity.
  - pose proof (sumInt64arrays_spec (ArrInt64 vs :: rest)) as H.
    destruct (sumInt64arrays Int64_Sum (ArrInt64 vs :: rest)) as [sums|]; [exact H|].
    destruct H as (typ & Hin). exists vs, rest, typ. split; [reflexivity|].
    apply elem_of_cons in Hin as [Heq|Hin]; [discriminate | assumption].
  - exists typ, rest. split; reflexivity.
Qed.
End Int64SumFacts.

(** An int64 array followed by a string array: the type assertion panics. *)
Example Int64SumAggregation_mixed_arrays :
  Int64SumAggregation_Aggregate (fun vs => fold_right Z.add 0 vs)
    [ArrInt64 [1; 2]; ArrOther "utf8"] = None /\
  Int64SumAggregation_Aggregate (fun vs => fold_right Z.add 0 vs)
    [ArrInt64 [1; 2]; ArrInt64 [3]] = Some (inl [3; 3]).
Proof. split; reflexivity. Qed.
